(** * The slice intern table of gRPC core (src/core/lib/slice/slice_intern.cc)

    A shallow embedding of the sharded, chained hash table that interns byte
    sequences, and the properties of its find-or-create, growth, unlink,
    initialisation and shutdown code.

    Memory is explicit.  Entries ([InternedSliceRefcount] headers followed by
    their bytes) live in a heap indexed by addresses; bucket arrays live in a
    second heap; [nullptr] is [None].  The intrusive [bucket_next] links are
    kept as pointers, so that relinking, unlinking and walking off the end of
    a chain are what they are in the C++ code. *)

From stdpp Require Import gmap list strings.
From Stdlib Require Import ZArith Lia.
From Stdlib.Strings Require Import Byte.

#[global] Instance byte_eq_dec : EqDecision byte := Byte.byte_eq_dec.

#[local] Open Scope Z_scope.

(** ** Machine integers *)

(** [uint32_t] and [size_t] values are integers with their wrap-around
    written out. *)
Definition uint32 (z : Z) : Z := z mod 2 ^ 32.
Definition size_t (z : Z) : Z := z mod 2 ^ 64.

(** ** Constants and index macros *)

Definition LOG2_SHARD_COUNT : Z := 5.
Definition SHARD_COUNT : Z := Z.shiftl 1 LOG2_SHARD_COUNT.
Definition INITIAL_SHARD_CAPACITY : Z := 8.

(** [%] by a capacity of zero is undefined in C, where [mod] is total:
    what is proved of [TABLE_IDX] is under a nonzero capacity. *)
Definition TABLE_IDX (hash capacity : Z) : Z :=
  (Z.shiftr hash LOG2_SHARD_COUNT) mod capacity.
Definition SHARD_IDX (hash : Z) : Z :=
  Z.land hash (Z.shiftl 1 LOG2_SHARD_COUNT - 1).

(** ** Data *)

(** Addresses, and possibly null pointers to an entry. *)
Abbreviation loc := positive (only parsing).
Abbreviation ptr := (option positive) (only parsing).

(** Modelled from the spec: the declaration of the struct is in
    slice_internal.h; its constructor takes the length, the hash and the
    bucket link, and a new entry starts with reference count 1.  The record
    is the header of an interned slice and the bytes stored right after it
    ([s + 1]). *)
Record InternedSliceRefcount : Type := mkRefcount {
  e_length : Z;
  e_refcnt : Z;
  e_hash : Z;
  bucket_next : ptr;
  e_bytes : list byte
}.

Record slice_shard : Type := mkShard {
  strs : loc;          (* address of the bucket array *)
  count : Z;
  capacity : Z
}.

Inductive log_line : Type :=
| LogWarning (n : Z)            (* "WARNING: %d metadata strings were leaked" *)
| LogLeaked (text : string).    (* "LEAKED: %s" *)

Record world : Type := mkWorld {
  heap : gmap loc InternedSliceRefcount;   (* gpr_malloc'ed entries *)
  tabs : gmap loc (list ptr);              (* gpr_zalloc'ed bucket arrays *)
  g_shards : option (list slice_shard);    (* None: null or deleted *)
  g_hash_seed : Z;
  g_forced_hash_seed : bool;
  log : list log_line
}.

Definition set_heap (h : gmap loc InternedSliceRefcount) (w : world) : world :=
  mkWorld h (tabs w) (g_shards w) (g_hash_seed w) (g_forced_hash_seed w) (log w).
Definition set_tabs (t : gmap loc (list ptr)) (w : world) : world :=
  mkWorld (heap w) t (g_shards w) (g_hash_seed w) (g_forced_hash_seed w) (log w).
Definition set_shards (s : option (list slice_shard)) (w : world) : world :=
  mkWorld (heap w) (tabs w) s (g_hash_seed w) (g_forced_hash_seed w) (log w).
Definition add_log (l : log_line) (w : world) : world :=
  mkWorld (heap w) (tabs w) (g_shards w) (g_hash_seed w) (g_forced_hash_seed w)
          (log w ++ [l]).

Definition set_next (n : ptr) (e : InternedSliceRefcount) : InternedSliceRefcount :=
  mkRefcount (e_length e) (e_refcnt e) (e_hash e) n (e_bytes e).
Definition set_refcnt (r : Z) (e : InternedSliceRefcount) : InternedSliceRefcount :=
  mkRefcount (e_length e) r (e_hash e) (bucket_next e) (e_bytes e).

(** ** Outcomes *)

(** What C++ leaves undefined is a [Fault]; [abort()] is [Abort], with the
    world as it was when the process stopped; a loop that never ends is
    [Diverge]. *)
Inductive fault : Type := NullDeref | DanglingDeref | OutOfBounds.

Inductive outcome (A : Type) : Type :=
| Ok (a : A)
| Abort (w : world)
| Fault (f : fault)
| Diverge.
Arguments Ok {A} a.
Arguments Abort {A} w.
Arguments Fault {A} f.
Arguments Diverge {A}.

#[global] Instance outcome_bind : MBind outcome := λ A B k m,
  match m with
  | Ok a => k a
  | Abort w => Abort w
  | Fault f => Fault f
  | Diverge => Diverge
  end.
#[global] Instance outcome_ret : MRet outcome := λ A a, Ok a.

(** Reading through a pointer or an index. *)
Definition deref {A} (f : fault) (o : option A) : outcome A :=
  match o with Some a => Ok a | None => Fault f end.

(** A chain without a repeated node has at most [size h] nodes; a walk is
    given one step more than that, and one that is still going after it has
    revisited a node, from where it repeats forever. *)
Definition fuel (h : gmap loc InternedSliceRefcount) : nat := S (size h).

(** ** The destructor: unlink an entry from its bucket *)

(** [prev_next] points either at a bucket head or at the [bucket_next] field
    of an entry. *)
Inductive slot : Type :=
| SlotBucket (t : loc) (idx : Z)
| SlotNext (s : loc).

(** The [for] loop of the destructor: it stops only on [cur == this], so on
    a null [cur] the loop step reads [cur->bucket_next]. *)
Fixpoint unlink_scan (n : nat) (h : gmap loc InternedSliceRefcount)
    (prev_next : slot) (cur : ptr) (this : loc) : outcome slot :=
  match n with
  | O => Diverge
  | S n' =>
      if bool_decide (cur = Some this) then Ok prev_next
      else
        c ← deref NullDeref cur;
        e ← deref DanglingDeref (h !! c);
        unlink_scan n' h (SlotNext c) (bucket_next e) this
  end.

Definition write_slot (p : slot) (v : ptr) (w : world) : outcome world :=
  match p with
  | SlotBucket t idx =>
      arr ← deref DanglingDeref (tabs w !! t);
      _ ← deref OutOfBounds (arr !! Z.to_nat idx);
      Ok (set_tabs (<[t := <[Z.to_nat idx := v]> arr]> (tabs w)) w)
  | SlotNext s =>
      e ← deref DanglingDeref (heap w !! s);
      Ok (set_heap (<[s := set_next v e]> (heap w)) w)
  end.

Definition read_shard (w : world) (i : nat) : outcome slice_shard :=
  shards ← deref NullDeref (g_shards w);
  deref OutOfBounds (shards !! i).

Definition write_shard (i : nat) (sh : slice_shard) (w : world) : outcome world :=
  shards ← deref NullDeref (g_shards w);
  _ ← deref OutOfBounds (shards !! i);
  Ok (set_shards (Some (<[i := sh]> shards)) w).

Definition read_bucket (w : world) (sh : slice_shard) (idx : Z) : outcome ptr :=
  arr ← deref DanglingDeref (tabs w !! strs sh);
  deref OutOfBounds (arr !! Z.to_nat idx).

Definition InternedSliceRefcount_dtor (this : loc) (w : world) : outcome world :=
  t ← deref DanglingDeref (heap w !! this);
  let si := Z.to_nat (SHARD_IDX (e_hash t)) in
  shard ← read_shard w si;
  let idx := TABLE_IDX (e_hash t) (capacity shard) in
  cur ← read_bucket w shard idx;
  prev_next ← unlink_scan (fuel (heap w)) (heap w) (SlotBucket (strs shard) idx) cur this;
  w1 ← write_slot prev_next (bucket_next t) w;
  write_shard si (mkShard (strs shard) (size_t (count shard - 1)) (capacity shard)) w1.

(** ** Growing a shard *)

(** The inner loop of [grow_shard]: every node of one old chain is pushed on
    the front of its new bucket. *)
Fixpoint grow_chain (n : nat) (capacity : Z) (s : ptr)
    (st : gmap loc InternedSliceRefcount * list ptr)
    : outcome (gmap loc InternedSliceRefcount * list ptr) :=
  match n with
  | O => Diverge
  | S n' =>
      match s with
      | None => Ok st
      | Some a =>
          e ← deref DanglingDeref (st.1 !! a);
          let idx := TABLE_IDX (e_hash e) capacity in
          let next := bucket_next e in
          head ← deref OutOfBounds (st.2 !! Z.to_nat idx);
          grow_chain n' capacity next
            (<[a := set_next head e]> st.1, <[Z.to_nat idx := Some a]> st.2)
      end
  end.

(** The outer loop, [for (i = 0; i < shard->capacity; i++)], with [n] the
    number of iterations left. *)
Fixpoint grow_buckets (n : nat) (i : Z) (old : list ptr) (capacity : Z)
    (st : gmap loc InternedSliceRefcount * list ptr)
    : outcome (gmap loc InternedSliceRefcount * list ptr) :=
  match n with
  | O => Ok st
  | S n' =>
      s ← deref OutOfBounds (old !! Z.to_nat i);
      st' ← grow_chain (fuel st.1) capacity s st;
      grow_buckets n' (i + 1) old capacity st'
  end.

(** [gpr_zalloc] of an array of [n] null pointers. *)
Definition gpr_zalloc (n : Z) (w : world) : loc * world :=
  let t := fresh (dom (tabs w)) in
  (t, set_tabs (<[t := replicate (Z.to_nat n) None]> (tabs w)) w).

Definition gpr_free_tab (t : loc) (w : world) : outcome world :=
  _ ← deref DanglingDeref (tabs w !! t);
  Ok (set_tabs (delete t (tabs w)) w).

(** [grow_shard(shard)], the shard given by its index in [g_shards]. *)
Definition grow_shard (si : nat) (w : world) : outcome world :=
  shard ← read_shard w si;
  let capacity' := size_t (capacity shard * 2) in
  let '(strtab, w1) := gpr_zalloc capacity' w in
  old ← deref DanglingDeref (tabs w1 !! strs shard);
  new ← deref DanglingDeref (tabs w1 !! strtab);
  '(h', new') ← grow_buckets (Z.to_nat (capacity shard)) 0 old capacity' (heap w1, new);
  let w2 := set_heap h' (set_tabs (<[strtab := new']> (tabs w1)) w1) in
  w3 ← gpr_free_tab (strs shard) w2;
  write_shard si (mkShard strtab (count shard) capacity') w3.

(** ** Creating and matching *)

(** [gpr_malloc] of an entry: an address not in use. *)
Definition gpr_malloc (w : world) : loc := fresh (dom (heap w)).

(** [memcpy(s + 1, buffer, len)]. *)
Definition memcpy (buffer : list byte) (len : Z) : list byte :=
  take (Z.to_nat len) buffer.

Definition InternNewStringLocked (si : nat) (shard_idx : Z) (hash : Z)
    (args : list byte) (w : world) : outcome (loc * world) :=
  let len := Z.of_nat (length args) in
  let buffer := args in
  let s := gpr_malloc w in
  shard ← read_shard w si;
  head ← read_bucket w shard shard_idx;
  let e := mkRefcount len 1 hash head
             (if 0 <? len then memcpy buffer len else []) in
  let w1 := set_heap (<[s := e]> (heap w)) w in
  w2 ← write_slot (SlotBucket (strs shard) shard_idx) (Some s) w1;
  let shard' := mkShard (strs shard) (size_t (count shard + 1)) (capacity shard) in
  w3 ← write_shard si shard' w2;
  if size_t (capacity shard' * 2) <? count shard'
  then w4 ← grow_shard si w3; Ok (s, w4)
  else Ok (s, w3).

(** Modelled from the spec: the operator [InternedSlice(s) == args] is in
    slice_utils.h; the spec says the byte content of the entry is compared
    with the input: equal lengths and [memcmp] over that length. *)
Definition slice_eq (e : InternedSliceRefcount) (args : list byte) : bool :=
  (e_length e =? Z.of_nat (length args)) &&
  bool_decide (take (length args) (e_bytes e) = args).

(** Modelled from the spec: the helper [IncrementIfNonzero(&s->refcnt)] is
    in the atomic utilities; it increments the count unless it is zero and
    says whether it did. *)
Definition IncrementIfNonzero (e : InternedSliceRefcount)
    : bool * InternedSliceRefcount :=
  if e_refcnt e =? 0 then (false, e) else (true, set_refcnt (e_refcnt e + 1) e).

(** The scan of [MatchInternedSliceLocked], from chain node [s]. *)
Fixpoint match_scan (n : nat) (h : gmap loc InternedSliceRefcount) (s : ptr)
    (hash : Z) (args : list byte)
    : outcome (ptr * gmap loc InternedSliceRefcount) :=
  match n with
  | O => Diverge
  | S n' =>
      match s with
      | None => Ok (None, h)
      | Some a =>
          e ← deref DanglingDeref (h !! a);
          if (e_hash e =? hash) && slice_eq e args then
            let '(ok, e') := IncrementIfNonzero e in
            if ok then Ok (Some a, <[a := e']> h)
            else match_scan n' h (bucket_next e) hash args
          else match_scan n' h (bucket_next e) hash args
      end
  end.

Definition MatchInternedSliceLocked (hash : Z) (idx : Z) (args : list byte)
    (w : world) : outcome (ptr * world) :=
  shard ← read_shard w (Z.to_nat (SHARD_IDX hash));
  s ← read_bucket w shard idx;
  '(r, h') ← match_scan (fuel (heap w)) (heap w) s hash args;
  Ok (r, set_heap h' w).

Definition FindOrCreateInternedSlice (hash : Z) (args : list byte) (w : world)
    : outcome (loc * world) :=
  let si := Z.to_nat (SHARD_IDX hash) in
  shard ← read_shard w si;
  let idx := TABLE_IDX hash (capacity shard) in
  '(s, w1) ← MatchInternedSliceLocked hash idx args w;
  match s with
  | None => InternNewStringLocked si idx hash args w1
  | Some a => Ok (a, w1)
  end.

(** ** Seed, initialisation *)

Definition grpc_test_only_set_slice_hash_seed (seed : Z) (w : world) : world :=
  mkWorld (heap w) (tabs w) (g_shards w) (uint32 seed) true (log w).

(** The loop of [grpc_slice_intern_init] over the shards, [n] iterations
    left. *)
Fixpoint init_shards (n : nat) (i : nat) (w : world) : outcome world :=
  match n with
  | O => Ok w
  | S n' =>
      let '(t, w1) := gpr_zalloc INITIAL_SHARD_CAPACITY w in
      w2 ← write_shard i (mkShard t 0 INITIAL_SHARD_CAPACITY) w1;
      init_shards n' (S i) w2
  end.

(** [new slice_shard[SHARD_COUNT]]: the fields are indeterminate until the
    loop assigns them. *)
Definition new_shards : list slice_shard :=
  replicate (Z.to_nat SHARD_COUNT) (mkShard 1%positive 0 0).

(** [grpc_slice_intern_init], with [tv_nsec] the nanoseconds of the clock
    reading [gpr_now(GPR_CLOCK_REALTIME)]. *)
Definition grpc_slice_intern_init (tv_nsec : Z) (w : world) : outcome world :=
  let seed := if g_forced_hash_seed w then g_hash_seed w else uint32 tv_nsec in
  let w1 := mkWorld (heap w) (tabs w) (Some new_shards) seed
                    (g_forced_hash_seed w) (log w) in
  init_shards (Z.to_nat SHARD_COUNT) 0%nat w1.

Section Intern.

(** The hash function and the dump helper are outside this file. *)
Variable gpr_murmur_hash3 : list byte → Z → Z.
Variable grpc_dump_slice : list byte → Z → string.
Variables GPR_DUMP_HEX GPR_DUMP_ASCII : Z.

(** [ManagedMemorySlice(buf, len)], which [grpc_slice_intern] comes to. *)
Definition ManagedMemorySlice (buf : list byte) (w : world)
    : outcome (loc * world) :=
  let hash := uint32 (gpr_murmur_hash3 buf (g_hash_seed w)) in
  FindOrCreateInternedSlice hash buf w.

(** ** Shutdown *)

(** Log one chain of leaked entries. *)
Fixpoint dump_chain (n : nat) (s : ptr) (w : world) : outcome world :=
  match n with
  | O => Diverge
  | S n' =>
      match s with
      | None => Ok w
      | Some a =>
          e ← deref DanglingDeref (heap w !! a);
          let text := grpc_dump_slice (take (Z.to_nat (e_length e)) (e_bytes e))
                        (Z.lor GPR_DUMP_HEX GPR_DUMP_ASCII) in
          dump_chain n' (bucket_next e) (add_log (LogLeaked text) w)
      end
  end.

(** [for (j = 0; j < shard->capacity; j++)], [n] iterations left. *)
Fixpoint dump_buckets (n : nat) (j : Z) (shard : slice_shard) (w : world)
    : outcome world :=
  match n with
  | O => Ok w
  | S n' =>
      s ← read_bucket w shard j;
      w1 ← dump_chain (fuel (heap w)) s w;
      dump_buckets n' (j + 1) shard w1
  end.

(** [for (i = 0; i < SHARD_COUNT; i++)], [n] iterations left;
    [abort_on_leaks] is what [grpc_iomgr_abort_on_leaks()] answers. *)
Fixpoint shutdown_shards (abort_on_leaks : bool) (n : nat) (i : nat) (w : world)
    : outcome world :=
  match n with
  | O => Ok w
  | S n' =>
      shard ← read_shard w i;
      w1 ← (if negb (count shard =? 0) then
              w' ← dump_buckets (Z.to_nat (capacity shard)) 0 shard
                     (add_log (LogWarning (count shard)) w);
              if abort_on_leaks then Abort w' else Ok w'
            else Ok w);
      w2 ← gpr_free_tab (strs shard) w1;
      shutdown_shards abort_on_leaks n' (S i) w2
  end.

Definition grpc_slice_intern_shutdown (abort_on_leaks : bool) (w : world)
    : outcome world :=
  w1 ← shutdown_shards abort_on_leaks (Z.to_nat SHARD_COUNT) 0%nat w;
  Ok (set_shards None w1).

End Intern.

(** * Chains *)

(** [chain h p l]: following [bucket_next] from [p] in [h] visits exactly the
    nodes [l] and then reaches null. *)
Inductive chain (h : gmap loc InternedSliceRefcount) : ptr → list loc → Prop :=
| chain_nil : chain h None []
| chain_cons a e l :
    h !! a = Some e → chain h (bucket_next e) l → chain h (Some a) (a :: l).

#[local] Hint Constructors chain : core.

Lemma chain_inv_cons h a l' :
  chain h (Some a) l' →
  ∃ e l, l' = a :: l ∧ h !! a = Some e ∧ chain h (bucket_next e) l.
Proof. inversion 1; subst; eauto. Qed.

Lemma chain_inv_list h p a l :
  chain h p (a :: l) →
  p = Some a ∧ ∃ e, h !! a = Some e ∧ chain h (bucket_next e) l.
Proof. inversion 1; subst; eauto. Qed.

Lemma chain_functional h p l1 l2 : chain h p l1 → chain h p l2 → l1 = l2.
Proof.
  intros H1; revert l2; induction H1 as [|a e l Ha _ IH]; intros l2 H2.
  - by inversion H2.
  - apply chain_inv_cons in H2 as (e' & l' & -> & Ha' & Hc).
    rewrite Ha in Ha'; injection Ha' as <-. f_equal; auto.
Qed.

Lemma chain_elem_of h p l a : chain h p l → a ∈ l → is_Some (h !! a).
Proof.
  induction 1 as [|b e l Hb _ IH]; intros Hin.
  - by apply elem_of_nil in Hin.
  - apply elem_of_cons in Hin as [->|Hin]; eauto.
Qed.

(** A chain that ends has no repeated node. *)
Lemma chain_length_tail h a l l' :
  chain h (Some a) l → chain h (Some a) l' → length l = length l'.
Proof. intros H1 H2. by rewrite (chain_functional _ _ _ _ H1 H2). Qed.

Lemma chain_suffix h p l a :
  chain h p l → a ∈ l → ∃ l1 l2, l = l1 ++ a :: l2 ∧ chain h (Some a) (a :: l2).
Proof.
  induction 1 as [|b e l Hb Hc IH]; intros Hin.
  - by apply elem_of_nil in Hin.
  - destruct (decide (a = b)) as [->|Hne].
    + exists [], l. split; [done|]. eauto.
    + apply elem_of_cons in Hin as [?|Hin]; [done|].
      destruct (IH Hin) as (l1 & l2 & -> & Hc2).
      exists (b :: l1), l2. split; done.
Qed.

Lemma chain_NoDup h p l : chain h p l → NoDup l.
Proof.
  induction 1 as [|a e l Ha Hc IH]; [constructor|].
  constructor; [|done]. intros Hin.
  destruct (chain_suffix _ _ _ _ Hc Hin) as (l1 & l2 & -> & Hc2).
  assert (Hall : chain h (Some a) (a :: l1 ++ a :: l2)) by eauto.
  pose proof (chain_functional _ _ _ _ Hc2 Hall) as Heq.
  apply (f_equal length) in Heq. simpl in Heq. rewrite length_app in Heq.
  simpl in Heq. lia.
Qed.

Lemma chain_length_le h p l : chain h p l → (length l ≤ size h)%nat.
Proof.
  intros Hc. rewrite <- size_dom, <- (size_list_to_set (C := gset loc) l).
  - apply subseteq_size. intros a Ha. apply elem_of_list_to_set in Ha.
    apply elem_of_dom. eapply chain_elem_of; eauto.
  - eapply chain_NoDup; eauto.
Qed.

Lemma chain_fuel h p l : chain h p l → (length l < fuel h)%nat.
Proof. intros Hc. apply chain_length_le in Hc. unfold fuel. lia. Qed.

(** Frame: a chain only depends on the nodes it visits. *)
Lemma chain_frame h h' p l :
  chain h p l → (∀ a, a ∈ l → h' !! a = h !! a) → chain h' p l.
Proof.
  induction 1 as [|a e l Ha Hc IH]; intros Hag; [constructor|].
  econstructor.
  - rewrite Hag; [done|]. apply elem_of_cons; auto.
  - apply IH. intros b Hb. apply Hag. apply elem_of_cons; auto.
Qed.

(** Relinking a node that the chain does not visit. *)
Lemma chain_insert_notin h p l a e :
  chain h p l → a ∉ l → chain (<[a := e]> h) p l.
Proof.
  intros Hc Hn. eapply chain_frame; [done|].
  intros b Hb. rewrite lookup_insert_ne; [done|]. by intros ->.
Qed.

(** Changing a node without touching its link. *)
Lemma chain_insert_same_next h p l a e e' :
  chain h p l → h !! a = Some e → bucket_next e' = bucket_next e →
  chain (<[a := e']> h) p l.
Proof.
  intros Hc Ha Hn. induction Hc as [|b eb l Hb Hc IH]; [constructor|].
  destruct (decide (a = b)) as [->|Hne].
  - apply chain_cons with e'; [by rewrite lookup_insert_eq|].
    rewrite Hn. rewrite Ha in Hb; by injection Hb as ->.
  - apply chain_cons with eb; [by rewrite lookup_insert_ne|done].
Qed.

(** Unlinking [this], the successor of [c]. *)
Lemma chain_unlink h p l1 c this l2 ec t :
  chain h p (l1 ++ c :: this :: l2) →
  h !! c = Some ec → h !! this = Some t →
  chain (<[c := set_next (bucket_next t) ec]> h) p (l1 ++ c :: l2).
Proof.
  intros Hc Hec Ht.
  pose proof (chain_NoDup _ _ _ Hc) as Hnd.
  revert p Hc Hnd. induction l1 as [|a l1 IH]; intros p Hc Hnd; simpl in *.
  - apply chain_inv_list in Hc as (-> & e & He & Hc).
    rewrite Hec in He; injection He as <-.
    apply chain_inv_list in Hc as (Hp & e & He & Hc).
    rewrite Ht in He; injection He as <-.
    apply chain_cons with (set_next (bucket_next t) ec);
      [by rewrite lookup_insert_eq|]. simpl.
    apply chain_insert_notin; [done|].
    apply NoDup_cons in Hnd as [Hnd _]. rewrite !not_elem_of_cons in Hnd. tauto.
  - apply chain_inv_list in Hc as (-> & e & He & Hc).
    apply NoDup_cons in Hnd as [Hna Hnd].
    apply chain_cons with e.
    + rewrite lookup_insert_ne; [done|]. intros ->. apply Hna.
      apply elem_of_app. right. apply elem_of_cons; auto.
    + by apply IH.
Qed.

(** * The scans over a chain *)

(** An entry that the match scan accepts: equal hash, equal content, and a
    reference count that [IncrementIfNonzero] can raise. *)
Definition entry_matches (hash : Z) (args : list byte)
    (e : InternedSliceRefcount) : bool :=
  (e_hash e =? hash) && slice_eq e args && negb (e_refcnt e =? 0).

Definition live_match (h : gmap loc InternedSliceRefcount) (hash : Z)
    (args : list byte) (a : loc) : bool :=
  match h !! a with Some e => entry_matches hash args e | None => false end.

(** The heap after a successful [IncrementIfNonzero] on [a]. *)
Definition bump (a : loc) (h : gmap loc InternedSliceRefcount)
    : gmap loc InternedSliceRefcount :=
  match h !! a with
  | Some e => <[a := set_refcnt (e_refcnt e + 1) e]> h
  | None => h
  end.

Lemma match_scan_spec h s l hash args n :
  chain h s l → (length l < n)%nat →
  match_scan n h s hash args =
    Ok (match find (live_match h hash args) l with
        | Some a => (Some a, bump a h)
        | None => (None, h)
        end).
Proof.
  intros Hc; revert n. induction Hc as [|a e l Ha Hc IH]; intros n Hn.
  - destruct n; [simpl in Hn; lia|done].
  - destruct n as [|n]; [simpl in Hn; lia|]. simpl in Hn.
    cbn [match_scan find]. rewrite Ha. cbn.
    unfold live_match at 1, entry_matches, IncrementIfNonzero, bump.
    rewrite Ha.
    destruct ((e_hash e =? hash) && slice_eq e args); cbn.
    + destruct (e_refcnt e =? 0); cbn; [apply IH; lia|]. by rewrite Ha.
    + apply IH; lia.
Qed.

Lemma unlink_scan_found h p0 cur l1 this l2 n :
  chain h cur (l1 ++ this :: l2) → this ∉ l1 → (length l1 < n)%nat →
  unlink_scan n h p0 cur this =
    Ok (match last l1 with Some c => SlotNext c | None => p0 end).
Proof.
  revert p0 cur n. induction l1 as [|a l1 IH]; intros p0 cur n Hc Hni Hn.
  - destruct n; [simpl in Hn; lia|]. simpl in *.
    apply chain_inv_list in Hc as (-> & _). by rewrite bool_decide_eq_true_2.
  - destruct n as [|n]; [simpl in Hn; lia|]. simpl in Hn, Hc.
    apply chain_inv_list in Hc as (-> & e & He & Hc).
    apply not_elem_of_cons in Hni as [Hne Hni].
    cbn [unlink_scan]. rewrite bool_decide_eq_false_2 by congruence.
    cbn. rewrite He. cbn. rewrite (IH (SlotNext a)) by (done || lia).
    rewrite last_cons. by destruct (last l1).
Qed.

(** The scan for an entry that is not in the chain reads through null. *)
Lemma unlink_scan_missing h p0 cur l this n :
  chain h cur l → this ∉ l → (length l < n)%nat →
  unlink_scan n h p0 cur this = Fault NullDeref.
Proof.
  intros Hc; revert p0 n. induction Hc as [|a e l Ha Hc IH]; intros p0 n Hni Hn.
  - destruct n; [simpl in Hn; lia|done].
  - destruct n as [|n]; [simpl in Hn; lia|]. simpl in Hn.
    apply not_elem_of_cons in Hni as [Hne Hni].
    cbn [unlink_scan]. rewrite bool_decide_eq_false_2 by congruence.
    cbn. rewrite Ha. cbn. apply IH; [done|lia].
Qed.

(** * The representation invariant *)

(** An entry without its link: what relinking must not change. *)
Definition erase (e : InternedSliceRefcount) : InternedSliceRefcount :=
  set_next None e.

(** [relinked h h']: the same entries at the same addresses, with the same
    length, reference count, hash and bytes; only links may differ. *)
Definition relinked (h h' : gmap loc InternedSliceRefcount) : Prop :=
  erase <$> h = erase <$> h'.

(** What holds of every entry of shard [si]. *)
Definition entry_ok (si : nat) (e : InternedSliceRefcount) : Prop :=
  Z.to_nat (SHARD_IDX (e_hash e)) = si ∧
  e_length e = Z.of_nat (length (e_bytes e)) ∧
  0 ≤ e_refcnt e.

(** Every node of bucket [i] hashes to shard [si] and bucket [i]. *)
Definition placed (h : gmap loc InternedSliceRefcount) (si : nat) (cap : Z)
    (bs : list (list loc)) : Prop :=
  ∀ (i : nat) b a, bs !! i = Some b → a ∈ b →
    ∃ e, h !! a = Some e ∧ entry_ok si e ∧
         TABLE_IDX (e_hash e) cap = Z.of_nat i.

(** Shard [sh], the [si]-th, holds the buckets [bs]: its array has
    [capacity] heads, each the start of a chain, and [count] is the number
    of nodes on the chains. *)
Record shard_rep (h : gmap loc InternedSliceRefcount)
    (t : gmap loc (list ptr)) (si : nat) (sh : slice_shard)
    (bs : list (list loc)) : Prop := {
  rep_cap : 0 < capacity sh < 2 ^ 64;
  rep_arr : ∃ arr, t !! strs sh = Some arr ∧
                   length arr = Z.to_nat (capacity sh) ∧
                   Forall2 (chain h) arr bs;
  rep_count : count sh = Z.of_nat (length (concat bs));
  rep_placed : placed h si (capacity sh) bs;
  rep_count_max : count sh < 2 ^ 64
}.

(** The table holds the buckets [bss], one list of buckets per shard.  This
    is what [grpc_slice_intern_init] sets up and what interning and
    destruction keep. *)
Definition table_rep (w : world) (bss : list (list (list loc))) : Prop :=
  ∃ shards,
    g_shards w = Some shards ∧
    length shards = Z.to_nat SHARD_COUNT ∧
    (∀ (i j : nat) shi shj, shards !! i = Some shi → shards !! j = Some shj →
       strs shi = strs shj → i = j) ∧
    length bss = length shards ∧
    ∀ (si : nat) sh bs, shards !! si = Some sh → bss !! si = Some bs →
      shard_rep (heap w) (tabs w) si sh bs.

Definition table_ok (w : world) : Prop := ∃ bss, table_rep w bss.

(** Room for [k] more creations before a [size_t] could wrap. *)
Definition headroom (k : nat) (w : world) : Prop :=
  ∀ shards sh, g_shards w = Some shards → sh ∈ shards →
    capacity sh * 2 ^ Z.of_nat k < 2 ^ 64 ∧ count sh + Z.of_nat k < 2 ^ 64.

Lemma relinked_refl h : relinked h h.
Proof. done. Qed.

Lemma relinked_trans h1 h2 h3 : relinked h1 h2 → relinked h2 h3 → relinked h1 h3.
Proof. unfold relinked. congruence. Qed.

Lemma relinked_lookup h h' a e :
  relinked h h' → h !! a = Some e →
  ∃ e', h' !! a = Some e' ∧ erase e' = erase e.
Proof.
  intros Hr Ha. apply (f_equal (λ m, m !! a)) in Hr.
  rewrite !lookup_fmap, Ha in Hr. simpl in Hr.
  destruct (h' !! a) as [e'|]; [|done]. exists e'. split; [done|].
  simpl in Hr. congruence.
Qed.

Lemma relinked_sym h h' : relinked h h' → relinked h' h.
Proof. unfold relinked. congruence. Qed.

Lemma relinked_insert h a e e' :
  h !! a = Some e → erase e' = erase e → relinked h (<[a := e']> h).
Proof.
  intros Ha He. unfold relinked. rewrite fmap_insert, He.
  symmetry. apply insert_id. by rewrite lookup_fmap, Ha.
Qed.

Lemma relinked_size h h' : relinked h h' → size h = size h'.
Proof.
  intros Hr. rewrite <- (map_size_fmap erase h), <- (map_size_fmap erase h').
  by rewrite Hr.
Qed.

Lemma erase_set_next n e : erase (set_next n e) = erase e.
Proof. done. Qed.

Lemma erase_fields e e' :
  erase e' = erase e →
  e_length e' = e_length e ∧ e_refcnt e' = e_refcnt e ∧
  e_hash e' = e_hash e ∧ e_bytes e' = e_bytes e.
Proof. destruct e, e'; unfold erase, set_next; simpl. intros [= -> -> -> ->]. done. Qed.

Lemma entry_ok_erase si e e' : erase e' = erase e → entry_ok si e → entry_ok si e'.
Proof.
  unfold entry_ok. intros He.
  apply erase_fields in He as (Hl & Hr & Hh & Hb). by rewrite Hl, Hr, Hh, Hb.
Qed.

Lemma placed_relinked h h' si cap bs :
  relinked h h' → placed h si cap bs → placed h' si cap bs.
Proof.
  intros Hr Hp i b a Hb Ha. destruct (Hp i b a Hb Ha) as (e & He & Hok & Hidx).
  destruct (relinked_lookup _ _ _ _ Hr He) as (e' & He' & Her).
  exists e'. split; [done|]. split; [by eapply entry_ok_erase|].
  apply erase_fields in Her as (_ & _ & Hh & _). by rewrite Hh.
Qed.

(** ** Index arithmetic *)

Lemma TABLE_IDX_range hash cap : 0 < cap → 0 ≤ TABLE_IDX hash cap < cap.
Proof. intros. unfold TABLE_IDX. by apply Z.mod_pos_bound. Qed.

Lemma SHARD_IDX_range hash : 0 ≤ SHARD_IDX hash < SHARD_COUNT.
Proof.
  unfold SHARD_IDX, SHARD_COUNT, LOG2_SHARD_COUNT.
  change (Z.shiftl 1 5 - 1) with (Z.ones 5). rewrite Z.land_ones by lia.
  change (Z.shiftl 1 5) with (2 ^ 5). apply Z.mod_pos_bound. lia.
Qed.

Lemma size_t_small z : 0 ≤ z < 2 ^ 64 → size_t z = z.
Proof. intros. unfold size_t. by apply Z.mod_small. Qed.
(** * Buckets as lists *)

Lemma elem_of_concat {A} (x : A) (ls : list (list A)) :
  x ∈ concat ls ↔ ∃ (i : nat) l, ls !! i = Some l ∧ x ∈ l.
Proof.
  induction ls as [|l ls IH]; simpl.
  - split; [by intros ?%elem_of_nil|]. by intros (i & l & ? & _).
  - rewrite elem_of_app, IH. split.
    + intros [Hx|(i & l' & Hl & Hx)]; [by exists 0%nat, l|by exists (S i), l'].
    + intros ([|i] & l' & Hl & Hx); simpl in Hl.
      * left. congruence.
      * right. eauto.
Qed.

Lemma concat_split {A} (ls : list (list A)) (i : nat) l :
  ls !! i = Some l →
  concat ls = concat (take i ls) ++ l ++ concat (drop (S i) ls).
Proof.
  intros Hl. rewrite <- (take_drop_middle _ _ _ Hl) at 1.
  by rewrite concat_app.
Qed.

Lemma concat_insert {A} (ls : list (list A)) (i : nat) l l' :
  ls !! i = Some l →
  concat (<[i := l']> ls) = concat (take i ls) ++ l' ++ concat (drop (S i) ls).
Proof.
  intros Hl. rewrite insert_take_drop by (by eapply lookup_lt_Some).
  by rewrite concat_app.
Qed.

Lemma concat_insert_cons {A} (ls : list (list A)) (i : nat) l (x : A) :
  ls !! i = Some l → concat (<[i := x :: l]> ls) ≡ₚ x :: concat ls.
Proof.
  intros Hl. rewrite (concat_insert _ _ _ _ Hl), (concat_split _ _ _ Hl).
  simpl. symmetry. apply Permutation_middle.
Qed.

(** * Growth relinks every node *)

Lemma grow_chain_spec si cap' l :
  0 < cap' →
  ∀ h nt nbs s n,
    chain h s l → (length l < n)%nat →
    length nt = Z.to_nat cap' →
    Forall2 (chain h) nt nbs →
    placed h si cap' nbs →
    (∀ a, a ∈ l → a ∉ concat nbs) →
    (∀ a, a ∈ l → ∃ e, h !! a = Some e ∧ entry_ok si e) →
    ∃ h' nt' nbs',
      grow_chain n cap' s (h, nt) = Ok (h', nt') ∧
      length nt' = Z.to_nat cap' ∧
      Forall2 (chain h') nt' nbs' ∧
      placed h' si cap' nbs' ∧
      concat nbs' ≡ₚ l ++ concat nbs ∧
      relinked h h' ∧
      (∀ a, a ∉ l → h' !! a = h !! a).
Proof.
  intros Hcap. induction l as [|a l IH]; intros h nt nbs s n Hc Hn Hlen HF Hpl Hdis Hok.
  - inversion Hc; subst. destruct n; [simpl in Hn; lia|].
    exists h, nt, nbs. by repeat split.
  - apply chain_inv_list in Hc as (-> & e & He & Hc).
    destruct n as [|n]; [simpl in Hn; lia|]. simpl in Hn.
    pose proof (TABLE_IDX_range (e_hash e) cap' Hcap) as Hidx.
    set (idx := Z.to_nat (TABLE_IDX (e_hash e) cap')).
    assert (Hlt : (idx < length nt)%nat) by (unfold idx; lia).
    destruct (lookup_lt_is_Some_2 nt idx Hlt) as [head Hhead].
    destruct (Forall2_lookup_l _ _ _ _ _ HF Hhead) as (b & Hb & Hcb).
    assert (Hnd : NoDup (a :: l)) by (eapply chain_NoDup; eauto).
    apply NoDup_cons in Hnd as [Hal Hnd].
    assert (Hab : a ∉ concat nbs) by (apply Hdis; left).
    set (h1 := <[a := set_next head e]> h).
    assert (Hr1 : relinked h h1) by (by eapply relinked_insert).
    destruct (IH h1 (<[idx := Some a]> nt) (<[idx := a :: b]> nbs)
                (bucket_next e) n) as (h' & nt' & nbs' & Hrun & Hlen' & HF' & Hpl' & Hperm & Hr & Hfr).
    + by apply chain_insert_notin.
    + lia.
    + by rewrite length_insert.
    + apply Forall2_insert.
      * apply Forall2_same_length_lookup_2; [by eapply Forall2_length|].
        intros i x y Hx Hy. apply chain_insert_notin.
        -- eapply Forall2_lookup_lr; eauto.
        -- intros Hin. apply Hab. apply elem_of_concat. eauto.
      * apply chain_cons with (set_next head e); [by apply lookup_insert_eq|].
        simpl. apply chain_insert_notin; [done|].
        intros Hin. apply Hab. apply elem_of_concat. eauto.
    + intros i b' x Hb' Hx.
      destruct (decide (i = idx)) as [->|Hne].
      * rewrite list_lookup_insert_eq in Hb' by (by eapply lookup_lt_Some).
        injection Hb' as <-. apply elem_of_cons in Hx as [->|Hx].
        -- exists (set_next head e). split; [by apply lookup_insert_eq|].
           destruct (Hok a) as (e0 & He0 & Hok0); [left|].
           rewrite He in He0; injection He0 as <-.
           split; [by eapply entry_ok_erase|]. simpl. unfold idx. lia.
        -- eapply placed_relinked; eauto.
      * rewrite list_lookup_insert_ne in Hb' by done.
        eapply placed_relinked; eauto.
    + intros x Hx Hin. rewrite (concat_insert_cons _ _ _ _ Hb) in Hin.
      apply elem_of_cons in Hin as [->|Hin]; [done|].
      eapply Hdis; [right|]; eauto.
    + intros x Hx. destruct (Hok x) as (e0 & He0 & Hok0); [by right|].
      exists e0. split; [|done]. unfold h1. rewrite lookup_insert_ne; [done|].
      by intros ->.
    + exists h', nt', nbs'. cbn [grow_chain]. cbn. rewrite He. cbn.
      fold idx. rewrite Hhead. cbn. split; [exact Hrun|].
      split; [done|]. split; [done|]. split; [done|]. split.
      * rewrite Hperm, (concat_insert_cons _ _ _ _ Hb). simpl.
        by rewrite Permutation_middle.
      * split; [by eapply relinked_trans|].
        intros x Hx. apply not_elem_of_cons in Hx as [Hxa Hxl].
        rewrite Hfr by done. unfold h1. by rewrite lookup_insert_ne.
Qed.

Lemma NoDup_concat {A} (ls : list (list A)) :
  (∀ (i : nat) l, ls !! i = Some l → NoDup l) →
  (∀ (i j : nat) l l' x, ls !! i = Some l → ls !! j = Some l' →
     x ∈ l → x ∈ l' → i = j) →
  NoDup (concat ls).
Proof.
  induction ls as [|l ls IH]; intros Hnd Hdis; simpl; [constructor|].
  apply NoDup_app. split; [by apply (Hnd 0%nat)|]. split.
  - intros x Hx Hin. apply elem_of_concat in Hin as (j & l' & Hl' & Hx').
    by specialize (Hdis 0%nat (S j) l l' x eq_refl Hl' Hx Hx').
  - apply IH.
    + intros i l' Hl'. by apply (Hnd (S i)).
    + intros i j l1 l2 x H1 H2 Hx1 Hx2.
      by specialize (Hdis (S i) (S j) l1 l2 x H1 H2 Hx1 Hx2) as [= ->].
Qed.

Lemma grow_buckets_spec si cap' rest :
  0 < cap' →
  ∀ (k : nat) old h nt nbs,
    Forall2 (chain h) (drop k old) rest →
    length nt = Z.to_nat cap' →
    Forall2 (chain h) nt nbs →
    placed h si cap' nbs →
    NoDup (concat rest ++ concat nbs) →
    (∀ a, a ∈ concat rest → ∃ e, h !! a = Some e ∧ entry_ok si e) →
    ∃ h' nt' nbs',
      grow_buckets (length rest) (Z.of_nat k) old cap' (h, nt) = Ok (h', nt') ∧
      length nt' = Z.to_nat cap' ∧
      Forall2 (chain h') nt' nbs' ∧
      placed h' si cap' nbs' ∧
      concat nbs' ≡ₚ concat rest ++ concat nbs ∧
      relinked h h' ∧
      (∀ a, a ∉ concat rest → h' !! a = h !! a).
Proof.
  intros Hcap. induction rest as [|b rest IH]; intros k old h nt nbs HFo Hlen HF Hpl Hnd Hok.
  - exists h, nt, nbs. by repeat split.
  - simpl in Hnd, Hok.
    destruct (drop k old) as [|p tl] eqn:Hdrop; [by inversion HFo|].
    apply Forall2_cons in HFo as [Hcb HFo].
    assert (Hp : old !! k = Some p).
    { rewrite <- (Nat.add_0_r k), <- lookup_drop, Hdrop. done. }
    assert (Htl : drop (S k) old = tl).
    { replace (S k) with (k + 1)%nat by lia. by rewrite <- drop_drop, Hdrop. }
    apply NoDup_app in Hnd as (Hndl & Hdis1 & Hndn).
    apply NoDup_app in Hndl as (Hndb & Hdisb & Hndr).
    destruct (grow_chain_spec si cap' b Hcap h nt nbs p (fuel h))
      as (h1 & nt1 & nbs1 & Hrun1 & Hlen1 & HF1 & Hpl1 & Hperm1 & Hr1 & Hfr1);
      try done.
    { by eapply chain_fuel. }
    { intros a Ha. apply Hdis1. apply elem_of_app. by left. }
    { intros a Ha. apply Hok. apply elem_of_app. by left. }
    destruct (IH (S k) old h1 nt1 nbs1)
      as (h' & nt' & nbs' & Hrun & Hlen' & HF' & Hpl' & Hperm & Hr & Hfr);
      try done.
    { rewrite Htl. apply Forall2_same_length_lookup_2; [exact (Forall2_length _ _ _ HFo)|].
      intros i x y Hx Hy. eapply chain_frame; [exact (Forall2_lookup_lr _ _ _ _ _ _ HFo Hx Hy)|].
      intros a Ha. apply Hfr1. intros Hab. apply (Hdisb a Hab).
      apply elem_of_concat. eauto. }
    { rewrite Hperm1. apply NoDup_app. split; [done|]. split.
      - intros a Ha Hin. apply elem_of_app in Hin as [Hin|Hin].
        + by apply (Hdisb a Hin).
        + apply (Hdis1 a); [|done]. apply elem_of_app. by right.
      - apply NoDup_app. split; [done|]. split; [|done].
        intros a Ha. apply Hdis1. apply elem_of_app. by left. }
    { intros a Ha. destruct (Hok a) as (e & He & Hoke); [apply elem_of_app; by right|].
      exists e. split; [|done]. rewrite Hfr1; [done|].
      intros Hab. by apply (Hdisb a Hab). }
    exists h', nt', nbs'. cbn [length grow_buckets]. rewrite Nat2Z.id, Hp.
    cbn [deref mbind outcome_bind fst snd]. rewrite Hrun1. cbn [deref mbind outcome_bind fst snd].
    replace (Z.of_nat k + 1) with (Z.of_nat (S k)) by lia.
    split; [exact Hrun|]. split; [done|]. split; [done|]. split; [done|].
    split.
    { rewrite Hperm, Hperm1. simpl. rewrite !app_assoc.
      apply Permutation_app_tail. apply Permutation_app_comm. }
    split; [by eapply relinked_trans|].
    intros a Ha. apply not_elem_of_app in Ha as [Hab Har].
    rewrite Hfr by done. by apply Hfr1.
Qed.

(** * Shards *)

Ltac run_step := cbn [deref mbind outcome_bind mret outcome_ret fst snd].

Lemma placed_elem h si cap bs a :
  placed h si cap bs → a ∈ concat bs →
  ∃ e, h !! a = Some e ∧ entry_ok si e.
Proof.
  intros Hp (i & b & Hb & Ha)%elem_of_concat.
  destruct (Hp i b a Hb Ha) as (e & He & Hok & _). eauto.
Qed.

Lemma placed_bucket h si cap bs (i : nat) b a e :
  placed h si cap bs → bs !! i = Some b → a ∈ b → h !! a = Some e →
  TABLE_IDX (e_hash e) cap = Z.of_nat i.
Proof.
  intros Hp Hb Ha He. destruct (Hp i b a Hb Ha) as (e' & He' & _ & Hidx).
  congruence.
Qed.

(** Entries of different shards are different. *)
Lemma placed_disjoint h si sj cap cap' bs bs' a :
  placed h si cap bs → placed h sj cap' bs' → si ≠ sj →
  a ∈ concat bs → a ∉ concat bs'.
Proof.
  intros Hp Hp' Hne Ha Ha'.
  destruct (placed_elem _ _ _ _ _ Hp Ha) as (e & He & Hs & _).
  destruct (placed_elem _ _ _ _ _ Hp' Ha') as (e' & He' & Hs' & _).
  congruence.
Qed.

Lemma shard_rep_buckets h t si sh bs :
  shard_rep h t si sh bs → length bs = Z.to_nat (capacity sh).
Proof.
  intros [_ (arr & _ & Hlen & HF) _ _ _]. by rewrite <- (Forall2_length _ _ _ HF).
Qed.

Lemma shard_rep_NoDup h t si sh bs : shard_rep h t si sh bs → NoDup (concat bs).
Proof.
  intros [_ (arr & _ & _ & HF) _ Hp _]. apply NoDup_concat.
  - intros i l Hl. destruct (Forall2_lookup_r _ _ _ _ _ HF Hl) as (p & _ & Hc).
    by eapply chain_NoDup.
  - intros i j l l' x Hl Hl' Hx Hx'.
    destruct (Hp i l x Hl Hx) as (e & He & _ & Hi).
    pose proof (placed_bucket _ _ _ _ _ _ _ _ Hp Hl' Hx' He). lia.
Qed.

Lemma placed_frame h h' si cap bs :
  placed h si cap bs → (∀ a, a ∈ concat bs → h' !! a = h !! a) →
  placed h' si cap bs.
Proof.
  intros Hp Hfr i b a Hb Ha. rewrite Hfr; [by eapply Hp|].
  apply elem_of_concat. eauto.
Qed.

Lemma chains_frame h h' (arr : list ptr) (bs : list (list loc)) :
  Forall2 (chain h) arr bs → (∀ a, a ∈ concat bs → h' !! a = h !! a) →
  Forall2 (chain h') arr bs.
Proof.
  intros HF Hfr.
  apply Forall2_same_length_lookup_2; [by eapply Forall2_length|].
  intros i x y Hx Hy.
  eapply chain_frame; [exact (Forall2_lookup_lr _ _ _ _ _ _ HF Hx Hy)|].
  intros a Ha. apply Hfr. apply elem_of_concat. eauto.
Qed.

(** Frame: a shard only depends on its own array and its own nodes. *)
Lemma shard_rep_frame h t h' t' si sh bs :
  shard_rep h t si sh bs →
  (∀ a, a ∈ concat bs → h' !! a = h !! a) →
  t' !! strs sh = t !! strs sh →
  shard_rep h' t' si sh bs.
Proof.
  intros [Hcap (arr & Harr & Hlen & HF) Hcnt Hp Hmax] Hfr Ht.
  split; [done| |done|by eapply placed_frame|done].
  exists arr. split; [congruence|]. split; [done|]. by eapply chains_frame.
Qed.

Lemma table_rep_lookup w bss shards (si : nat) :
  table_rep w bss → g_shards w = Some shards → (si < Z.to_nat SHARD_COUNT)%nat →
  ∃ sh bs, shards !! si = Some sh ∧ bss !! si = Some bs ∧
           shard_rep (heap w) (tabs w) si sh bs.
Proof.
  intros (shards' & Hs & Hlen & _ & Hlb & Hrep) Hs' Hsi.
  rewrite Hs in Hs'; injection Hs' as ->.
  destruct (lookup_lt_is_Some_2 shards si) as [sh Hsh]; [lia|].
  destruct (lookup_lt_is_Some_2 bss si) as [bs Hbs]; [lia|].
  exists sh, bs. eauto.
Qed.

Lemma table_rep_strs w bss shards (si : nat) sh :
  table_rep w bss → g_shards w = Some shards → shards !! si = Some sh →
  is_Some (tabs w !! strs sh).
Proof.
  intros (shards' & Hs & Hlen & _ & Hlb & Hrep) Hs' Hsh.
  rewrite Hs in Hs'; injection Hs' as ->.
  destruct (lookup_lt_is_Some_2 bss si) as [bs Hbs].
  { rewrite Hlb. by eapply lookup_lt_Some. }
  destruct (Hrep si sh bs Hsh Hbs) as [_ (arr & Harr & _) _ _ _]. eauto.
Qed.

Lemma concat_replicate_nil {A} (n : nat) : concat (replicate n ([] : list A)) = [].
Proof. induction n; simpl; auto. Qed.

Lemma read_shard_eq w shards (si : nat) sh :
  g_shards w = Some shards → shards !! si = Some sh → read_shard w si = Ok sh.
Proof. intros Hs Hsh. unfold read_shard. rewrite Hs. run_step. by rewrite Hsh. Qed.

Lemma write_shard_eq w shards (si : nat) sh sh' :
  g_shards w = Some shards → shards !! si = Some sh →
  write_shard si sh' w = Ok (set_shards (Some (<[si := sh']> shards)) w).
Proof. intros Hs Hsh. unfold write_shard. rewrite Hs. run_step. by rewrite Hsh. Qed.

(** [grow_shard] on a shard that holds the buckets [bs]: the new array has
    twice the heads, holds the same nodes, each in the bucket of its hash,
    and nothing but links has changed in the heap. *)
Lemma grow_shard_spec w bss shards (si : nat) sh bs :
  table_rep w bss → g_shards w = Some shards →
  shards !! si = Some sh → bss !! si = Some bs →
  capacity sh * 2 < 2 ^ 64 →
  ∃ h' nt' bs',
    let strtab := fresh (dom (tabs w)) in
    let sh' := mkShard strtab (count sh) (capacity sh * 2) in
    grow_shard si w =
      Ok (mkWorld h' (delete (strs sh) (<[strtab := nt']> (tabs w)))
            (Some (<[si := sh']> shards)) (g_hash_seed w)
            (g_forced_hash_seed w) (log w)) ∧
    table_rep
      (mkWorld h' (delete (strs sh) (<[strtab := nt']> (tabs w)))
         (Some (<[si := sh']> shards)) (g_hash_seed w)
         (g_forced_hash_seed w) (log w))
      (<[si := bs']> bss) ∧
    concat bs' ≡ₚ concat bs ∧
    relinked (heap w) h' ∧
    (∀ a, a ∉ concat bs → h' !! a = heap w !! a).
Proof.
  intros Hrep Hs Hsh Hbs Hcap2.
  pose proof Hrep as (shards' & Hs' & Hlen & Hdist & Hlb & Hall).
  rewrite Hs in Hs'; injection Hs' as <-.
  pose proof (Hall si sh bs Hsh Hbs) as Hsr.
  pose proof Hsr as [Hcap (arr & Harr & Hla & HF) Hcnt Hpl Hmax].
  set (strtab := fresh (dom (tabs w))).
  assert (Hfresh : tabs w !! strtab = None).
  { apply not_elem_of_dom. apply is_fresh. }
  assert (Hne : strs sh ≠ strtab) by congruence.
  assert (Hne' : strtab ≠ strs sh) by congruence.
  set (cap' := capacity sh * 2).
  assert (Hcap' : 0 < cap') by (unfold cap'; lia).
  destruct (grow_buckets_spec si cap' bs Hcap' 0%nat arr (heap w)
              (replicate (Z.to_nat cap') None) (replicate (Z.to_nat cap') []))
    as (h' & nt' & bs' & Hrun & Hlen' & HF' & Hpl' & Hperm & Hr & Hfr).
  { done. }
  { by rewrite length_replicate. }
  { apply Forall2_replicate. constructor. }
  { intros i b a Hb Ha. apply lookup_replicate_1 in Hb as [-> _].
    by apply elem_of_nil in Ha. }
  { rewrite concat_replicate_nil, app_nil_r. by eapply shard_rep_NoDup. }
  { intros a Ha. by eapply placed_elem. }
  rewrite concat_replicate_nil, app_nil_r in Hperm.
  exists h', nt', bs'. cbn zeta. split; [|split; [|done]].
  - unfold grow_shard. rewrite (read_shard_eq _ _ _ _ Hs Hsh). run_step.
    rewrite size_t_small by lia. unfold gpr_zalloc. fold strtab. fold cap'.
    cbn [tabs set_tabs heap].
    rewrite (lookup_insert_ne _ strtab (strs sh)) by done. rewrite Harr. run_step.
    rewrite lookup_insert_eq. run_step.
    rewrite <- (Forall2_length _ _ _ HF) in Hrun. rewrite Hla in Hrun.
    change 0 with (Z.of_nat 0). rewrite Hrun. run_step.
    unfold gpr_free_tab. cbn [tabs set_tabs set_heap heap].
    rewrite insert_insert_eq. rewrite (lookup_insert_ne _ strtab (strs sh)) by done.
    rewrite Harr. run_step. unfold write_shard.
    cbn [g_shards set_tabs set_heap]. rewrite Hs. run_step. rewrite Hsh. run_step.
    unfold set_shards. cbn. done.
  - exists (<[si := mkShard strtab (count sh) cap']> shards).
    split; [done|]. split; [by rewrite length_insert|]. split; [|split].
    + intros i j shi shj Hi Hj Heq.
      destruct (decide (i = si)) as [->|Hisi], (decide (j = si)) as [->|Hjsi];
        try done.
      * rewrite list_lookup_insert_eq in Hi by (by eapply lookup_lt_Some).
        rewrite list_lookup_insert_ne in Hj by done.
        injection Hi as <-. simpl in Heq.
        destruct (table_rep_strs _ _ _ _ _ Hrep Hs Hj) as [? Hx]. congruence.
      * rewrite list_lookup_insert_eq in Hj by (by eapply lookup_lt_Some).
        rewrite list_lookup_insert_ne in Hi by done.
        injection Hj as <-. simpl in Heq.
        destruct (table_rep_strs _ _ _ _ _ Hrep Hs Hi) as [? Hx]. congruence.
      * rewrite list_lookup_insert_ne in Hi by done.
        rewrite list_lookup_insert_ne in Hj by done. eauto.
    + by rewrite !length_insert.
    + intros sj shj bsj Hj Hbj. cbn [heap tabs].
      destruct (decide (sj = si)) as [->|Hjsi].
      * rewrite list_lookup_insert_eq in Hj by (by eapply lookup_lt_Some).
        rewrite list_lookup_insert_eq in Hbj by (by eapply lookup_lt_Some).
        injection Hj as <-. injection Hbj as <-.
        split; cbn [capacity count strs].
        -- unfold cap'. lia.
        -- exists nt'. rewrite lookup_delete_ne by done.
           by rewrite lookup_insert_eq.
        -- by rewrite (Permutation_length Hperm).
        -- done.
        -- done.
      * rewrite list_lookup_insert_ne in Hj by done.
        rewrite list_lookup_insert_ne in Hbj by done.
        pose proof (Hall sj shj bsj Hj Hbj) as Hsrj.
        eapply shard_rep_frame; [exact Hsrj| |].
        -- intros a Ha. apply Hfr. intros Ha'.
           eapply (placed_disjoint (heap w) sj si); [apply Hsrj|apply Hsr|done..].
        -- destruct (table_rep_strs _ _ _ _ _ Hrep Hs Hj) as [? Hx].
           rewrite lookup_delete_ne by (intros Heq; by specialize (Hdist _ _ _ _ Hsh Hj Heq) as ->).
           rewrite lookup_insert_ne by congruence. done.
Qed.

(** * Linking a new entry *)

Lemma memcpy_all (args : list byte) :
  (if 0 <? Z.of_nat (length args) then memcpy args (Z.of_nat (length args)) else [])
  = args.
Proof.
  unfold memcpy. rewrite Nat2Z.id, firstn_all.
  destruct args; done.
Qed.

Lemma elem_of_concat_concat {A} (x : A) (lss : list (list (list A))) :
  x ∈ concat (concat lss) ↔ ∃ (i : nat) ls, lss !! i = Some ls ∧ x ∈ concat ls.
Proof.
  induction lss as [|ls lss IH]; simpl.
  - split; [by intros ?%elem_of_nil|]. by intros (i & l & ? & _).
  - rewrite concat_app, elem_of_app, IH. split.
    + intros [Hx|(i & l' & Hl & Hx)]; [by exists 0%nat, ls|by exists (S i), l'].
    + intros ([|i] & l' & Hl & Hx); simpl in Hl.
      * left. congruence.
      * right. eauto.
Qed.

Lemma table_rep_not_fresh w bss a :
  table_rep w bss → a ∈ concat (concat bss) → is_Some (heap w !! a).
Proof.
  intros (shards & Hs & Hlen & _ & Hlb & Hall) (si & bs & Hbs & Ha)%elem_of_concat_concat.
  destruct (lookup_lt_is_Some_2 shards si) as [sh Hsh].
  { rewrite <- Hlb. by eapply lookup_lt_Some. }
  destruct (Hall si sh bs Hsh Hbs) as [_ _ _ Hp _].
  destruct (placed_elem _ _ _ _ _ Hp Ha) as (e & He & _). eauto.
Qed.

(** The world right after the new entry is put at the head of its bucket and
    counted, before any growth. *)
Lemma link_rep w bss shards (si : nat) sh bs idx b arr head hash args :
  table_rep w bss → g_shards w = Some shards →
  shards !! si = Some sh → bss !! si = Some bs →
  Z.to_nat (SHARD_IDX hash) = si → idx = TABLE_IDX hash (capacity sh) →
  bs !! Z.to_nat idx = Some b →
  tabs w !! strs sh = Some arr → arr !! Z.to_nat idx = Some head →
  count sh + 1 < 2 ^ 64 →
  let s := fresh (dom (heap w)) in
  let e := mkRefcount (Z.of_nat (length args)) 1 hash head args in
  table_rep
    (mkWorld (<[s := e]> (heap w))
       (<[strs sh := <[Z.to_nat idx := Some s]> arr]> (tabs w))
       (Some (<[si := mkShard (strs sh) (count sh + 1) (capacity sh)]> shards))
       (g_hash_seed w) (g_forced_hash_seed w) (log w))
    (<[si := <[Z.to_nat idx := s :: b]> bs]> bss).
Proof.
  intros Hrep Hs Hsh Hbs Hsi Hidx Hb Harr Hhead Hcnt1 s e.
  pose proof Hrep as (shards' & Hs' & Hlen & Hdist & Hlb & Hall).
  rewrite Hs in Hs'; injection Hs' as <-.
  pose proof (Hall si sh bs Hsh Hbs) as Hsr.
  pose proof Hsr as [Hcap (arr' & Harr' & Hla & HF) Hcnt Hpl Hmax].
  rewrite Harr in Harr'; injection Harr' as <-.
  assert (Hfresh : heap w !! s = None).
  { apply not_elem_of_dom. apply is_fresh. }
  assert (Hfr : ∀ sj bsj a, bss !! sj = Some bsj → a ∈ concat bsj →
                  <[s := e]> (heap w) !! a = heap w !! a).
  { intros sj bsj a Hj Ha. rewrite lookup_insert_ne; [done|]. intros <-.
    destruct (table_rep_not_fresh w bss s Hrep) as [? Hx]; [|congruence].
    apply elem_of_concat_concat. eauto. }
  pose proof (TABLE_IDX_range hash (capacity sh) (proj1 Hcap)) as Hir.
  exists (<[si := mkShard (strs sh) (count sh + 1) (capacity sh)]> shards).
  split; [done|]. split; [by rewrite length_insert|]. split; [|split].
  - intros i j shi shj Hi Hj Heq. apply (Hdist i j
      (if decide (i = si) then sh else shi) (if decide (j = si) then sh else shj)).
    + destruct (decide (i = si)) as [->|?]; [done|].
      by rewrite list_lookup_insert_ne in Hi.
    + destruct (decide (j = si)) as [->|?]; [done|].
      by rewrite list_lookup_insert_ne in Hj.
    + destruct (decide (i = si)) as [->|?], (decide (j = si)) as [->|?].
      all: try (rewrite list_lookup_insert_eq in Hi by (by eapply lookup_lt_Some);
                injection Hi as <-).
      all: try (rewrite list_lookup_insert_eq in Hj by (by eapply lookup_lt_Some);
                injection Hj as <-).
      all: done.
  - by rewrite !length_insert.
  - intros sj shj bsj Hj Hbj. cbn [heap tabs].
    destruct (decide (sj = si)) as [->|Hjsi].
    + rewrite list_lookup_insert_eq in Hj by (by eapply lookup_lt_Some).
      rewrite list_lookup_insert_eq in Hbj by (by eapply lookup_lt_Some).
      injection Hj as <-. injection Hbj as <-.
      assert (HF' : Forall2 (chain (<[s := e]> (heap w))) arr bs).
      { eapply chains_frame; [done|]. intros a Ha. by eapply Hfr. }
      split; cbn [capacity count strs].
      * done.
      * exists (<[Z.to_nat idx := Some s]> arr). rewrite lookup_insert_eq.
        split; [done|]. split; [by rewrite length_insert|].
        apply Forall2_insert; [done|].
        apply chain_cons with e; [by rewrite lookup_insert_eq|]. simpl.
        exact (Forall2_lookup_lr _ _ _ _ _ _ HF' Hhead Hb).
      * rewrite (Permutation_length (concat_insert_cons _ _ _ _ Hb)). simpl. lia.
      * intros i b' x Hb' Hx.
        destruct (decide (i = Z.to_nat idx)) as [->|Hne].
        -- rewrite list_lookup_insert_eq in Hb' by (by eapply lookup_lt_Some).
           injection Hb' as <-. apply elem_of_cons in Hx as [->|Hx].
           ++ exists e. rewrite lookup_insert_eq. split; [done|].
              split; [|simpl; lia]. split; [done|]. split; [done|]. simpl. lia.
           ++ rewrite (Hfr si bs); [by eapply Hpl|done|].
              apply elem_of_concat. eauto.
        -- rewrite list_lookup_insert_ne in Hb' by done.
           rewrite (Hfr si bs); [by eapply Hpl|done|].
           apply elem_of_concat. eauto.
      * done.
    + rewrite list_lookup_insert_ne in Hj by done.
      rewrite list_lookup_insert_ne in Hbj by done.
      eapply shard_rep_frame; [by eapply Hall| |].
      * intros a Ha. by eapply Hfr.
      * rewrite lookup_insert_ne; [done|]. intros Heq.
        by specialize (Hdist _ _ _ _ Hsh Hj Heq) as ->.
Qed.

Lemma InternNew_spec w bss shards (si : nat) sh bs hash args :
  table_rep w bss → g_shards w = Some shards →
  shards !! si = Some sh → bss !! si = Some bs →
  Z.to_nat (SHARD_IDX hash) = si →
  capacity sh * 2 < 2 ^ 64 → count sh + 1 < 2 ^ 64 →
  let idx := TABLE_IDX hash (capacity sh) in
  let s := fresh (dom (heap w)) in
  ∃ w' bs' sh' e',
    InternNewStringLocked si idx hash args w = Ok (s, w') ∧
    table_rep w' (<[si := bs']> bss) ∧
    concat bs' ≡ₚ s :: concat bs ∧
    g_shards w' = Some (<[si := sh']> shards) ∧
    count sh' = count sh + 1 ∧
    (if capacity sh * 2 <? count sh + 1
     then capacity sh' = capacity sh * 2 ∧ strs sh' = fresh (dom (tabs w))
     else capacity sh' = capacity sh ∧ strs sh' = strs sh ∧
          ∃ b, bs !! Z.to_nat idx = Some b ∧ bs' = <[Z.to_nat idx := s :: b]> bs) ∧
    heap w !! s = None ∧
    heap w' !! s = Some e' ∧
    erase e' = mkRefcount (Z.of_nat (length args)) 1 hash None args ∧
    (∀ a, a ≠ s → erase <$> heap w' !! a = erase <$> heap w !! a) ∧
    (∀ a, a ∉ s :: concat bs → heap w' !! a = heap w !! a) ∧
    g_hash_seed w' = g_hash_seed w ∧
    g_forced_hash_seed w' = g_forced_hash_seed w ∧
    log w' = log w.
Proof.
  intros Hrep Hs Hsh Hbs Hsi Hcap2 Hcnt1 idx s.
  pose proof Hrep as (shards' & Hs' & Hlen & Hdist & Hlb & Hall).
  rewrite Hs in Hs'; injection Hs' as <-.
  pose proof (Hall si sh bs Hsh Hbs) as Hsr.
  pose proof Hsr as [Hcap (arr & Harr & Hla & HF) Hcnt Hpl Hmax].
  pose proof (TABLE_IDX_range hash (capacity sh) (proj1 Hcap)) as Hir.
  fold idx in Hir.
  destruct (lookup_lt_is_Some_2 arr (Z.to_nat idx)) as [head Hhead]; [lia|].
  destruct (Forall2_lookup_l _ _ _ _ _ HF Hhead) as (b & Hb & Hcb).
  assert (Hfresh : heap w !! s = None).
  { apply not_elem_of_dom. apply is_fresh. }
  set (e := mkRefcount (Z.of_nat (length args)) 1 hash head args).
  set (sh1 := mkShard (strs sh) (count sh + 1) (capacity sh)).
  set (w3 := mkWorld (<[s := e]> (heap w))
       (<[strs sh := <[Z.to_nat idx := Some s]> arr]> (tabs w))
       (Some (<[si := sh1]> shards))
       (g_hash_seed w) (g_forced_hash_seed w) (log w)).
  pose proof (link_rep w bss shards si sh bs idx b arr head hash args
                Hrep Hs Hsh Hbs Hsi eq_refl Hb Harr Hhead Hcnt1) as Hrep3.
  cbn zeta in Hrep3. fold s e sh1 w3 in Hrep3.
  assert (Hrun3 : InternNewStringLocked si idx hash args w =
            if capacity sh * 2 <? count sh + 1
            then w4 ← grow_shard si w3; Ok (s, w4) else Ok (s, w3)).
  { unfold InternNewStringLocked. rewrite (read_shard_eq _ _ _ _ Hs Hsh). run_step.
    unfold read_bucket. rewrite Harr. run_step. rewrite Hhead. run_step.
    rewrite memcpy_all. unfold gpr_malloc. fold s e.
    unfold write_slot. cbn [tabs set_heap]. rewrite Harr. run_step.
    rewrite Hhead. run_step.
    unfold write_shard. cbn [g_shards set_tabs set_heap]. rewrite Hs. run_step.
    rewrite Hsh. run_step. cbn [capacity count strs].
    rewrite !size_t_small by lia. done. }
  assert (Hcount0 : 0 ≤ count sh) by lia.
  destruct (capacity sh * 2 <? count sh + 1) eqn:Hgrow.
  - assert (Hs3 : g_shards w3 = Some (<[si := sh1]> shards)) by done.
    assert (Hsh3 : <[si := sh1]> shards !! si = Some sh1).
    { apply list_lookup_insert_eq. by eapply lookup_lt_Some. }
    assert (Hbs3 : <[si := <[Z.to_nat idx := s :: b]> bs]> bss !! si
                   = Some (<[Z.to_nat idx := s :: b]> bs)).
    { apply list_lookup_insert_eq. by eapply lookup_lt_Some. }
    destruct (grow_shard_spec w3 _ _ si sh1 _ Hrep3 Hs3 Hsh3 Hbs3 Hcap2)
      as (h' & nt' & bs' & Hrun & Hrep' & Hperm & Hr & Hfr).
    cbn zeta in Hrun, Hrep'.
    rewrite list_insert_insert_eq in Hrun.
    do 2 rewrite list_insert_insert_eq in Hrep'.
    destruct (relinked_lookup _ _ s e Hr) as (e' & He' & Her);
      [by apply lookup_insert_eq|].
    eexists _, bs', _, e'. split; [by rewrite Hrun3, Hrun|].
    split; [exact Hrep'|]. split.
    { rewrite Hperm. by apply concat_insert_cons. }
    split; [done|]. split; [done|]. split.
    { split; [done|]. cbn [strs tabs w3]. f_equal. apply dom_insert_lookup_L. eauto. }
    split; [done|]. split; [done|]. split; [done|]. split.
    { intros a Ha. cbn [heap]. unfold relinked in Hr.
      apply (f_equal (λ m, m !! a)) in Hr. rewrite !lookup_fmap in Hr.
      rewrite <- Hr. cbn [heap w3]. by rewrite lookup_insert_ne. }
    split; [|done].
    intros a Ha. cbn [heap]. apply not_elem_of_cons in Ha as [Has Ha].
    rewrite Hfr.
    + cbn [heap w3]. by rewrite lookup_insert_ne.
    + rewrite (concat_insert_cons _ _ _ _ Hb). apply not_elem_of_cons. done.
  - exists w3, (<[Z.to_nat idx := s :: b]> bs), sh1, e.
    split; [done|]. split; [done|]. split; [by apply concat_insert_cons|].
    split; [done|]. split; [done|]. split; [eauto|]. split; [done|].
    split; [by apply lookup_insert_eq|]. split; [done|]. split.
    { intros a Ha. cbn [heap w3]. by rewrite lookup_insert_ne. }
    split; [|done].
    intros a Ha. apply not_elem_of_cons in Ha as [Has Ha].
    cbn [heap w3]. by rewrite lookup_insert_ne.
Qed.

(** * Matching *)

Lemma set_heap_same w : set_heap (heap w) w = w.
Proof. by destruct w. Qed.

(** Changing an entry without touching its link, hash, length or bytes. *)
Lemma table_rep_update w bss a e e' :
  table_rep w bss → heap w !! a = Some e →
  bucket_next e' = bucket_next e → e_hash e' = e_hash e →
  e_length e' = e_length e → e_bytes e' = e_bytes e →
  (0 ≤ e_refcnt e → 0 ≤ e_refcnt e') →
  table_rep (set_heap (<[a := e']> (heap w)) w) bss.
Proof.
  intros (shards & Hs & Hlen & Hdist & Hlb & Hall) Ha Hn Hh Hl Hb Hr.
  exists shards. split; [done|]. split; [done|]. split; [done|]. split; [done|].
  intros si sh bs Hsh Hbs. cbn [heap tabs set_heap].
  destruct (Hall si sh bs Hsh Hbs) as [Hcap (arr & Harr & Hla & HF) Hcnt Hpl Hmax].
  split; [done| |done| |done].
  - exists arr. split; [done|]. split; [done|].
    eapply Forall2_impl; [exact HF|]. intros p l Hc.
    by eapply chain_insert_same_next.
  - intros i b x Hbi Hx. destruct (Hpl i b x Hbi Hx) as (ex & Hex & Hok & Hidx).
    destruct (decide (x = a)) as [->|Hne].
    + rewrite Ha in Hex; injection Hex as <-. exists e'.
      rewrite lookup_insert_eq. split; [done|].
      destruct Hok as (H1 & H2 & H3). unfold entry_ok.
      rewrite Hh, Hl, Hb. auto.
    + exists ex. by rewrite lookup_insert_ne.
Qed.

Lemma table_rep_bump w bss a :
  table_rep w bss → table_rep (set_heap (bump a (heap w)) w) bss.
Proof.
  intros Hrep. unfold bump. destruct (heap w !! a) as [e|] eqn:Ha.
  - eapply table_rep_update; eauto. simpl. lia.
  - by rewrite set_heap_same.
Qed.

Lemma Match_spec w bss shards (si : nat) sh bs hash idx b args :
  table_rep w bss → g_shards w = Some shards →
  shards !! si = Some sh → bss !! si = Some bs →
  Z.to_nat (SHARD_IDX hash) = si → bs !! Z.to_nat idx = Some b →
  MatchInternedSliceLocked hash idx args w =
    Ok (match find (live_match (heap w) hash args) b with
        | Some a => (Some a, set_heap (bump a (heap w)) w)
        | None => (None, w)
        end).
Proof.
  intros Hrep Hs Hsh Hbs Hsi Hb.
  pose proof Hrep as (shards' & Hs' & Hlen & Hdist & Hlb & Hall).
  rewrite Hs in Hs'; injection Hs' as <-.
  destruct (Hall si sh bs Hsh Hbs) as [Hcap (arr & Harr & Hla & HF) Hcnt Hpl Hmax].
  destruct (Forall2_lookup_r _ _ _ _ _ HF Hb) as (p & Hp & Hc).
  unfold MatchInternedSliceLocked. rewrite Hsi.
  rewrite (read_shard_eq _ _ _ _ Hs Hsh). run_step.
  unfold read_bucket. rewrite Harr. run_step. rewrite Hp. run_step.
  rewrite (match_scan_spec _ _ _ _ _ _ Hc (chain_fuel _ _ _ Hc)). run_step.
  destruct (find _ b); [done|]. by rewrite set_heap_same.
Qed.

Lemma find_live_match h hash args b a :
  find (live_match h hash args) b = Some a →
  a ∈ b ∧ ∃ e, h !! a = Some e ∧ e_hash e = hash ∧ slice_eq e args = true ∧
               e_refcnt e ≠ 0.
Proof.
  intros Hf. apply find_some in Hf as [Hin Hm]. split; [by apply list_elem_of_In|].
  unfold live_match in Hm. destruct (h !! a) as [e|]; [|done]. exists e.
  unfold entry_matches in Hm.
  apply andb_true_iff in Hm as [Hm Hr]. apply andb_true_iff in Hm as [Hh Hsl].
  split; [done|]. split; [lia|]. split; [done|].
  apply negb_true_iff in Hr. lia.
Qed.

Lemma FindOrCreate_found w bss shards (si : nat) sh bs hash b args a :
  table_rep w bss → g_shards w = Some shards →
  shards !! si = Some sh → bss !! si = Some bs →
  Z.to_nat (SHARD_IDX hash) = si →
  bs !! Z.to_nat (TABLE_IDX hash (capacity sh)) = Some b →
  find (live_match (heap w) hash args) b = Some a →
  FindOrCreateInternedSlice hash args w = Ok (a, set_heap (bump a (heap w)) w).
Proof.
  intros Hrep Hs Hsh Hbs Hsi Hb Hf. unfold FindOrCreateInternedSlice.
  rewrite Hsi, (read_shard_eq _ _ _ _ Hs Hsh). run_step.
  rewrite (Match_spec _ _ _ _ _ _ _ _ _ _ Hrep Hs Hsh Hbs Hsi Hb), Hf. done.
Qed.

Lemma FindOrCreate_created w bss shards (si : nat) sh bs hash b args :
  table_rep w bss → g_shards w = Some shards →
  shards !! si = Some sh → bss !! si = Some bs →
  Z.to_nat (SHARD_IDX hash) = si →
  bs !! Z.to_nat (TABLE_IDX hash (capacity sh)) = Some b →
  find (live_match (heap w) hash args) b = None →
  FindOrCreateInternedSlice hash args w =
    InternNewStringLocked si (TABLE_IDX hash (capacity sh)) hash args w.
Proof.
  intros Hrep Hs Hsh Hbs Hsi Hb Hf. unfold FindOrCreateInternedSlice.
  rewrite Hsi, (read_shard_eq _ _ _ _ Hs Hsh). run_step.
  rewrite (Match_spec _ _ _ _ _ _ _ _ _ _ Hrep Hs Hsh Hbs Hsi Hb), Hf. done.
Qed.

(** * Unlinking *)

Lemma length_concat_insert {A} (ls : list (list A)) (i : nat) l l' :
  ls !! i = Some l →
  (length (concat (<[i := l']> ls)) + length l = length (concat ls) + length l')%nat.
Proof.
  intros Hl. rewrite (concat_insert _ _ _ _ Hl), (concat_split _ _ _ Hl).
  rewrite !length_app. lia.
Qed.

(** The table after [this] has been taken out of bucket [l1 ++ this :: l2],
    whatever write did it: only links of [l1] and the head of the bucket may
    have changed. *)
Lemma unlink_rep w bss shards (si : nat) sh bs (i : nat) l1 this l2 h' arr arr' p' :
  table_rep w bss → g_shards w = Some shards →
  shards !! si = Some sh → bss !! si = Some bs →
  bs !! i = Some (l1 ++ this :: l2) →
  relinked (heap w) h' →
  (∀ a, a ∉ l1 → h' !! a = heap w !! a) →
  tabs w !! strs sh = Some arr →
  length arr' = length arr →
  (∀ j, j ≠ i → arr' !! j = arr !! j) →
  arr' !! i = Some p' → chain h' p' (l1 ++ l2) →
  table_rep
    (mkWorld h' (<[strs sh := arr']> (tabs w))
       (Some (<[si := mkShard (strs sh) (count sh - 1) (capacity sh)]> shards))
       (g_hash_seed w) (g_forced_hash_seed w) (log w))
    (<[si := <[i := l1 ++ l2]> bs]> bss).
Proof.
  intros Hrep Hs Hsh Hbs Hb Hr Hfr Harr Hla' Harr' Hp' Hc'.
  pose proof Hrep as (shards' & Hs' & Hlen & Hdist & Hlb & Hall).
  rewrite Hs in Hs'; injection Hs' as <-.
  pose proof (Hall si sh bs Hsh Hbs) as Hsr.
  pose proof Hsr as [Hcap (arr0 & Harr0 & Hla & HF) Hcnt Hpl Hmax].
  rewrite Harr in Harr0; injection Harr0 as <-.
  pose proof (shard_rep_NoDup _ _ _ _ _ Hsr) as Hnd.
  assert (Hl1 : ∀ a, a ∈ l1 → a ∈ concat bs).
  { intros a Ha. apply elem_of_concat. exists i, (l1 ++ this :: l2).
    split; [done|]. apply elem_of_app. by left. }
  exists (<[si := mkShard (strs sh) (count sh - 1) (capacity sh)]> shards).
  split; [done|]. split; [by rewrite length_insert|]. split; [|split].
  - intros j k shj shk Hj Hk Heq. apply (Hdist j k
      (if decide (j = si) then sh else shj) (if decide (k = si) then sh else shk)).
    + destruct (decide (j = si)) as [->|?]; [done|].
      by rewrite list_lookup_insert_ne in Hj.
    + destruct (decide (k = si)) as [->|?]; [done|].
      by rewrite list_lookup_insert_ne in Hk.
    + destruct (decide (j = si)) as [->|?], (decide (k = si)) as [->|?].
      all: try (rewrite list_lookup_insert_eq in Hj by (by eapply lookup_lt_Some);
                injection Hj as <-).
      all: try (rewrite list_lookup_insert_eq in Hk by (by eapply lookup_lt_Some);
                injection Hk as <-).
      all: done.
  - by rewrite !length_insert.
  - intros sj shj bsj Hj Hbj. cbn [heap tabs].
    destruct (decide (sj = si)) as [->|Hjsi].
    + rewrite list_lookup_insert_eq in Hj by (by eapply lookup_lt_Some).
      rewrite list_lookup_insert_eq in Hbj by (by eapply lookup_lt_Some).
      injection Hj as <-. injection Hbj as <-.
      split; cbn [capacity count strs].
      * done.
      * exists arr'. rewrite lookup_insert_eq. split; [done|].
        split; [congruence|].
        apply Forall2_same_length_lookup_2.
        { rewrite length_insert, Hla'. by eapply Forall2_length. }
        intros j x y Hx Hy. destruct (decide (j = i)) as [->|Hji].
        -- rewrite list_lookup_insert_eq in Hy by (by eapply lookup_lt_Some).
           injection Hy as <-. rewrite Hp' in Hx. by injection Hx as <-.
        -- rewrite list_lookup_insert_ne in Hy by done.
           rewrite Harr' in Hx by done.
           eapply chain_frame; [exact (Forall2_lookup_lr _ _ _ _ _ _ HF Hx Hy)|].
           intros a Ha. apply Hfr. intros Ha1.
           destruct (Hpl j y a Hy Ha) as (e & He & _ & Hij).
           assert (Hai : a ∈ l1 ++ this :: l2) by (apply elem_of_app; by left).
           pose proof (placed_bucket _ _ _ _ _ _ _ _ Hpl Hb Hai He). lia.
      * pose proof (length_concat_insert bs i _ (l1 ++ l2) Hb) as Hlc.
        rewrite !length_app in Hlc. simpl in Hlc. lia.
      * eapply placed_relinked; [exact Hr|].
        intros j b' x Hb' Hx. destruct (decide (j = i)) as [->|Hji].
        -- rewrite list_lookup_insert_eq in Hb' by (by eapply lookup_lt_Some).
           injection Hb' as <-. apply (Hpl i _ x Hb).
           rewrite elem_of_app in Hx. rewrite elem_of_app, elem_of_cons. tauto.
        -- rewrite list_lookup_insert_ne in Hb' by done. by eapply Hpl.
      * lia.
    + rewrite list_lookup_insert_ne in Hj by done.
      rewrite list_lookup_insert_ne in Hbj by done.
      pose proof (Hall sj shj bsj Hj Hbj) as Hsrj.
      eapply shard_rep_frame; [exact Hsrj| |].
      * intros a Ha. apply Hfr. intros Ha1.
        eapply (placed_disjoint (heap w) sj si); [apply Hsrj|apply Hsr|done..|auto].
      * rewrite lookup_insert_ne; [done|]. intros Heq.
        by specialize (Hdist _ _ _ _ Hsh Hj Heq) as ->.
Qed.

Lemma dtor_spec w bss shards this t (si : nat) sh bs l1 l2 :
  table_rep w bss → g_shards w = Some shards → heap w !! this = Some t →
  si = Z.to_nat (SHARD_IDX (e_hash t)) →
  shards !! si = Some sh → bss !! si = Some bs →
  bs !! Z.to_nat (TABLE_IDX (e_hash t) (capacity sh)) = Some (l1 ++ this :: l2) →
  ∃ w',
    InternedSliceRefcount_dtor this w = Ok w' ∧
    table_rep w'
      (<[si := <[Z.to_nat (TABLE_IDX (e_hash t) (capacity sh)) := l1 ++ l2]> bs]> bss) ∧
    g_shards w' =
      Some (<[si := mkShard (strs sh) (count sh - 1) (capacity sh)]> shards) ∧
    relinked (heap w) (heap w') ∧
    (∀ a, a ∉ l1 → heap w' !! a = heap w !! a) ∧
    g_hash_seed w' = g_hash_seed w ∧
    g_forced_hash_seed w' = g_forced_hash_seed w ∧
    log w' = log w.
Proof.
  intros Hrep Hs Ht -> Hsh Hbs Hb.
  set (si := Z.to_nat (SHARD_IDX (e_hash t))) in *.
  set (i := Z.to_nat (TABLE_IDX (e_hash t) (capacity sh))) in *.
  pose proof Hrep as (shards' & Hs' & Hlen & Hdist & Hlb & Hall).
  rewrite Hs in Hs'; injection Hs' as <-.
  pose proof (Hall si sh bs Hsh Hbs) as Hsr.
  pose proof Hsr as [Hcap (arr & Harr & Hla & HF) Hcnt Hpl Hmax].
  destruct (Forall2_lookup_r _ _ _ _ _ HF Hb) as (p & Hp & Hc).
  pose proof (chain_NoDup _ _ _ Hc) as Hnd.
  assert (Hni : this ∉ l1).
  { apply NoDup_app in Hnd as (_ & Hd & _). intros Hin. apply (Hd _ Hin). by left. }
  assert (Hfuel : (length l1 < fuel (heap w))%nat).
  { pose proof (chain_fuel _ _ _ Hc) as Hf. rewrite length_app in Hf. lia. }
  assert (Hcnt1 : 1 ≤ count sh).
  { rewrite Hcnt, (concat_split _ _ _ Hb), !length_app, length_cons. lia. }
  assert (Hrun : InternedSliceRefcount_dtor this w =
     w1 ← write_slot (match last l1 with
                      | Some c => SlotNext c
                      | None => SlotBucket (strs sh) (TABLE_IDX (e_hash t) (capacity sh))
                      end) (bucket_next t) w;
     write_shard si (mkShard (strs sh) (count sh - 1) (capacity sh)) w1).
  { unfold InternedSliceRefcount_dtor. rewrite Ht. run_step.
    fold si. rewrite (read_shard_eq _ _ _ _ Hs Hsh). run_step.
    unfold read_bucket. rewrite Harr. run_step. fold i. rewrite Hp. run_step.
    rewrite (unlink_scan_found _ _ _ _ _ _ _ Hc Hni Hfuel). run_step.
    rewrite size_t_small by lia. done. }
  destruct (last l1) as [c|] eqn:Hlast.
  - apply last_Some in Hlast as [l1' ->].
    assert (Hcin : is_Some (heap w !! c)).
    { eapply chain_elem_of; [exact Hc|]. rewrite !elem_of_app, list_elem_of_singleton. auto. }
    destruct Hcin as [ec Hec].
    set (h' := <[c := set_next (bucket_next t) ec]> (heap w)).
    assert (Hr : relinked (heap w) h') by (by eapply relinked_insert).
    assert (Hfr : ∀ a, a ∉ l1' ++ [c] → h' !! a = heap w !! a).
    { intros a Ha. unfold h'. rewrite lookup_insert_ne; [done|]. intros <-.
      apply Ha. rewrite elem_of_app, list_elem_of_singleton. auto. }
    assert (Hc' : chain h' p ((l1' ++ [c]) ++ l2)).
    { rewrite <- app_assoc. simpl. apply chain_unlink with this; [|done..].
      by rewrite <- app_assoc in Hc. }
    pose proof (unlink_rep w bss shards si sh bs i (l1' ++ [c]) this l2 h' arr arr p
                  Hrep Hs Hsh Hbs Hb Hr Hfr Harr eq_refl (λ _ _, eq_refl) Hp Hc') as Hrep'.
    rewrite (insert_id (tabs w)) in Hrep' by done.
    eexists. split.
    { rewrite Hrun. unfold write_slot. rewrite Hec. run_step.
      unfold write_shard. cbn [g_shards set_heap]. rewrite Hs. run_step.
      rewrite Hsh. run_step. unfold set_shards, set_heap. cbn. reflexivity. }
    split; [exact Hrep'|]. done.
  - apply last_None in Hlast as ->. simpl in *.
    apply chain_inv_list in Hc as (-> & e & He & Hc).
    rewrite Ht in He; injection He as <-.
    pose proof (unlink_rep w bss shards si sh bs i [] this l2 (heap w) arr
                  (<[i := bucket_next t]> arr) (bucket_next t)
                  Hrep Hs Hsh Hbs Hb (relinked_refl _) (λ _ _, eq_refl) Harr) as Hrep'.
    eexists. split.
    { rewrite Hrun. unfold write_slot. rewrite Harr. run_step. fold i.
      rewrite Hp. run_step.
      unfold write_shard. cbn [g_shards set_tabs]. rewrite Hs. run_step.
      rewrite Hsh. run_step. unfold set_shards, set_tabs. cbn. reflexivity. }
    split; [|done]. apply Hrep'.
    + by rewrite length_insert.
    + intros j Hj. by rewrite list_lookup_insert_ne.
    + apply list_lookup_insert_eq. by eapply lookup_lt_Some.
    + done.
Qed.

(** The destructor of an entry that is not in the bucket of its hash reads
    through the null link at the end of the chain. *)
Lemma dtor_missing w bss shards this t (si : nat) sh bs b :
  table_rep w bss → g_shards w = Some shards → heap w !! this = Some t →
  si = Z.to_nat (SHARD_IDX (e_hash t)) →
  shards !! si = Some sh → bss !! si = Some bs →
  bs !! Z.to_nat (TABLE_IDX (e_hash t) (capacity sh)) = Some b →
  this ∉ b →
  InternedSliceRefcount_dtor this w = Fault NullDeref.
Proof.
  intros Hrep Hs Ht -> Hsh Hbs Hb Hni.
  pose proof Hrep as (shards' & Hs' & Hlen & Hdist & Hlb & Hall).
  rewrite Hs in Hs'; injection Hs' as <-.
  destruct (Hall _ sh bs Hsh Hbs) as [Hcap (arr & Harr & Hla & HF) Hcnt Hpl Hmax].
  destruct (Forall2_lookup_r _ _ _ _ _ HF Hb) as (p & Hp & Hc).
  unfold InternedSliceRefcount_dtor. rewrite Ht. run_step.
  rewrite (read_shard_eq _ _ _ _ Hs Hsh). run_step.
  unfold read_bucket. rewrite Harr. run_step. rewrite Hp. run_step.
  by rewrite (unlink_scan_missing _ _ _ _ _ _ Hc Hni (chain_fuel _ _ _ Hc)).
Qed.

(** * Initialisation *)

(** The first [i] shards are set up: empty, of the initial capacity, each
    with a zeroed array of its own. *)
Definition init_done (i : nat) (w : world) (shards : list slice_shard) : Prop :=
  g_shards w = Some shards ∧
  length shards = Z.to_nat SHARD_COUNT ∧
  (∀ j sh, (j < i)%nat → shards !! j = Some sh →
     count sh = 0 ∧ capacity sh = INITIAL_SHARD_CAPACITY ∧
     tabs w !! strs sh =
       Some (replicate (Z.to_nat INITIAL_SHARD_CAPACITY) None)) ∧
  (∀ j k shj shk, (j < i)%nat → (k < i)%nat →
     shards !! j = Some shj → shards !! k = Some shk →
     strs shj = strs shk → j = k).

Lemma init_shards_spec n : ∀ (i : nat) w shards,
  init_done i w shards → (i + n = Z.to_nat SHARD_COUNT)%nat →
  ∃ w' shards',
    init_shards n i w = Ok w' ∧
    init_done (Z.to_nat SHARD_COUNT) w' shards' ∧
    heap w' = heap w ∧ g_hash_seed w' = g_hash_seed w ∧
    g_forced_hash_seed w' = g_forced_hash_seed w ∧ log w' = log w.
Proof.
  induction n as [|n IH]; intros i w shards Hd Hin.
  - exists w, shards. rewrite Nat.add_0_r in Hin. subst i.
    split; [done|]. split; [exact Hd|]. done.
  - destruct Hd as (Hs & Hlen & Hok & Hdist).
    set (t := fresh (dom (tabs w))).
    assert (Hfresh : tabs w !! t = None).
    { apply not_elem_of_dom. apply is_fresh. }
    destruct (lookup_lt_is_Some_2 shards i) as [shi Hshi]; [lia|].
    set (sh := mkShard t 0 INITIAL_SHARD_CAPACITY).
    set (w2 := set_shards (Some (<[i := sh]> shards))
                 (set_tabs (<[t := replicate (Z.to_nat INITIAL_SHARD_CAPACITY) None]> (tabs w)) w)).
    destruct (IH (S i) w2 (<[i := sh]> shards)) as (w' & shards' & Hrun & Hd' & Hh & Hseed & Hflag & Hlog);
      [|lia|].
    + split; [done|]. split; [by rewrite length_insert|]. split.
      * intros j shj Hj Hshj. cbn [tabs w2 set_shards set_tabs].
        destruct (decide (j = i)) as [->|Hne].
        -- rewrite list_lookup_insert_eq in Hshj by lia. injection Hshj as <-.
           cbn [count capacity strs sh]. by rewrite lookup_insert_eq.
        -- rewrite list_lookup_insert_ne in Hshj by done.
           destruct (Hok j shj) as (H1 & H2 & H3); [lia|done|].
           rewrite lookup_insert_ne; [done|]. intros Heq.
           congruence.
      * intros j k shj shk Hj Hk Hshj Hshk Heq.
        destruct (decide (j = i)) as [->|Hnej], (decide (k = i)) as [->|Hnek];
          [done| | |].
        -- rewrite list_lookup_insert_eq in Hshj by lia. injection Hshj as <-.
           rewrite list_lookup_insert_ne in Hshk by done.
           destruct (Hok k shk) as (_ & _ & H3); [lia|done|].
           cbn [strs sh] in Heq. congruence.
        -- rewrite list_lookup_insert_eq in Hshk by lia. injection Hshk as <-.
           rewrite list_lookup_insert_ne in Hshj by done.
           destruct (Hok j shj) as (_ & _ & H3); [lia|done|].
           cbn [strs sh] in Heq. congruence.
        -- rewrite list_lookup_insert_ne in Hshj by done.
           rewrite list_lookup_insert_ne in Hshk by done.
           apply (Hdist j k shj shk); (lia || done).
    + exists w', shards'. split.
      { cbn [init_shards]. unfold gpr_zalloc. fold t. unfold write_shard.
        cbn [g_shards set_tabs]. rewrite Hs. run_step. rewrite Hshi. run_step.
        exact Hrun. }
      split; [exact Hd'|]. done.
Qed.

(** The buckets of a table that holds nothing. *)
Definition empty_buckets : list (list (list loc)) :=
  replicate (Z.to_nat SHARD_COUNT)
    (replicate (Z.to_nat INITIAL_SHARD_CAPACITY) []).

Lemma init_done_rep w shards :
  init_done (Z.to_nat SHARD_COUNT) w shards → table_rep w empty_buckets.
Proof.
  intros (Hs & Hlen & Hok & Hdist). exists shards.
  split; [done|]. split; [done|]. split; [|split].
  - intros i j shi shj Hi Hj. apply Hdist; [|  |done..].
    + rewrite <- Hlen. by eapply lookup_lt_Some.
    + rewrite <- Hlen. by eapply lookup_lt_Some.
  - unfold empty_buckets. by rewrite length_replicate.
  - intros si sh bs Hsh Hbs. apply lookup_replicate_1 in Hbs as [-> Hsi].
    destruct (Hok si sh Hsi Hsh) as (Hc & Hcap & Harr).
    split.
    + rewrite Hcap. done.
    + eexists. split; [exact Harr|]. rewrite length_replicate, Hcap.
      split; [done|]. apply Forall2_replicate. constructor.
    + by rewrite concat_replicate_nil, Hc.
    + intros i b a Hb Ha. apply lookup_replicate_1 in Hb as [-> _].
      by apply elem_of_nil in Ha.
    + rewrite Hc. done.
Qed.

Lemma init_spec tv_nsec w :
  ∃ w' shards,
    grpc_slice_intern_init tv_nsec w = Ok w' ∧
    init_done (Z.to_nat SHARD_COUNT) w' shards ∧
    heap w' = heap w ∧
    g_hash_seed w' =
      (if g_forced_hash_seed w then g_hash_seed w else uint32 tv_nsec) ∧
    g_forced_hash_seed w' = g_forced_hash_seed w ∧
    log w' = log w.
Proof.
  unfold grpc_slice_intern_init.
  match goal with |- context [init_shards _ _ ?w1] => set (w1' := w1) end.
  destruct (init_shards_spec (Z.to_nat SHARD_COUNT) 0 w1' new_shards)
    as (w' & shards & Hrun & Hd & Hh & Hseed & Hflag & Hlog); [|done|].
  - split; [done|]. split; [apply length_replicate|].
    split; intros; lia.
  - exists w', shards. by repeat (split; [done|]).
Qed.

(** * Shutdown *)

Definition add_logs (ls : list log_line) (w : world) : world :=
  mkWorld (heap w) (tabs w) (g_shards w) (g_hash_seed w) (g_forced_hash_seed w)
          (log w ++ ls).

Lemma add_logs_nil w : add_logs [] w = w.
Proof. destruct w. unfold add_logs. simpl. by rewrite app_nil_r. Qed.

Lemma add_logs_cons l ls w : add_logs ls (add_log l w) = add_logs (l :: ls) w.
Proof. unfold add_logs, add_log. simpl. by rewrite <- app_assoc. Qed.

Lemma add_logs_app ls1 ls2 w : add_logs ls2 (add_logs ls1 w) = add_logs (ls1 ++ ls2) w.
Proof. unfold add_logs. simpl. by rewrite <- app_assoc. Qed.

Section Shutdown.

Variable grpc_dump_slice : list byte → Z → string.
Variables GPR_DUMP_HEX GPR_DUMP_ASCII : Z.

(** The line that reports the entry at [a] as leaked. *)
Definition leak_line (h : gmap loc InternedSliceRefcount) (a : loc) : log_line :=
  match h !! a with
  | Some e =>
      LogLeaked (grpc_dump_slice (take (Z.to_nat (e_length e)) (e_bytes e))
                   (Z.lor GPR_DUMP_HEX GPR_DUMP_ASCII))
  | None => LogLeaked EmptyString
  end.

(** What shutdown logs for one shard. *)
Definition shard_log (h : gmap loc InternedSliceRefcount) (sh : slice_shard)
    (bs : list (list loc)) : list log_line :=
  if count sh =? 0 then []
  else LogWarning (count sh) :: (leak_line h <$> concat bs).

(** Shutdown over the shards and their buckets, as lists. *)
Fixpoint shutdown_model (abort_on_leaks : bool)
    (rest : list (slice_shard * list (list loc))) (w : world) : outcome world :=
  match rest with
  | [] => Ok w
  | (sh, bs) :: rest' =>
      let w1 := add_logs (shard_log (heap w) sh bs) w in
      if negb (count sh =? 0) && abort_on_leaks then Abort w1
      else shutdown_model abort_on_leaks rest'
             (set_tabs (delete (strs sh) (tabs w1)) w1)
  end.

Lemma dump_chain_spec l : ∀ s w n,
  chain (heap w) s l → (length l < n)%nat →
  dump_chain grpc_dump_slice GPR_DUMP_HEX GPR_DUMP_ASCII n s w =
    Ok (add_logs (leak_line (heap w) <$> l) w).
Proof.
  induction l as [|a l IH]; intros s w n Hc Hn.
  - inversion Hc; subst. destruct n; [simpl in Hn; lia|]. simpl.
    by rewrite add_logs_nil.
  - apply chain_inv_list in Hc as (-> & e & He & Hc).
    destruct n as [|n]; [simpl in Hn; lia|]. simpl in Hn.
    cbn [dump_chain]. rewrite He. run_step.
    rewrite IH by (done || lia). rewrite add_logs_cons.
    cbn [heap add_log fmap list_fmap]. unfold leak_line at 2. by rewrite He.
Qed.

Lemma dump_buckets_spec sh arr rest : ∀ (k : nat) w,
  tabs w !! strs sh = Some arr →
  Forall2 (chain (heap w)) (drop k arr) rest →
  dump_buckets grpc_dump_slice GPR_DUMP_HEX GPR_DUMP_ASCII
      (length rest) (Z.of_nat k) sh w =
    Ok (add_logs (leak_line (heap w) <$> concat rest) w).
Proof.
  induction rest as [|b rest IH]; intros k w Harr HF.
  - simpl. by rewrite add_logs_nil.
  - destruct (drop k arr) as [|p tl] eqn:Hdrop; [by inversion HF|].
    apply Forall2_cons in HF as [Hcb HF].
    assert (Hp : arr !! k = Some p).
    { rewrite <- (Nat.add_0_r k), <- lookup_drop, Hdrop. done. }
    assert (Htl : drop (S k) arr = tl).
    { replace (S k) with (k + 1)%nat by lia. by rewrite <- drop_drop, Hdrop. }
    cbn [length dump_buckets]. unfold read_bucket. rewrite Harr. run_step.
    rewrite Nat2Z.id, Hp. run_step.
    rewrite (dump_chain_spec b _ _ _ Hcb (chain_fuel _ _ _ Hcb)). run_step.
    replace (Z.of_nat k + 1) with (Z.of_nat (S k)) by lia.
    rewrite IH; [|done|by rewrite Htl].
    rewrite add_logs_app. cbn [heap add_logs concat]. by rewrite fmap_app.
Qed.

Lemma shutdown_shards_model abort shards rest : ∀ (i : nat) w,
  g_shards w = Some shards →
  (∀ (k : nat) sh bs, rest !! k = Some (sh, bs) →
     shards !! (i + k)%nat = Some sh ∧
     count sh = Z.of_nat (length (concat bs)) ∧
     ∃ arr, tabs w !! strs sh = Some arr ∧
            length arr = Z.to_nat (capacity sh) ∧
            Forall2 (chain (heap w)) arr bs) →
  NoDup ((strs ∘ fst) <$> rest) →
  shutdown_shards grpc_dump_slice GPR_DUMP_HEX GPR_DUMP_ASCII abort
      (length rest) i w =
    shutdown_model abort rest w.
Proof.
  induction rest as [|[sh bs] rest IH]; intros i w Hs Hall Hnd; [done|].
  destruct (Hall 0%nat sh bs eq_refl) as (Hsh & Hcnt & arr & Harr & Hla & HF).
  rewrite Nat.add_0_r in Hsh.
  apply NoDup_cons in Hnd as [Hni Hnd]. cbn [fmap list_fmap compose fst] in Hni.
  cbn [length shutdown_shards shutdown_model].
  rewrite (read_shard_eq _ _ _ _ Hs Hsh). run_step.
  assert (Hdump : dump_buckets grpc_dump_slice GPR_DUMP_HEX GPR_DUMP_ASCII
            (Z.to_nat (capacity sh)) 0 sh (add_log (LogWarning (count sh)) w)
          = Ok (add_logs (LogWarning (count sh) :: (leak_line (heap w) <$> concat bs)) w)).
  { rewrite <- Hla, (Forall2_length _ _ _ HF). change 0 with (Z.of_nat 0).
    rewrite (dump_buckets_spec sh arr bs 0); [|done|done].
    by rewrite add_logs_cons. }
  assert (Hnext : ∀ w1, heap w1 = heap w → tabs w1 = tabs w →
            g_shards w1 = g_shards w →
            gpr_free_tab (strs sh) w1 ≫= shutdown_shards grpc_dump_slice
              GPR_DUMP_HEX GPR_DUMP_ASCII abort (length rest) (S i)
            = shutdown_model abort rest (set_tabs (delete (strs sh) (tabs w1)) w1)).
  { intros w1 Hh1 Ht1 Hs1. unfold gpr_free_tab. rewrite Ht1, Harr. run_step.
    apply IH; [by rewrite <- Hs|  |done].
    intros k shk bsk Hk. destruct (Hall (S k) shk bsk Hk) as (Hshk & Hck & arrk & Harrk & Hlak & HFk).
    split; [by rewrite <- Nat.add_succ_comm in Hshk|]. split; [done|].
    exists arrk. cbn [tabs heap set_tabs]. rewrite Hh1.
    split; [|done]. rewrite lookup_delete_ne; [done|]. intros Heq.
    apply Hni. apply list_elem_of_fmap. exists (shk, bsk). split; [done|].
    apply list_elem_of_lookup. eauto. }
  unfold shard_log. destruct (count sh =? 0) eqn:Hz; cbn [negb andb].
  - run_step. rewrite add_logs_nil. by apply Hnext.
  - rewrite Hdump. run_step. destruct abort; [done|]. run_step.
    by apply Hnext.
Qed.

Lemma shutdown_model_ok abort rest : ∀ w,
  abort = false ∨ Forall (λ p, count p.1 = 0) rest →
  ∃ w',
    shutdown_model abort rest w = Ok w' ∧
    heap w' = heap w ∧ g_shards w' = g_shards w ∧
    g_hash_seed w' = g_hash_seed w ∧
    g_forced_hash_seed w' = g_forced_hash_seed w ∧
    log w' = log w ++ concat ((λ p, shard_log (heap w) p.1 p.2) <$> rest) ∧
    (∀ t, tabs w' !! t =
          if bool_decide (t ∈ (strs ∘ fst) <$> rest) then None else tabs w !! t).
Proof.
  induction rest as [|[sh bs] rest IH]; intros w Hc.
  - exists w. cbn [shutdown_model fmap list_fmap concat]. rewrite app_nil_r.
    repeat (split; [done|]).
    intros t. rewrite bool_decide_eq_false_2; [done|]. by intros ?%elem_of_nil.
  - cbn [shutdown_model].
    assert (Hnb : negb (count sh =? 0) && abort = false).
    { destruct Hc as [->|Hc]; [apply andb_false_r|].
      apply Forall_cons in Hc as [Hc _]. simpl in Hc. by rewrite Hc. }
    rewrite Hnb.
    destruct (IH (set_tabs (delete (strs sh)
                   (tabs (add_logs (shard_log (heap w) sh bs) w)))
                   (add_logs (shard_log (heap w) sh bs) w)))
      as (w' & Hrun & Hh & Hs & Hseed & Hflag & Hlog & Ht).
    { destruct Hc as [->|Hc]; [by left|right]. by apply Forall_cons in Hc as [_ Hc]. }
    exists w'. split; [done|]. cbn [heap g_shards g_hash_seed g_forced_hash_seed
      log tabs set_tabs add_logs] in *.
    repeat (split; [done|]). split.
    + rewrite Hlog. cbn [fmap list_fmap concat fst snd]. by rewrite <- app_assoc.
    + intros t. rewrite Ht. cbn [fmap list_fmap compose fst].
      destruct (decide (t = strs sh)) as [->|Hne].
      * rewrite lookup_delete_eq. rewrite (bool_decide_eq_true_2 (strs sh ∈ strs sh :: _));
          [by destruct (bool_decide _)|]. by left.
      * rewrite lookup_delete_ne by done.
        destruct (bool_decide (t ∈ (strs ∘ fst) <$> rest)) eqn:Hd.
        -- apply bool_decide_eq_true_1 in Hd.
           rewrite bool_decide_eq_true_2; [done|]. by right.
        -- apply bool_decide_eq_false_1 in Hd.
           rewrite bool_decide_eq_false_2; [done|].
           intros [?|?]%elem_of_cons; done.
Qed.

Lemma shutdown_model_abort rest : ∀ w,
  Exists (λ p, count p.1 ≠ 0) rest →
  ∃ w', shutdown_model true rest w = Abort w' ∧ heap w' = heap w.
Proof.
  induction rest as [|[sh bs] rest IH]; intros w He; [by inversion He|].
  cbn [shutdown_model]. destruct (count sh =? 0) eqn:Hz; cbn [negb andb].
  - apply Exists_cons in He as [He|He]; [simpl in He; lia|].
    destruct (IH (set_tabs (delete (strs sh)
                   (tabs (add_logs (shard_log (heap w) sh bs) w)))
                   (add_logs (shard_log (heap w) sh bs) w)) He) as (w' & Hrun & Hh).
    exists w'. split; done.
  - eexists. split; done.
Qed.

(** The texts of the "LEAKED" lines of a log. *)
Definition leaked_texts (ls : list log_line) : list string :=
  omap (λ l, match l with LogLeaked t => Some t | LogWarning _ => None end) ls.

(** The bytes of the entry at [a], as shutdown dumps them. *)
Definition leak_text (h : gmap loc InternedSliceRefcount) (a : loc) : string :=
  match h !! a with
  | Some e => grpc_dump_slice (e_bytes e) (Z.lor GPR_DUMP_HEX GPR_DUMP_ASCII)
  | None => EmptyString
  end.

Lemma leaked_texts_app l1 l2 :
  leaked_texts (l1 ++ l2) = leaked_texts l1 ++ leaked_texts l2.
Proof. apply omap_app. Qed.

Lemma leaked_texts_shard_log h si sh bs t :
  shard_rep h t si sh bs →
  leaked_texts (shard_log h sh bs) = leak_text h <$> concat bs.
Proof.
  intros [_ _ Hcnt Hpl _]. unfold shard_log.
  destruct (count sh =? 0) eqn:Hz.
  - destruct (concat bs); [done|]. simpl in Hcnt. lia.
  - cbn [leaked_texts omap list_omap].
    assert (Hall : ∀ a, a ∈ concat bs →
              leak_line h a = LogLeaked (leak_text h a)).
    { intros a Ha. destruct (placed_elem _ _ _ _ _ Hpl Ha) as (e & He & _ & Hl & _).
      unfold leak_line, leak_text. rewrite He, Hl, Nat2Z.id, firstn_all. done. }
    revert Hall. generalize (concat bs). intros l.
    induction l as [|a l IH]; intros Hall; [done|].
    cbn [fmap list_fmap omap list_omap]. rewrite (Hall a) by (by left).
    f_equal. apply IH. intros b Hb. apply Hall. by right.
Qed.

Lemma leaked_texts_all h shards : ∀ bss,
  length bss = length shards →
  (∀ (k : nat) sh bs, shards !! k = Some sh → bss !! k = Some bs →
     leaked_texts (shard_log h sh bs) = leak_text h <$> concat bs) →
  leaked_texts (concat ((λ p, shard_log h p.1 p.2) <$> zip shards bss)) =
    leak_text h <$> concat (concat bss).
Proof.
  induction shards as [|sh shards IH]; intros [|bs bss] Hlen Hall; try done.
  cbn [zip zip_with fmap list_fmap concat fst snd].
  rewrite leaked_texts_app, concat_app, fmap_app.
  rewrite (Hall 0%nat sh bs eq_refl eq_refl). f_equal.
  apply IH; [simpl in Hlen; lia|].
  intros k sh' bs' H1 H2. by apply (Hall (S k)).
Qed.

Lemma shard_logs_empty h shards : ∀ bss,
  (∀ (k : nat) sh bs, shards !! k = Some sh → bss !! k = Some bs →
     count sh = 0) →
  concat ((λ p, shard_log h p.1 p.2) <$> zip shards bss) = [].
Proof.
  induction shards as [|sh shards IH]; intros [|bs bss] Hall; try done.
  cbn [zip zip_with fmap list_fmap concat fst snd].
  unfold shard_log at 1. rewrite (Hall 0%nat sh bs eq_refl eq_refl). simpl.
  apply IH. intros k sh' bs' H1 H2. by apply (Hall (S k) sh' bs').
Qed.

Lemma table_rep_empty_counts w bss shards (k : nat) sh bs :
  table_rep w bss → g_shards w = Some shards →
  concat (concat bss) = [] →
  shards !! k = Some sh → bss !! k = Some bs → count sh = 0.
Proof.
  intros (shards' & Hs' & _ & _ & _ & Hall) Hs Hempty Hsh Hbs.
  rewrite Hs in Hs'; injection Hs' as <-.
  destruct (Hall k sh bs Hsh Hbs) as [_ _ Hcnt _ _]. rewrite Hcnt.
  destruct (concat bs) as [|a l] eqn:Hl; [done|].
  assert (Ha : a ∈ concat (concat bss)).
  { apply elem_of_concat_concat. exists k, bs. rewrite Hl. split; [done|]. by left. }
  rewrite Hempty in Ha. by apply elem_of_nil in Ha.
Qed.

(** Shutdown of a table that holds the buckets [bss]. *)
Lemma shutdown_run abort w bss shards :
  table_rep w bss → g_shards w = Some shards →
  grpc_slice_intern_shutdown grpc_dump_slice GPR_DUMP_HEX GPR_DUMP_ASCII abort w =
    w1 ← shutdown_model abort (zip shards bss) w; Ok (set_shards None w1).
Proof.
  intros Hrep Hs.
  pose proof Hrep as (shards' & Hs' & Hlen & Hdist & Hlb & Hall).
  rewrite Hs in Hs'; injection Hs' as <-.
  unfold grpc_slice_intern_shutdown.
  replace (Z.to_nat SHARD_COUNT) with (length (zip shards bss))
    by (rewrite length_zip; lia).
  rewrite (shutdown_shards_model abort shards); [done|done| |].
  - intros k sh bs (Hsh & Hbs)%lookup_zip_Some.
    destruct (Hall k sh bs Hsh Hbs) as [_ Harr Hcnt _ _]. done.
  - apply NoDup_alt. intros i j t Hi Hj.
    rewrite list_lookup_fmap in Hi, Hj.
    destruct (zip shards bss !! i) as [[shi bsi]|] eqn:Hzi; [|done].
    destruct (zip shards bss !! j) as [[shj bsj]|] eqn:Hzj; [|done].
    apply lookup_zip_Some in Hzi as [Hzi _]. apply lookup_zip_Some in Hzj as [Hzj _].
    simpl in Hi, Hj. apply (Hdist i j shi shj); congruence.
Qed.

Lemma shutdown_ok abort w bss shards :
  table_rep w bss → g_shards w = Some shards →
  abort = false ∨ concat (concat bss) = [] →
  ∃ w' new,
    grpc_slice_intern_shutdown grpc_dump_slice GPR_DUMP_HEX GPR_DUMP_ASCII abort w
      = Ok w' ∧
    g_shards w' = None ∧ heap w' = heap w ∧
    g_hash_seed w' = g_hash_seed w ∧
    g_forced_hash_seed w' = g_forced_hash_seed w ∧
    log w' = log w ++ new ∧
    leaked_texts new = leak_text (heap w) <$> concat (concat bss) ∧
    (concat (concat bss) = [] → new = []) ∧
    (∀ sh, sh ∈ shards → tabs w' !! strs sh = None) ∧
    (∀ t, (∀ sh, sh ∈ shards → strs sh ≠ t) → tabs w' !! t = tabs w !! t).
Proof.
  intros Hrep Hs Hc.
  pose proof Hrep as (shards' & Hs' & Hlen & Hdist & Hlb & Hall).
  rewrite Hs in Hs'; injection Hs' as <-.
  assert (Hfst : (strs ∘ fst) <$> zip shards bss = strs <$> shards).
  { rewrite list_fmap_compose, fst_zip by lia. done. }
  destruct (shutdown_model_ok abort (zip shards bss) w)
    as (w' & Hrun & Hh & Hs' & Hseed & Hflag & Hlog & Ht).
  { destruct Hc as [->|Hempty]; [by left|right].
    apply Forall_forall. intros [sh bs] Hin.
    apply list_elem_of_lookup in Hin as (k & (Hsh & Hbs)%lookup_zip_Some).
    simpl. by eapply table_rep_empty_counts. }
  exists (set_shards None w'), (concat ((λ p, shard_log (heap w) p.1 p.2) <$> zip shards bss)).
  rewrite (shutdown_run abort w bss shards Hrep Hs), Hrun. run_step.
  cbn [g_shards heap g_hash_seed g_forced_hash_seed log tabs set_shards].
  repeat (split; [done|]). split; [|split; [|split]].
  - apply leaked_texts_all; [done|]. intros k sh bs Hsh Hbs.
    eapply leaked_texts_shard_log. by eapply Hall.
  - intros Hempty. apply shard_logs_empty. intros k sh bs Hsh Hbs.
    by eapply table_rep_empty_counts.
  - intros sh Hin. rewrite Ht, Hfst. rewrite bool_decide_eq_true_2; [done|].
    apply list_elem_of_fmap. eauto.
  - intros t Hne. rewrite Ht, Hfst. rewrite bool_decide_eq_false_2; [done|].
    intros (sh & -> & Hin)%list_elem_of_fmap. by apply (Hne sh).
Qed.

(** In strict mode shutdown stops at the first shard that still counts
    entries. *)
Lemma shutdown_aborts w bss shards :
  table_rep w bss → g_shards w = Some shards →
  concat (concat bss) ≠ [] →
  ∃ w', grpc_slice_intern_shutdown grpc_dump_slice GPR_DUMP_HEX GPR_DUMP_ASCII true w
          = Abort w' ∧ heap w' = heap w.
Proof.
  intros Hrep Hs Hne.
  pose proof Hrep as (shards' & Hs' & Hlen & Hdist & Hlb & Hall).
  rewrite Hs in Hs'; injection Hs' as <-.
  destruct (shutdown_model_abort (zip shards bss) w) as (w' & Hrun & Hh).
  - destruct (concat (concat bss)) as [|a l] eqn:Hl; [done|].
    assert (Ha : a ∈ concat (concat bss)) by (rewrite Hl; by left).
    apply elem_of_concat_concat in Ha as (k & bs & Hbs & Ha).
    destruct (lookup_lt_is_Some_2 shards k) as [sh Hsh].
    { rewrite <- Hlb. by eapply lookup_lt_Some. }
    apply Exists_exists. exists (sh, bs). split.
    + apply list_elem_of_lookup. exists k. by apply lookup_zip_Some.
    + simpl. destruct (Hall k sh bs Hsh Hbs) as [_ _ Hcnt _ _]. rewrite Hcnt.
      destruct (concat bs); [by apply elem_of_nil in Ha|]. simpl. lia.
  - exists w'. rewrite (shutdown_run true w bss shards Hrep Hs), Hrun. done.
Qed.

Lemma shutdown_model_stops rest1 : ∀ sh bs rest2 w,
  Forall (λ p, count p.1 = 0) rest1 → count sh ≠ 0 →
  ∃ w',
    shutdown_model true
      (rest1 ++ (sh, bs) :: rest2) w = Abort w' ∧
    heap w' = heap w ∧ g_shards w' = g_shards w ∧
    log w' =
      log w ++ shard_log (heap w) sh bs ∧
    (∀ t, tabs w' !! t =
          if bool_decide (t ∈ (strs ∘ fst) <$> rest1) then None else tabs w !! t).
Proof.
  induction rest1 as [|[sh0 bs0] rest1 IH]; intros sh bs rest2 w Hzero Hne.
  - cbn [app shutdown_model].
    assert (Hz : (count sh =? 0) = false) by lia. rewrite Hz. cbn [negb andb].
    eexists. split; [reflexivity|]. cbn [heap g_shards log tabs add_logs].
    split; [done|]. split; [done|]. split; [done|].
    intros t. rewrite bool_decide_eq_false_2; [done|]. apply not_elem_of_nil.
  - apply Forall_cons in Hzero as [Hz0 Hzero]. cbn [fst] in Hz0.
    cbn [app shutdown_model].
    assert (Hz : (count sh0 =? 0) = true) by lia. rewrite Hz. cbn [negb andb].
    unfold shard_log at 1 2. rewrite Hz, add_logs_nil.
    destruct (IH sh bs rest2 (set_tabs (delete (strs sh0) (tabs w)) w) Hzero Hne)
      as (w' & Hrun & Hh & Hs & Hlog & Htabs).
    exists w'. split; [exact Hrun|]. cbn [heap g_shards log tabs set_tabs] in *.
    split; [done|]. split; [done|]. split; [done|].
    intros t. rewrite Htabs. cbn [fmap list_fmap compose fst].
    destruct (decide (t = strs sh0)) as [->|Hts].
    + rewrite lookup_delete_eq.
      rewrite (bool_decide_eq_true_2 (strs sh0 ∈ strs sh0 :: _)) by (by left).
      by destruct (bool_decide _).
    + rewrite lookup_delete_ne by done.
      destruct (bool_decide (t ∈ (strs ∘ fst) <$> rest1)) eqn:Hd.
      * apply bool_decide_eq_true_1 in Hd.
        rewrite bool_decide_eq_true_2; [done|]. by right.
      * apply bool_decide_eq_false_1 in Hd.
        rewrite bool_decide_eq_false_2; [done|].
        intros [Heq|Hin]%elem_of_cons; [by apply Hts|by apply Hd].
Qed.

(** The first shard that still counts entries. *)
Lemma first_leaking_shard w bss shards :
  table_rep w bss → g_shards w = Some shards →
  concat (concat bss) ≠ [] →
  ∃ (k : nat) sh bs,
    shards !! k = Some sh ∧ bss !! k = Some bs ∧ count sh ≠ 0 ∧
    ∀ (j : nat) shj, (j < k)%nat → shards !! j = Some shj → count shj = 0.
Proof.
  intros Hrep Hs Hne.
  pose proof Hrep as (shards' & Hs' & Hlen & Hdist & Hlb & Hall).
  rewrite Hs in Hs'; injection Hs' as <-.
  destruct (concat (concat bss)) as [|a l] eqn:Hl; [done|].
  assert (Ha : a ∈ concat (concat bss)) by (rewrite Hl; by left).
  apply elem_of_concat_concat in Ha as (i & bsi & Hbsi & Ha).
  destruct (lookup_lt_is_Some_2 shards i) as [shi Hshi].
  { rewrite <- Hlb. by eapply lookup_lt_Some. }
  assert (Hci : count shi ≠ 0).
  { destruct (Hall i shi bsi Hshi Hbsi) as [_ _ Hcnt _ _]. rewrite Hcnt.
    destruct (concat bsi); [by apply elem_of_nil in Ha|]. simpl. lia. }
  destruct (list_find_elem_of (λ sh, count sh ≠ 0) shards shi) as [[k sh] Hfind].
  { by eapply list_elem_of_lookup_2. }
  { exact Hci. }
  apply list_find_Some in Hfind as (Hsh & Hc & Hbefore).
  destruct (lookup_lt_is_Some_2 bss k) as [bs Hbs].
  { rewrite Hlb. by eapply lookup_lt_Some. }
  exists k, sh, bs. split; [done|]. split; [done|]. split; [done|].
  intros j shj Hj Hshj. destruct (decide (count shj = 0)) as [|Hnz]; [done|].
  by destruct (Hbefore j shj Hshj Hj).
Qed.

(** Shutdown in strict mode, at the first shard that still counts entries:
    the state in which [abort] is called. *)
Lemma shutdown_stops w bss shards (k : nat) sh bs :
  table_rep w bss → g_shards w = Some shards →
  shards !! k = Some sh → bss !! k = Some bs →
  count sh ≠ 0 →
  (∀ (j : nat) shj, (j < k)%nat → shards !! j = Some shj → count shj = 0) →
  ∃ w',
    grpc_slice_intern_shutdown grpc_dump_slice GPR_DUMP_HEX GPR_DUMP_ASCII true w
      = Abort w' ∧
    heap w' = heap w ∧ g_shards w' = Some shards ∧
    log w' = log w ++ LogWarning (count sh) :: (leak_line (heap w) <$> concat bs) ∧
    (∀ t, tabs w' !! t =
          if bool_decide (t ∈ (strs ∘ fst) <$> take k (zip shards bss))
          then None else tabs w !! t).
Proof.
  intros Hrep Hs Hsh Hbs Hne Hbefore.
  assert (Hzk : zip shards bss !! k = Some (sh, bs)) by (by apply lookup_zip_Some).
  assert (Hzero : Forall (λ p, count p.1 = 0) (take k (zip shards bss))).
  { apply Forall_lookup. intros j [shj bsj] Hj.
    apply lookup_take_Some in Hj as [Hj Hjk].
    apply lookup_zip_Some in Hj as [Hj _]. by apply (Hbefore j). }
  destruct (shutdown_model_stops (take k (zip shards bss)) sh bs
              (drop (S k) (zip shards bss)) w Hzero Hne)
    as (w' & Hrun & Hh & Hs' & Hlog & Htabs).
  rewrite (take_drop_middle _ _ _ Hzk) in Hrun.
  unfold shard_log in Hlog.
  assert (Hz : (count sh =? 0) = false) by lia. rewrite Hz in Hlog.
  exists w'. rewrite (shutdown_run true w bss shards Hrep Hs), Hrun.
  split; [done|]. split; [done|]. split; [congruence|].
  split; [done|exact Htabs].
Qed.

End Shutdown.

(** * Interning *)

Lemma slice_eq_bytes e buf :
  e_length e = Z.of_nat (length (e_bytes e)) →
  slice_eq e buf = true ↔ e_bytes e = buf.
Proof.
  intros Hl. unfold slice_eq. rewrite andb_true_iff, bool_decide_eq_true, Hl.
  split.
  - intros [Hlen Ht]. apply Z.eqb_eq, Nat2Z.inj in Hlen.
    by rewrite <- Hlen, firstn_all in Ht.
  - intros <-. split; [apply Z.eqb_refl|apply firstn_all].
Qed.

Lemma find_is_Some {A} (f : A → bool) (l : list A) x :
  x ∈ l → f x = true → is_Some (find f l).
Proof.
  intros Hx Hf. destruct (find f l) eqn:Hfind; [eauto|].
  apply list_elem_of_In in Hx. by rewrite (find_none _ _ Hfind _ Hx) in Hf.
Qed.

Lemma entries_insert {A} (lss : list (list (list A))) (i : nat) ls ls' :
  lss !! i = Some ls →
  concat (concat lss) =
    concat (concat (take i lss)) ++ concat ls ++ concat (concat (drop (S i) lss)) ∧
  concat (concat (<[i := ls']> lss)) =
    concat (concat (take i lss)) ++ concat ls' ++ concat (concat (drop (S i) lss)).
Proof.
  intros Hl. rewrite (concat_insert _ _ _ _ Hl), (concat_split _ _ _ Hl).
  by rewrite !concat_app.
Qed.

Lemma entries_insert_cons {A} (lss : list (list (list A))) (i : nat) ls ls' (x : A) :
  lss !! i = Some ls → concat ls' ≡ₚ x :: concat ls →
  concat (concat (<[i := ls']> lss)) ≡ₚ x :: concat (concat lss).
Proof.
  intros Hl Hp. destruct (entries_insert lss i ls ls' Hl) as [-> ->].
  rewrite Hp. simpl. symmetry. apply Permutation_middle.
Qed.

Lemma entries_insert_perm {A} (lss : list (list (list A))) (i : nat) ls ls' :
  lss !! i = Some ls → concat ls' ≡ₚ concat ls →
  concat (concat (<[i := ls']> lss)) ≡ₚ concat (concat lss).
Proof.
  intros Hl Hp. destruct (entries_insert lss i ls ls' Hl) as [-> ->].
  by rewrite Hp.
Qed.

Section Interning.

Variable gpr_murmur_hash3 : list byte → Z → Z.

(** The hash of [buf] under the seed of [w]. *)
Definition hash_of (w : world) (buf : list byte) : Z :=
  uint32 (gpr_murmur_hash3 buf (g_hash_seed w)).

(** Every entry of the table carries the hash of its bytes. *)
Definition hash_ok (w : world) (bss : list (list (list loc))) : Prop :=
  ∀ a e, a ∈ concat (concat bss) → heap w !! a = Some e →
    e_hash e = hash_of w (e_bytes e).

(** No two referenced entries of the table have the same bytes. *)
Definition unique_live (w : world) (bss : list (list (list loc))) : Prop :=
  ∀ a b ea eb, a ∈ concat (concat bss) → b ∈ concat (concat bss) →
    heap w !! a = Some ea → heap w !! b = Some eb →
    e_refcnt ea ≠ 0 → e_refcnt eb ≠ 0 → e_bytes ea = e_bytes eb → a = b.

Definition intern_inv (w : world) (bss : list (list (list loc))) : Prop :=
  table_rep w bss ∧ hash_ok w bss ∧ unique_live w bss.

(** The lookup half of [FindOrCreateInternedSlice]: hash, pick the shard and
    the bucket, scan. *)
Definition lookup_slice (buf : list byte) (w : world) : outcome (ptr * world) :=
  let hash := hash_of w buf in
  shard ← read_shard w (Z.to_nat (SHARD_IDX hash));
  MatchInternedSliceLocked hash (TABLE_IDX hash (capacity shard)) buf w.

(** [buf] is findable, and the entry found is [a]. *)
Definition findable (w : world) (buf : list byte) (a : loc) : Prop :=
  ∃ w1, lookup_slice buf w = Ok (Some a, w1).

(** [a] is an entry of the table with bytes [buf] that is referenced. *)
Definition live_entry (w : world) (bss : list (list (list loc)))
    (buf : list byte) (a : loc) : Prop :=
  a ∈ concat (concat bss) ∧
  ∃ e, heap w !! a = Some e ∧ e_bytes e = buf ∧ e_refcnt e ≠ 0.

Lemma SHARD_IDX_lt hash : (Z.to_nat (SHARD_IDX hash) < Z.to_nat SHARD_COUNT)%nat.
Proof. pose proof (SHARD_IDX_range hash). lia. Qed.

(** The bucket that the hash of [buf] selects. *)
Lemma selected_bucket w bss buf :
  table_rep w bss →
  ∃ shards sh bs b,
    g_shards w = Some shards ∧
    shards !! Z.to_nat (SHARD_IDX (hash_of w buf)) = Some sh ∧
    bss !! Z.to_nat (SHARD_IDX (hash_of w buf)) = Some bs ∧
    bs !! Z.to_nat (TABLE_IDX (hash_of w buf) (capacity sh)) = Some b ∧
    shard_rep (heap w) (tabs w) (Z.to_nat (SHARD_IDX (hash_of w buf))) sh bs.
Proof.
  intros Hrep. pose proof Hrep as (shards & Hs & _).
  destruct (table_rep_lookup w bss shards _ Hrep Hs (SHARD_IDX_lt (hash_of w buf)))
    as (sh & bs & Hsh & Hbs & Hsr).
  pose proof (shard_rep_buckets _ _ _ _ _ Hsr) as Hlb.
  pose proof (TABLE_IDX_range (hash_of w buf) (capacity sh) (proj1 (rep_cap _ _ _ _ _ Hsr))).
  destruct (lookup_lt_is_Some_2 bs (Z.to_nat (TABLE_IDX (hash_of w buf) (capacity sh))))
    as [b Hb]; [lia|].
  exists shards, sh, bs, b. done.
Qed.

(** In the selected bucket, the scan accepts exactly the referenced entries
    with the bytes looked for. *)
Lemma live_match_iff w bss buf shards sh bs b a :
  intern_inv w bss →
  g_shards w = Some shards →
  shards !! Z.to_nat (SHARD_IDX (hash_of w buf)) = Some sh →
  bss !! Z.to_nat (SHARD_IDX (hash_of w buf)) = Some bs →
  bs !! Z.to_nat (TABLE_IDX (hash_of w buf) (capacity sh)) = Some b →
  (a ∈ b ∧ live_match (heap w) (hash_of w buf) buf a = true) ↔
  live_entry w bss buf a.
Proof.
  intros (Hrep & Hhash & Huniq) Hs Hsh Hbs Hb.
  pose proof Hrep as (shards' & Hs' & Hlen & Hdist & Hlb & Hall).
  rewrite Hs in Hs'; injection Hs' as <-.
  pose proof (Hall _ sh bs Hsh Hbs) as [Hcap _ _ Hpl _].
  split.
  - intros [Ha Hm].
    assert (Hin : a ∈ concat (concat bss)).
    { apply elem_of_concat_concat. eexists _, bs. split; [done|].
      apply elem_of_concat. eauto. }
    split; [done|]. unfold live_match in Hm.
    destruct (Hpl _ b a Hb Ha) as (e & He & (_ & Hl & _) & _).
    rewrite He in Hm. exists e. split; [done|]. unfold entry_matches in Hm.
    apply andb_true_iff in Hm as [Hm Hr]. apply andb_true_iff in Hm as [Hh Hsl].
    split; [by apply slice_eq_bytes|]. apply negb_true_iff in Hr. lia.
  - intros [Hin (e & He & Hbuf & Hr)].
    pose proof (Hhash a e Hin He) as Hh. rewrite Hbuf in Hh.
    apply elem_of_concat_concat in Hin as (k & bsk & Hbsk & Ha).
    apply elem_of_concat in Ha as (i & bi & Hbi & Ha).
    destruct (lookup_lt_is_Some_2 shards k) as [shk Hshk].
    { rewrite <- Hlb. by eapply lookup_lt_Some. }
    destruct (Hall k shk bsk Hshk Hbsk) as [_ _ _ Hplk _].
    destruct (Hplk i bi a Hbi Ha) as (e' & He' & (Hsi & Hl & _) & Hidx).
    rewrite He in He'; injection He' as <-.
    rewrite Hh in Hsi, Hidx. subst k.
    rewrite Hshk in Hsh; injection Hsh as ->.
    rewrite Hbsk in Hbs; injection Hbs as ->.
    rewrite Hidx, Nat2Z.id in Hb. rewrite Hbi in Hb; injection Hb as ->.
    split; [done|]. unfold live_match, entry_matches. rewrite He, Hh, Z.eqb_refl.
    rewrite (proj2 (slice_eq_bytes e buf Hl) Hbuf). simpl.
    apply negb_true_iff. lia.
Qed.

Lemma find_live_unique w bss buf shards sh bs b a :
  intern_inv w bss →
  g_shards w = Some shards →
  shards !! Z.to_nat (SHARD_IDX (hash_of w buf)) = Some sh →
  bss !! Z.to_nat (SHARD_IDX (hash_of w buf)) = Some bs →
  bs !! Z.to_nat (TABLE_IDX (hash_of w buf) (capacity sh)) = Some b →
  live_entry w bss buf a →
  find (live_match (heap w) (hash_of w buf) buf) b = Some a.
Proof.
  intros Hinv Hs Hsh Hbs Hb Hlive.
  pose proof (proj2 (live_match_iff w bss buf shards sh bs b a Hinv Hs Hsh Hbs Hb) Hlive)
    as [Ha Hm].
  destruct (find_is_Some _ _ _ Ha Hm) as [a' Hf]. rewrite Hf. f_equal.
  pose proof Hf as [Ha' Hm']%find_some. apply list_elem_of_In in Ha'.
  pose proof (proj1 (live_match_iff w bss buf shards sh bs b a' Hinv Hs Hsh Hbs Hb)
                (conj Ha' Hm')) as [Hin' (e' & He' & Hb' & Hr')].
  destruct Hlive as [Hin (e & He & Hbe & Hr)].
  destruct Hinv as (_ & _ & Huniq).
  apply (Huniq a' a e' e); congruence.
Qed.

Lemma find_live_none w bss buf shards sh bs b :
  intern_inv w bss →
  g_shards w = Some shards →
  shards !! Z.to_nat (SHARD_IDX (hash_of w buf)) = Some sh →
  bss !! Z.to_nat (SHARD_IDX (hash_of w buf)) = Some bs →
  bs !! Z.to_nat (TABLE_IDX (hash_of w buf) (capacity sh)) = Some b →
  (∀ a, ¬ live_entry w bss buf a) →
  find (live_match (heap w) (hash_of w buf) buf) b = None.
Proof.
  intros Hinv Hs Hsh Hbs Hb Hno.
  destruct (find _ b) as [a|] eqn:Hf; [|done]. exfalso.
  pose proof Hf as [Ha Hm]%find_some. apply list_elem_of_In in Ha.
  apply (Hno a).
  by apply (live_match_iff w bss buf shards sh bs b a Hinv Hs Hsh Hbs Hb).
Qed.

(** The invariant is kept when the reference count of a live entry goes
    up. *)
Lemma intern_inv_bump w bss a e :
  intern_inv w bss → a ∈ concat (concat bss) →
  heap w !! a = Some e → e_refcnt e ≠ 0 →
  intern_inv (set_heap (<[a := set_refcnt (e_refcnt e + 1) e]> (heap w)) w) bss.
Proof.
  intros (Hrep & Hhash & Huniq) Hin He Hr.
  assert (Hr0 : 0 ≤ e_refcnt e).
  { apply elem_of_concat_concat in Hin as (k & bsk & Hbsk & Ha).
    destruct Hrep as (shards & Hs & Hlen & _ & Hlb & Hall).
    destruct (lookup_lt_is_Some_2 shards k) as [shk Hshk].
    { rewrite <- Hlb. by eapply lookup_lt_Some. }
    destruct (Hall k shk bsk Hshk Hbsk) as [_ _ _ Hpl _].
    destruct (placed_elem _ _ _ _ _ Hpl Ha) as (e' & He' & _ & _ & H0).
    congruence. }
  split; [|split].
  - eapply table_rep_update; eauto. simpl. lia.
  - intros x ex Hx Hex. cbn [heap set_heap] in Hex. unfold hash_of. cbn [g_hash_seed set_heap].
    destruct (decide (x = a)) as [->|Hne].
    + rewrite lookup_insert_eq in Hex. injection Hex as <-. simpl.
      by apply (Hhash a e).
    + rewrite lookup_insert_ne in Hex by done. by apply (Hhash x ex).
  - intros x y ex ey Hx Hy Hex Hey Hrx Hry Hb. cbn [heap set_heap] in Hex, Hey.
    assert (Hold : ∀ z ez, <[a := set_refcnt (e_refcnt e + 1) e]> (heap w) !! z = Some ez →
              ∃ ez', heap w !! z = Some ez' ∧ e_bytes ez' = e_bytes ez ∧
                     (e_refcnt ez ≠ 0 → e_refcnt ez' ≠ 0)).
    { intros z ez Hz. destruct (decide (z = a)) as [->|Hne].
      - rewrite lookup_insert_eq in Hz. injection Hz as <-. exists e. done.
      - rewrite lookup_insert_ne in Hz by done. exists ez. done. }
    destruct (Hold x ex Hex) as (ex' & Hex' & Hbx & Hrx').
    destruct (Hold y ey Hey) as (ey' & Hey' & Hby & Hry').
    apply (Huniq x y ex' ey'); auto. congruence.
Qed.

(** Interning bytes that a referenced entry already holds returns that
    entry, one reference richer; nothing is allocated. *)
Lemma intern_found w bss buf a e :
  intern_inv w bss → a ∈ concat (concat bss) →
  heap w !! a = Some e → e_bytes e = buf → e_refcnt e ≠ 0 →
  ManagedMemorySlice gpr_murmur_hash3 buf w =
    Ok (a, set_heap (<[a := set_refcnt (e_refcnt e + 1) e]> (heap w)) w).
Proof.
  intros Hinv Hin He Hb Hr.
  destruct (selected_bucket w bss buf (proj1 Hinv))
    as (shards & sh & bs & b & Hs & Hsh & Hbs & Hbk & Hsr).
  unfold ManagedMemorySlice. fold (hash_of w buf).
  rewrite (FindOrCreate_found w bss shards _ sh bs _ b buf a (proj1 Hinv) Hs Hsh Hbs eq_refl Hbk).
  - unfold bump. by rewrite He.
  - eapply find_live_unique; eauto. split; [done|]. eauto.
Qed.

Lemma erase_lookup (h h' : gmap loc InternedSliceRefcount) x e' :
  erase <$> h' !! x = erase <$> h !! x → h' !! x = Some e' →
  ∃ e, h !! x = Some e ∧ erase e' = erase e.
Proof.
  intros Heq Hx. rewrite Hx in Heq. destruct (h !! x) as [e|]; [|done].
  exists e. split; [done|]. simpl in Heq. congruence.
Qed.

(** Interning bytes that no referenced entry holds creates an entry. *)
Lemma intern_created w bss buf :
  intern_inv w bss → (∀ a, ¬ live_entry w bss buf a) → headroom 1 w →
  let hash := hash_of w buf in
  let si := Z.to_nat (SHARD_IDX hash) in
  let s := fresh (dom (heap w)) in
  ∃ shards sh bs w' bs' sh' e',
    g_shards w = Some shards ∧ shards !! si = Some sh ∧ bss !! si = Some bs ∧
    ManagedMemorySlice gpr_murmur_hash3 buf w = Ok (s, w') ∧
    intern_inv w' (<[si := bs']> bss) ∧
    concat bs' ≡ₚ s :: concat bs ∧
    g_shards w' = Some (<[si := sh']> shards) ∧
    count sh' = count sh + 1 ∧
    (if capacity sh * 2 <? count sh + 1
     then capacity sh' = capacity sh * 2 ∧ strs sh' = fresh (dom (tabs w))
     else capacity sh' = capacity sh ∧ strs sh' = strs sh ∧
          ∃ b, bs !! Z.to_nat (TABLE_IDX hash (capacity sh)) = Some b ∧
               bs' = <[Z.to_nat (TABLE_IDX hash (capacity sh)) := s :: b]> bs) ∧
    heap w !! s = None ∧
    heap w' !! s = Some e' ∧
    erase e' = mkRefcount (Z.of_nat (length buf)) 1 hash None buf ∧
    (∀ a, a ≠ s → erase <$> heap w' !! a = erase <$> heap w !! a) ∧
    (∀ a, a ∉ s :: concat bs → heap w' !! a = heap w !! a) ∧
    g_hash_seed w' = g_hash_seed w ∧
    g_forced_hash_seed w' = g_forced_hash_seed w ∧
    log w' = log w.
Proof.
  intros Hinv Hno Hroom hash si s. unfold s. clear s.
  destruct (selected_bucket w bss buf (proj1 Hinv))
    as (shards & sh & bs & b & Hs & Hsh & Hbs & Hbk & Hsr).
  fold hash si in Hsh, Hbs, Hbk, Hsr.
  destruct (Hroom shards sh Hs) as [Hcap2 Hcnt1].
  { apply list_elem_of_lookup. by exists si. }
  change (2 ^ Z.of_nat 1) with 2 in Hcap2. change (Z.of_nat 1) with 1 in Hcnt1.
  destruct (InternNew_spec w bss shards si sh bs hash buf (proj1 Hinv) Hs Hsh Hbs
              eq_refl Hcap2 Hcnt1)
    as (w' & bs' & sh' & e' & Hrun & Hrep' & Hperm & Hs' & Hcnt' & Hgrow & Hfresh
        & He' & Her & Herase & Hframe & Hseed & Hflag & Hlog).
  set (s := fresh (dom (heap w))) in *.
  exists shards, sh, bs, w', bs', sh', e'.
  split; [done|]. split; [done|]. split; [done|]. split.
  { unfold ManagedMemorySlice. fold (hash_of w buf). fold hash.
    rewrite (FindOrCreate_created w bss shards si sh bs hash b buf
               (proj1 Hinv) Hs Hsh Hbs eq_refl Hbk); [exact Hrun|].
    eapply find_live_none; eauto. }
  split; [|done].
  destruct Hinv as (Hrep & Hhash & Huniq).
  pose proof (entries_insert_cons bss si bs bs' s Hbs Hperm) as Hent.
  assert (Hold : ∀ x ex, x ≠ s → heap w' !! x = Some ex →
            ∃ ex0, heap w !! x = Some ex0 ∧ erase ex = erase ex0).
  { intros x ex Hx Hex. exact (erase_lookup _ _ _ _ (Herase x Hx) Hex). }
  assert (Hnew : e_hash e' = hash ∧ e_bytes e' = buf ∧ e_refcnt e' = 1).
  { apply (f_equal e_hash) in Her as Hh. apply (f_equal e_bytes) in Her as Hb.
    apply (f_equal e_refcnt) in Her as Hr. done. }
  assert (Hs_old : s ∉ concat (concat bss)).
  { intros Hin. destruct (table_rep_not_fresh w bss s Hrep Hin) as [? Hx]. congruence. }
  split; [done|]. split.
  - intros x ex Hx Hex. unfold hash_of. rewrite Hseed.
    rewrite Hent in Hx. destruct (decide (x = s)) as [->|Hne].
    + rewrite He' in Hex. injection Hex as <-.
      destruct Hnew as (-> & -> & _). done.
    + apply elem_of_cons in Hx as [?|Hx]; [done|].
      destruct (Hold x ex Hne Hex) as (ex0 & Hex0 & Heq).
      apply erase_fields in Heq as (_ & _ & -> & ->). by apply (Hhash x ex0).
  - intros x y ex ey Hx Hy Hex Hey Hrx Hry Hb.
    rewrite Hent in Hx, Hy.
    assert (Hclash : ∀ z ez, z ≠ s → z ∈ s :: concat (concat bss) →
              heap w' !! z = Some ez → e_refcnt ez ≠ 0 → e_bytes ez = buf → False).
    { intros z ez Hz Hin Hez Hrz Hbz.
      apply elem_of_cons in Hin as [?|Hin]; [done|].
      destruct (Hold z ez Hz Hez) as (ez0 & Hez0 & Heq).
      apply erase_fields in Heq as (_ & Hr & _ & Hbb).
      apply (Hno z). split; [done|]. exists ez0. split; [done|]. split; congruence. }
    destruct (decide (x = s)) as [->|Hxs], (decide (y = s)) as [->|Hys]; [done| | |].
    + rewrite He' in Hex. injection Hex as <-. exfalso.
      apply (Hclash y ey Hys Hy Hey Hry). destruct Hnew as (_ & Hbn & _). congruence.
    + rewrite He' in Hey. injection Hey as <-. exfalso.
      apply (Hclash x ex Hxs Hx Hex Hrx). destruct Hnew as (_ & Hbn & _). congruence.
    + apply elem_of_cons in Hx as [?|Hx]; [done|].
      apply elem_of_cons in Hy as [?|Hy]; [done|].
      destruct (Hold x ex Hxs Hex) as (ex0 & Hex0 & Heqx).
      destruct (Hold y ey Hys Hey) as (ey0 & Hey0 & Heqy).
      apply erase_fields in Heqx as (_ & Hr1 & _ & Hb1).
      apply erase_fields in Heqy as (_ & Hr2 & _ & Hb2).
      apply (Huniq x y ex0 ey0); congruence.
Qed.

Lemma lookup_slice_spec w bss buf shards sh bs b :
  table_rep w bss →
  g_shards w = Some shards →
  shards !! Z.to_nat (SHARD_IDX (hash_of w buf)) = Some sh →
  bss !! Z.to_nat (SHARD_IDX (hash_of w buf)) = Some bs →
  bs !! Z.to_nat (TABLE_IDX (hash_of w buf) (capacity sh)) = Some b →
  lookup_slice buf w =
    Ok (match find (live_match (heap w) (hash_of w buf) buf) b with
        | Some a => (Some a, set_heap (bump a (heap w)) w)
        | None => (None, w)
        end).
Proof.
  intros Hrep Hs Hsh Hbs Hb. unfold lookup_slice.
  rewrite (read_shard_eq _ _ _ _ Hs Hsh). run_step.
  by rewrite (Match_spec _ _ _ _ _ _ _ _ _ _ Hrep Hs Hsh Hbs eq_refl Hb).
Qed.

(** What can be found by content is what is referenced in the table. *)
Lemma findable_iff w bss buf a :
  intern_inv w bss → findable w buf a ↔ live_entry w bss buf a.
Proof.
  intros Hinv.
  destruct (selected_bucket w bss buf (proj1 Hinv))
    as (shards & sh & bs & b & Hs & Hsh & Hbs & Hbk & Hsr).
  unfold findable.
  rewrite (lookup_slice_spec w bss buf shards sh bs b (proj1 Hinv) Hs Hsh Hbs Hbk).
  split.
  - intros [w1 Hrun].
    destruct (find _ b) as [a'|] eqn:Hf; [|done]. injection Hrun as -> _.
    pose proof Hf as [Ha Hm]%find_some. apply list_elem_of_In in Ha.
    by apply (live_match_iff w bss buf shards sh bs b a Hinv Hs Hsh Hbs Hbk).
  - intros Hlive.
    rewrite (find_live_unique w bss buf shards sh bs b a Hinv Hs Hsh Hbs Hbk Hlive).
    eauto.
Qed.

(** The lookup finds nothing exactly when no referenced entry has the
    bytes. *)
Lemma lookup_none_iff w bss buf :
  intern_inv w bss →
  lookup_slice buf w = Ok (None, w) ↔ ∀ a, ¬ live_entry w bss buf a.
Proof.
  intros Hinv.
  destruct (selected_bucket w bss buf (proj1 Hinv))
    as (shards & sh & bs & b & Hs & Hsh & Hbs & Hbk & Hsr).
  rewrite (lookup_slice_spec w bss buf shards sh bs b (proj1 Hinv) Hs Hsh Hbs Hbk).
  split.
  - intros Hrun a Hlive.
    by rewrite (find_live_unique w bss buf shards sh bs b a Hinv Hs Hsh Hbs Hbk Hlive)
      in Hrun.
  - intros Hno.
    by rewrite (find_live_none w bss buf shards sh bs b Hinv Hs Hsh Hbs Hbk Hno).
Qed.

End Interning.

(** * The buckets of a world *)

Lemma Forall2_chain_functional h (arr : list ptr) (bs bs' : list (list loc)) :
  Forall2 (chain h) arr bs → Forall2 (chain h) arr bs' → bs = bs'.
Proof.
  intros H1; revert bs'. induction H1 as [|p b arr bs Hc _ IH]; intros bs' H2.
  - by inversion H2.
  - inversion H2 as [|? b' ? bs'' Hc' H2']; subst. f_equal.
    + by eapply chain_functional.
    + by apply IH.
Qed.

Lemma table_rep_functional w bss bss' :
  table_rep w bss → table_rep w bss' → bss = bss'.
Proof.
  intros (shards & Hs & Hlen & _ & Hlb & Hall) (shards' & Hs' & _ & _ & Hlb' & Hall').
  rewrite Hs in Hs'; injection Hs' as <-.
  apply list_eq_same_length with (length shards); [done..|].
  intros i bs bs' Hi Hbs Hbs'.
  destruct (lookup_lt_is_Some_2 shards i) as [sh Hsh]; [done|].
  destruct (Hall i sh bs Hsh Hbs) as [_ (arr & Harr & _ & HF) _ _ _].
  destruct (Hall' i sh bs' Hsh Hbs') as [_ (arr' & Harr' & _ & HF') _ _ _].
  rewrite Harr in Harr'; injection Harr' as <-.
  by eapply Forall2_chain_functional.
Qed.

(** [a] is an entry of the table: it is on the chain of some bucket. *)
Definition in_table (w : world) (a : loc) : Prop :=
  ∃ bss, table_rep w bss ∧ a ∈ concat (concat bss).

(** The number of entries of the table. *)
Definition table_size (w : world) (n : nat) : Prop :=
  ∃ bss, table_rep w bss ∧ n = length (concat (concat bss)).

Lemma in_table_rep w bss a :
  table_rep w bss → in_table w a ↔ a ∈ concat (concat bss).
Proof.
  intros Hrep. split.
  - intros (bss' & Hrep' & Ha). by rewrite (table_rep_functional _ _ _ Hrep Hrep').
  - intros Ha. by exists bss.
Qed.

(** [a] is on the chain of the bucket that [hash] selects. *)
Definition linked (w : world) (hash : Z) (a : loc) : Prop :=
  ∃ shards sh arr p l,
    g_shards w = Some shards ∧
    shards !! Z.to_nat (SHARD_IDX hash) = Some sh ∧
    tabs w !! strs sh = Some arr ∧
    arr !! Z.to_nat (TABLE_IDX hash (capacity sh)) = Some p ∧
    chain (heap w) p l ∧ a ∈ l.

Lemma in_table_linked w bss a e :
  table_rep w bss → a ∈ concat (concat bss) → heap w !! a = Some e →
  linked w (e_hash e) a.
Proof.
  intros (shards & Hs & Hlen & _ & Hlb & Hall) Hin He.
  apply elem_of_concat_concat in Hin as (k & bsk & Hbsk & Ha).
  apply elem_of_concat in Ha as (i & bi & Hbi & Ha).
  destruct (lookup_lt_is_Some_2 shards k) as [shk Hshk].
  { rewrite <- Hlb. by eapply lookup_lt_Some. }
  destruct (Hall k shk bsk Hshk Hbsk) as [_ (arr & Harr & _ & HF) _ Hpl _].
  destruct (Hpl i bi a Hbi Ha) as (e' & He' & (Hsi & _) & Hidx).
  rewrite He in He'; injection He' as <-.
  destruct (Forall2_lookup_r _ _ _ _ _ HF Hbi) as (p & Hp & Hc).
  exists shards, shk, arr, p, bi. rewrite Hsi, Hidx, Nat2Z.id. done.
Qed.

(** * The destructor on a table *)

(** The destructor of an entry of the table unlinks it. *)
Lemma dtor_in_table w bss this :
  table_rep w bss → this ∈ concat (concat bss) →
  ∃ t shards sh bs l1 l2 w',
    let si := Z.to_nat (SHARD_IDX (e_hash t)) in
    let i := Z.to_nat (TABLE_IDX (e_hash t) (capacity sh)) in
    heap w !! this = Some t ∧
    g_shards w = Some shards ∧ shards !! si = Some sh ∧ bss !! si = Some bs ∧
    bs !! i = Some (l1 ++ this :: l2) ∧
    InternedSliceRefcount_dtor this w = Ok w' ∧
    table_rep w' (<[si := <[i := l1 ++ l2]> bs]> bss) ∧
    g_shards w' =
      Some (<[si := mkShard (strs sh) (count sh - 1) (capacity sh)]> shards) ∧
    relinked (heap w) (heap w') ∧
    g_hash_seed w' = g_hash_seed w ∧
    g_forced_hash_seed w' = g_forced_hash_seed w ∧
    log w' = log w.
Proof.
  intros Hrep Hin.
  pose proof Hrep as (shards & Hs & Hlen & _ & Hlb & Hall).
  apply elem_of_concat_concat in Hin as (k & bsk & Hbsk & Ha).
  apply elem_of_concat in Ha as (i & bi & Hbi & Ha).
  destruct (lookup_lt_is_Some_2 shards k) as [shk Hshk].
  { rewrite <- Hlb. by eapply lookup_lt_Some. }
  destruct (Hall k shk bsk Hshk Hbsk) as [_ _ _ Hpl _].
  destruct (Hpl i bi this Hbi Ha) as (t & Ht & (Hsi & _) & Hidx).
  apply list_elem_of_split in Ha as (l1 & l2 & ->).
  assert (Hbi' : bsk !! Z.to_nat (TABLE_IDX (e_hash t) (capacity shk))
                 = Some (l1 ++ this :: l2)) by (by rewrite Hidx, Nat2Z.id).
  rewrite <- Hsi in Hshk, Hbsk.
  destruct (dtor_spec w bss shards this t _ shk bsk l1 l2 Hrep Hs Ht eq_refl Hshk Hbsk Hbi')
    as (w' & Hrun & Hrep' & Hs' & Hr & _ & Hseed & Hflag & Hlog).
  exists t, shards, shk, bsk, l1, l2, w'. done.
Qed.

(** The destructor returns only for an entry of the table. *)
Lemma dtor_returns w bss this w' :
  table_rep w bss → InternedSliceRefcount_dtor this w = Ok w' →
  this ∈ concat (concat bss).
Proof.
  intros Hrep Hrun.
  destruct (heap w !! this) as [t|] eqn:Ht.
  2:{ unfold InternedSliceRefcount_dtor in Hrun. by rewrite Ht in Hrun. }
  pose proof Hrep as (shards & Hs & _).
  destruct (table_rep_lookup w bss shards _ Hrep Hs (SHARD_IDX_lt (e_hash t)))
    as (sh & bs & Hsh & Hbs & Hsr).
  pose proof (shard_rep_buckets _ _ _ _ _ Hsr) as Hlb.
  pose proof (TABLE_IDX_range (e_hash t) (capacity sh) (proj1 (rep_cap _ _ _ _ _ Hsr))).
  destruct (lookup_lt_is_Some_2 bs (Z.to_nat (TABLE_IDX (e_hash t) (capacity sh))))
    as [b Hb]; [lia|].
  destruct (decide (this ∈ b)) as [Hin|Hni].
  - apply elem_of_concat_concat. eexists _, bs. split; [done|].
    apply elem_of_concat. eauto.
  - by rewrite (dtor_missing w bss shards this t _ sh bs b Hrep Hs Ht eq_refl Hsh Hbs Hb Hni)
      in Hrun.
Qed.

(** * Room in the counters *)

Lemma headroom_le k k' w : (k ≤ k')%nat → headroom k' w → headroom k w.
Proof.
  intros Hk Hr shards sh Hs Hin. destruct (Hr shards sh Hs Hin) as [H1 H2].
  split; [|lia].
  assert (2 ^ Z.of_nat k ≤ 2 ^ Z.of_nat k') by (apply Z.pow_le_mono_r; lia).
  assert (0 ≤ capacity sh ∨ capacity sh < 0) as [?|?] by lia; nia.
Qed.

Lemma headroom_same_shards k w w' :
  g_shards w' = g_shards w → headroom k w → headroom k w'.
Proof. intros Hs Hr shards sh Hs'. apply Hr. congruence. Qed.

(** One creation uses up one unit of room. *)
Lemma headroom_step k w w' shards (si : nat) sh sh' :
  headroom (S k) w → g_shards w = Some shards → shards !! si = Some sh →
  g_shards w' = Some (<[si := sh']> shards) →
  0 < capacity sh →
  count sh' = count sh + 1 →
  capacity sh' = capacity sh ∨ capacity sh' = capacity sh * 2 →
  headroom k w'.
Proof.
  intros Hr Hs Hsh Hs' Hpos Hcnt Hcap shards' shx Hsx Hin.
  rewrite Hs' in Hsx; injection Hsx as <-.
  apply list_elem_of_lookup in Hin as (j & Hj).
  destruct (decide (j = si)) as [->|Hne].
  - rewrite list_lookup_insert_eq in Hj by (by eapply lookup_lt_Some).
    injection Hj as <-. destruct (Hr shards sh Hs) as [H1 H2].
    { apply list_elem_of_lookup. eauto. }
    rewrite Nat2Z.inj_succ, Z.pow_succ_r in H1 by lia.
    assert (0 < 2 ^ Z.of_nat k) by (apply Z.pow_pos_nonneg; lia).
    split; [|lia]. destruct Hcap as [->| ->]; nia.
  - rewrite list_lookup_insert_ne in Hj by done.
    destruct (Hr shards shx Hs) as [H1 H2].
    { apply list_elem_of_lookup. eauto. }
    rewrite Nat2Z.inj_succ, Z.pow_succ_r in H1 by lia.
    assert (0 < 2 ^ Z.of_nat k) by (apply Z.pow_pos_nonneg; lia).
    split; [|lia].
    assert (0 ≤ capacity shx ∨ capacity shx < 0) as [?|?] by lia; nia.
Qed.

(** * Find-or-create on a table *)

(** Whatever the hash, find-or-create either returns an entry of the
    selected shard with one more reference, or links a new entry there. *)
Lemma FindOrCreate_table w bss hash args :
  table_rep w bss → headroom 1 w →
  ∃ shards sh bs s w',
    let si := Z.to_nat (SHARD_IDX hash) in
    g_shards w = Some shards ∧ shards !! si = Some sh ∧ bss !! si = Some bs ∧
    FindOrCreateInternedSlice hash args w = Ok (s, w') ∧
    g_hash_seed w' = g_hash_seed w ∧
    g_forced_hash_seed w' = g_forced_hash_seed w ∧
    log w' = log w ∧
    ((s ∈ concat bs ∧ table_rep w' bss ∧ g_shards w' = g_shards w ∧
      tabs w' = tabs w ∧
      ∃ e, heap w !! s = Some e ∧ e_refcnt e ≠ 0 ∧
           heap w' = <[s := set_refcnt (e_refcnt e + 1) e]> (heap w)) ∨
     (heap w !! s = None ∧
      ∃ bs' sh',
        table_rep w' (<[si := bs']> bss) ∧ concat bs' ≡ₚ s :: concat bs ∧
        g_shards w' = Some (<[si := sh']> shards) ∧
        count sh' = count sh + 1 ∧
        (capacity sh' = capacity sh ∨ capacity sh' = capacity sh * 2) ∧
        (∀ a, a ≠ s → erase <$> heap w' !! a = erase <$> heap w !! a))).
Proof.
  intros Hrep Hroom. cbn zeta.
  pose proof Hrep as (shards & Hs & _).
  destruct (table_rep_lookup w bss shards _ Hrep Hs (SHARD_IDX_lt hash))
    as (sh & bs & Hsh & Hbs & Hsr).
  pose proof (shard_rep_buckets _ _ _ _ _ Hsr) as Hlb.
  pose proof (TABLE_IDX_range hash (capacity sh) (proj1 (rep_cap _ _ _ _ _ Hsr))).
  destruct (lookup_lt_is_Some_2 bs (Z.to_nat (TABLE_IDX hash (capacity sh))))
    as [b Hb]; [lia|].
  destruct (find (live_match (heap w) hash args) b) as [a|] eqn:Hf.
  - exists shards, sh, bs, a, (set_heap (bump a (heap w)) w).
    destruct (find_live_match _ _ _ _ _ Hf) as (Ha & e & He & _ & _ & Hr).
    split; [done|]. split; [done|]. split; [done|]. split.
    { by eapply FindOrCreate_found. }
    split; [done|]. split; [done|]. split; [done|]. left.
    split; [apply elem_of_concat; eauto|]. split; [by apply table_rep_bump|].
    split; [done|]. split; [done|]. exists e. unfold bump. by rewrite He.
  - destruct (Hroom shards sh Hs) as [Hcap2 Hcnt1].
    { apply list_elem_of_lookup. eauto. }
    change (2 ^ Z.of_nat 1) with 2 in Hcap2. change (Z.of_nat 1) with 1 in Hcnt1.
    destruct (InternNew_spec w bss shards _ sh bs hash args Hrep Hs Hsh Hbs
                eq_refl Hcap2 Hcnt1)
      as (w' & bs' & sh' & e' & Hrun & Hrep' & Hperm & Hs' & Hcnt' & Hgrow & Hfresh
          & He' & Her & Herase & Hframe & Hseed & Hflag & Hlog).
    exists shards, sh, bs, (fresh (dom (heap w))), w'.
    split; [done|]. split; [done|]. split; [done|]. split.
    { by rewrite (FindOrCreate_created w bss shards _ sh bs hash b args
                    Hrep Hs Hsh Hbs eq_refl Hb Hf). }
    split; [done|]. split; [done|]. split; [done|]. right.
    split; [done|]. exists bs', sh'. repeat (split; [done|]). split; [|done].
    destruct (capacity sh * 2 <? count sh + 1); [right|left]; tauto.
Qed.

Lemma dom_created (h h' : gmap loc InternedSliceRefcount) s e' :
  h' !! s = Some e' →
  (∀ a, a ≠ s → erase <$> h' !! a = erase <$> h !! a) →
  dom h' = {[s]} ∪ dom h.
Proof.
  intros Hs Hother. apply set_eq. intros a.
  rewrite elem_of_union, elem_of_singleton, !elem_of_dom.
  destruct (decide (a = s)) as [->|Hne]; [split; eauto|].
  specialize (Hother a Hne). split.
  - intros [x Hx]. right. rewrite Hx in Hother.
    destruct (h !! a); [eauto|done].
  - intros [?|[x Hx]]; [done|]. rewrite Hx in Hother.
    destruct (h' !! a); [eauto|done].
Qed.

(** The entries on the chains of shard [sh]. *)
Definition shard_entries (w : world) (sh : slice_shard) (l : list loc) : Prop :=
  ∃ arr bs,
    tabs w !! strs sh = Some arr ∧ length arr = Z.to_nat (capacity sh) ∧
    Forall2 (chain (heap w)) arr bs ∧ l = concat bs.

(** In every shard, [count] is the number of entries on its chains. *)
Definition count_inv (w : world) : Prop :=
  ∀ shards sh, g_shards w = Some shards → sh ∈ shards →
    ∃ l, shard_entries w sh l ∧ count sh = Z.of_nat (length l).

Lemma shard_entries_functional w sh l l' :
  shard_entries w sh l → shard_entries w sh l' → l = l'.
Proof.
  intros (arr & bs & Harr & _ & HF & ->) (arr' & bs' & Harr' & _ & HF' & ->).
  rewrite Harr in Harr'; injection Harr' as <-.
  by rewrite (Forall2_chain_functional _ _ _ _ HF HF').
Qed.

Lemma table_rep_shard_entries w bss shards (si : nat) sh bs :
  table_rep w bss → g_shards w = Some shards →
  shards !! si = Some sh → bss !! si = Some bs →
  shard_entries w sh (concat bs) ∧ count sh = Z.of_nat (length (concat bs)).
Proof.
  intros (shards' & Hs' & _ & _ & _ & Hall) Hs Hsh Hbs.
  rewrite Hs in Hs'; injection Hs' as <-.
  destruct (Hall si sh bs Hsh Hbs) as [_ (arr & Harr & Hla & HF) Hcnt _ _].
  split; [|done]. by exists arr, bs.
Qed.

Lemma table_ok_count_inv w : table_ok w → count_inv w.
Proof.
  intros [bss Hrep] shards sh Hs Hin.
  apply list_elem_of_lookup in Hin as (si & Hsh).
  pose proof Hrep as (shards' & Hs' & _ & _ & Hlb & _).
  rewrite Hs in Hs'; injection Hs' as <-.
  destruct (lookup_lt_is_Some_2 bss si) as [bs Hbs].
  { rewrite Hlb. by eapply lookup_lt_Some. }
  exists (concat bs). by eapply table_rep_shard_entries.
Qed.

(** * What the operations leave alone *)

(** The seed and the forced-seed flag of [w'] are those of [w]. *)
Definition same_seed (w w' : world) : Prop :=
  g_hash_seed w' = g_hash_seed w ∧
  g_forced_hash_seed w' = g_forced_hash_seed w.

Lemma same_seed_refl w : same_seed w w.
Proof. done. Qed.

Lemma same_seed_trans w1 w2 w3 :
  same_seed w1 w2 → same_seed w2 w3 → same_seed w1 w3.
Proof. intros [H1 H2] [H3 H4]. split; congruence. Qed.

Lemma bind_Ok_inv {A B} (m : outcome A) (f : A → outcome B) b :
  m ≫= f = Ok b → ∃ a, m = Ok a ∧ f a = Ok b.
Proof. destruct m; try done. simpl. eauto. Qed.

Ltac bind_inv H :=
  let x := fresh "x" in let Hx := fresh "Hx" in
  apply bind_Ok_inv in H as (x & Hx & H).


Lemma write_slot_seed p v w w' : write_slot p v w = Ok w' → same_seed w w'.
Proof.
  destruct p; unfold write_slot; intros H.
  - bind_inv H. bind_inv H. by injection H as <-.
  - bind_inv H. by injection H as <-.
Qed.

Lemma write_shard_seed i sh w w' : write_shard i sh w = Ok w' → same_seed w w'.
Proof. unfold write_shard. intros H. bind_inv H. bind_inv H. by injection H as <-. Qed.

Lemma gpr_free_tab_seed t w w' : gpr_free_tab t w = Ok w' → same_seed w w'.
Proof. unfold gpr_free_tab. intros H. bind_inv H. by injection H as <-. Qed.

Lemma grow_shard_seed si w w' : grow_shard si w = Ok w' → same_seed w w'.
Proof.
  unfold grow_shard, gpr_zalloc. intros H. bind_inv H. bind_inv H. bind_inv H.
  bind_inv H. destruct x2 as [h' new']. bind_inv H.
  apply gpr_free_tab_seed in Hx3. apply write_shard_seed in H.
  eapply same_seed_trans; [|exact H]. eapply same_seed_trans; [|exact Hx3]. done.
Qed.

Lemma InternNew_seed si idx hash args w s w' :
  InternNewStringLocked si idx hash args w = Ok (s, w') → same_seed w w'.
Proof.
  unfold InternNewStringLocked. intros H. bind_inv H. bind_inv H. bind_inv H.
  bind_inv H. apply write_slot_seed in Hx1. apply write_shard_seed in Hx2.
  assert (H03 : same_seed w x2).
  { eapply same_seed_trans; [|exact Hx2]. eapply same_seed_trans; [|exact Hx1]. done. }
  destruct (size_t _ <? _).
  - bind_inv H. injection H as _ <-. apply grow_shard_seed in Hx3.
    by eapply same_seed_trans.
  - by injection H as _ <-.
Qed.

Lemma Match_seed hash idx args w r w' :
  MatchInternedSliceLocked hash idx args w = Ok (r, w') → same_seed w w'.
Proof.
  unfold MatchInternedSliceLocked. intros H. bind_inv H. bind_inv H. bind_inv H.
  destruct x1. by injection H as _ <-.
Qed.

Lemma FindOrCreate_seed hash args w s w' :
  FindOrCreateInternedSlice hash args w = Ok (s, w') → same_seed w w'.
Proof.
  unfold FindOrCreateInternedSlice. intros H. bind_inv H. bind_inv H.
  destruct x0 as [[a|] w1]; apply Match_seed in Hx0.
  - by injection H as _ <-.
  - apply InternNew_seed in H. by eapply same_seed_trans.
Qed.

Lemma dtor_seed this w w' : InternedSliceRefcount_dtor this w = Ok w' → same_seed w w'.
Proof.
  unfold InternedSliceRefcount_dtor. intros H. bind_inv H. bind_inv H. bind_inv H.
  bind_inv H. bind_inv H. apply write_slot_seed in Hx3. apply write_shard_seed in H.
  by eapply same_seed_trans.
Qed.

Section Frames.

Variable gpr_murmur_hash3 : list byte → Z → Z.
Variable grpc_dump_slice : list byte → Z → string.
Variables GPR_DUMP_HEX GPR_DUMP_ASCII : Z.

Lemma intern_seed buf w s w' :
  ManagedMemorySlice gpr_murmur_hash3 buf w = Ok (s, w') → same_seed w w'.
Proof. apply FindOrCreate_seed. Qed.

Lemma dump_chain_seed n : ∀ s w w',
  dump_chain grpc_dump_slice GPR_DUMP_HEX GPR_DUMP_ASCII n s w = Ok w' →
  same_seed w w'.
Proof.
  induction n as [|n IH]; intros s w w' H; [done|]. cbn [dump_chain] in H.
  destruct s as [a|]; [|by injection H as <-].
  bind_inv H. apply IH in H. eapply same_seed_trans; [|exact H]. done.
Qed.

Lemma dump_buckets_seed n : ∀ j sh w w',
  dump_buckets grpc_dump_slice GPR_DUMP_HEX GPR_DUMP_ASCII n j sh w = Ok w' →
  same_seed w w'.
Proof.
  induction n as [|n IH]; intros j sh w w' H; [by injection H as <-|].
  cbn [dump_buckets] in H. bind_inv H. bind_inv H.
  apply dump_chain_seed in Hx0. apply IH in H. by eapply same_seed_trans.
Qed.

Lemma shutdown_shards_seed abort n : ∀ i w w',
  shutdown_shards grpc_dump_slice GPR_DUMP_HEX GPR_DUMP_ASCII abort n i w = Ok w' →
  same_seed w w'.
Proof.
  induction n as [|n IH]; intros i w w' H; [by injection H as <-|].
  cbn [shutdown_shards] in H. bind_inv H. bind_inv H. bind_inv H.
  apply gpr_free_tab_seed in Hx1. apply IH in H.
  assert (same_seed w x0).
  { destruct (negb _); [|by injection Hx0 as <-].
    bind_inv Hx0. apply dump_buckets_seed in Hx2.
    destruct abort; [done|]. injection Hx0 as <-.
    eapply same_seed_trans; [|exact Hx2]. done. }
  eapply same_seed_trans; [done|]. by eapply same_seed_trans.
Qed.

Lemma shutdown_seed abort w w' :
  grpc_slice_intern_shutdown grpc_dump_slice GPR_DUMP_HEX GPR_DUMP_ASCII abort w
    = Ok w' → same_seed w w'.
Proof.
  unfold grpc_slice_intern_shutdown. intros H. bind_inv H. injection H as <-.
  by apply shutdown_shards_seed in Hx.
Qed.

End Frames.

(** * Runs of the public operations *)

Inductive op : Type :=
| OpSetSeed (seed : Z)
| OpInit (tv_nsec : Z)
| OpIntern (buf : list byte)
| OpDestroy (this : loc)
| OpShutdown (abort_on_leaks : bool).

(** The seed that the last [grpc_test_only_set_slice_hash_seed] of a run
    forced, if there was one. *)
Definition forced_seed (ops : list op) : option Z :=
  last (omap (λ o, match o with OpSetSeed s => Some s | _ => None end) ops).

(** The process before anything has run: the statics are zero. *)
Definition boot : world := mkWorld ∅ ∅ None 0 false [].

Section Claims.

Variable gpr_murmur_hash3 : list byte → Z → Z.
Variable grpc_dump_slice : list byte → Z → string.
Variables GPR_DUMP_HEX GPR_DUMP_ASCII : Z.

Definition step (o : op) (w : world) : outcome world :=
  match o with
  | OpSetSeed seed => Ok (grpc_test_only_set_slice_hash_seed seed w)
  | OpInit tv_nsec => grpc_slice_intern_init tv_nsec w
  | OpIntern buf => '(_, w') ← ManagedMemorySlice gpr_murmur_hash3 buf w; Ok w'
  | OpDestroy this => InternedSliceRefcount_dtor this w
  | OpShutdown abort_on_leaks =>
      grpc_slice_intern_shutdown grpc_dump_slice GPR_DUMP_HEX GPR_DUMP_ASCII
        abort_on_leaks w
  end.

Fixpoint run (ops : list op) (w : world) : outcome world :=
  match ops with
  | [] => Ok w
  | o :: ops' => w' ← step o w; run ops' w'
  end.

Lemma run_app ops1 ops2 w w' :
  run (ops1 ++ ops2) w = Ok w' ↔ ∃ w1, run ops1 w = Ok w1 ∧ run ops2 w1 = Ok w'.
Proof.
  revert w. induction ops1 as [|o ops1 IH]; intros w; cbn [app run].
  - split; [eauto|]. by intros (w1 & [= <-] & H).
  - destruct (step o w) as [w1| | |]; run_step; [apply IH|..];
      (split; [done|by intros (? & ? & _)]).
Qed.

Lemma step_init tv_nsec w :
  step (OpInit tv_nsec) w = grpc_slice_intern_init tv_nsec w.
Proof. unfold step. reflexivity. Qed.

Lemma step_intern buf w :
  step (OpIntern buf) w =
    ('(_, w') ← ManagedMemorySlice gpr_murmur_hash3 buf w; Ok w').
Proof. unfold step. reflexivity. Qed.

Lemma step_destroy this w :
  step (OpDestroy this) w = InternedSliceRefcount_dtor this w.
Proof. unfold step. reflexivity. Qed.

Lemma step_shutdown abort w :
  step (OpShutdown abort) w =
    grpc_slice_intern_shutdown grpc_dump_slice GPR_DUMP_HEX GPR_DUMP_ASCII abort w.
Proof. unfold step. reflexivity. Qed.

(** A step other than forcing the seed keeps a forced seed: [init] is the
    only other writer of the seed, and it looks at the flag first. *)
Lemma step_keeps_forced o w w' :
  step o w = Ok w' → (∀ s, o ≠ OpSetSeed s) →
  g_forced_hash_seed w' = g_forced_hash_seed w ∧
  (g_forced_hash_seed w = true → g_hash_seed w' = g_hash_seed w).
Proof.
  intros H Hno. destruct o as [s|tv|buf|this|abort].
  - by destruct (Hno s).
  - rewrite step_init in H.
    destruct (init_spec tv w) as (w1 & shards & Hrun & _ & _ & Hseed & Hflag & _).
    rewrite Hrun in H. injection H as <-. split; [exact Hflag|].
    intros Hf. by rewrite Hseed, Hf.
  - rewrite step_intern in H. bind_inv H. destruct x as [s w1]. injection H as <-.
    apply intern_seed in Hx as [H1 H2]. done.
  - rewrite step_destroy in H. apply dtor_seed in H as [H1 H2]. done.
  - rewrite step_shutdown in H. apply shutdown_seed in H as [H1 H2]. done.
Qed.

Lemma run_keeps_forced ops : ∀ w w',
  run ops w = Ok w' → forced_seed ops = None →
  g_forced_hash_seed w' = g_forced_hash_seed w ∧
  (g_forced_hash_seed w = true → g_hash_seed w' = g_hash_seed w).
Proof.
  induction ops as [|o ops IH]; intros w w' H Hnone.
  - by injection H as <-.
  - cbn [run] in H. bind_inv H.
    assert (Hno : ∀ s, o ≠ OpSetSeed s).
    { intros s ->. unfold forced_seed in Hnone. cbn [omap list_omap] in Hnone.
      rewrite last_cons in Hnone. by destruct (last _). }
    assert (Hnone' : forced_seed ops = None).
    { unfold forced_seed in *. by destruct o; cbn [omap list_omap] in Hnone; try done;
        destruct (Hno seed). }
    destruct (step_keeps_forced o w x Hx Hno) as [H1 H2].
    destruct (IH x w' H Hnone') as [H3 H4]. split; [congruence|].
    intros Hf. rewrite H4, H2; congruence.
Qed.

Lemma forced_seed_split ops s :
  forced_seed ops = Some s →
  ∃ ops1 ops2, ops = ops1 ++ OpSetSeed s :: ops2 ∧ forced_seed ops2 = None.
Proof.
  induction ops as [|o ops IH] using rev_ind; [done|].
  unfold forced_seed. rewrite omap_app. intros H.
  destruct o as [s'| | | |]; cbn [omap list_omap] in H.
  - rewrite last_snoc in H. injection H as ->. by exists ops, [].
  - rewrite app_nil_r in H. destruct (IH H) as (ops1 & ops2 & -> & Hn).
    exists ops1, (ops2 ++ [OpInit tv_nsec]). rewrite <- app_assoc. split; [done|].
    unfold forced_seed in *. rewrite omap_app. cbn [omap list_omap]. by rewrite app_nil_r.
  - rewrite app_nil_r in H. destruct (IH H) as (ops1 & ops2 & -> & Hn).
    exists ops1, (ops2 ++ [OpIntern buf]). rewrite <- app_assoc. split; [done|].
    unfold forced_seed in *. rewrite omap_app. cbn [omap list_omap]. by rewrite app_nil_r.
  - rewrite app_nil_r in H. destruct (IH H) as (ops1 & ops2 & -> & Hn).
    exists ops1, (ops2 ++ [OpDestroy this]). rewrite <- app_assoc. split; [done|].
    unfold forced_seed in *. rewrite omap_app. cbn [omap list_omap]. by rewrite app_nil_r.
  - rewrite app_nil_r in H. destruct (IH H) as (ops1 & ops2 & -> & Hn).
    exists ops1, (ops2 ++ [OpShutdown abort_on_leaks]). rewrite <- app_assoc.
    split; [done|].
    unfold forced_seed in *. rewrite omap_app. cbn [omap list_omap]. by rewrite app_nil_r.
Qed.

Lemma run_forced ops w0 w s :
  run ops w0 = Ok w → forced_seed ops = Some s →
  g_hash_seed w = uint32 s ∧ g_forced_hash_seed w = true.
Proof.
  intros Hrun Hf.
  destruct (forced_seed_split ops s Hf) as (ops1 & ops2 & -> & Hn).
  apply run_app in Hrun as (w1 & H1 & H2). cbn [run step] in H2.
  cbn [mbind outcome_bind] in H2.
  destruct (run_keeps_forced ops2 _ w H2 Hn) as [H3 H4].
  cbn [g_hash_seed g_forced_hash_seed grpc_test_only_set_slice_hash_seed] in H3, H4.
  split; [by rewrite H4|done].
Qed.

(** C10. Forcing the seed overwrites it at once, whatever the state, and
    sets the flag; the flag is never cleared, so after any run in which the
    seed was forced, the seed is the last one forced: no later [init]
    replaces it by a clock reading. *)
Theorem forced_seed_is_kept :
  (∀ seed w,
     g_hash_seed (grpc_test_only_set_slice_hash_seed seed w) = uint32 seed ∧
     g_forced_hash_seed (grpc_test_only_set_slice_hash_seed seed w) = true) ∧
  (∀ ops w0 w s,
     run ops w0 = Ok w → forced_seed ops = Some s →
     g_hash_seed w = uint32 s ∧ g_forced_hash_seed w = true) ∧
  (∀ ops w0 w s tv_nsec w',
     run ops w0 = Ok w → forced_seed ops = Some s →
     grpc_slice_intern_init tv_nsec w = Ok w' →
     g_hash_seed w' = uint32 s).
Proof.
  split; [done|]. split; [exact run_forced|].
  intros ops w0 w s tv w' H Hf Hinit.
  destruct (run_forced ops w0 w s H Hf) as [Hs Hflag].
  destruct (init_spec tv w) as (w1 & shards & Hrun1 & _ & _ & Hseed & _).
  rewrite Hrun1 in Hinit. injection Hinit as <-. by rewrite Hseed, Hflag.
Qed.

(** C8. [init] takes the seed from the clock reading unless a seed was
    forced, in which case it keeps it; in both cases it allocates 32 shards,
    each with count 0 and an array of its own of 8 null heads. *)
Theorem init_sets_seed_and_shards :
  (∀ tv_nsec w, ∃ w' shards,
     grpc_slice_intern_init tv_nsec w = Ok w' ∧
     g_hash_seed w' =
       (if g_forced_hash_seed w then g_hash_seed w else uint32 tv_nsec) ∧
     g_forced_hash_seed w' = g_forced_hash_seed w ∧
     g_shards w' = Some shards ∧ length shards = 32%nat ∧
     (∀ sh, sh ∈ shards →
        count sh = 0 ∧ capacity sh = 8 ∧
        tabs w' !! strs sh = Some (replicate 8 None)) ∧
     (∀ (i j : nat) shi shj, shards !! i = Some shi → shards !! j = Some shj →
        strs shi = strs shj → i = j) ∧
     heap w' = heap w ∧ log w' = log w) ∧
  (∀ ops w tv_nsec w',
     run ops boot = Ok w → grpc_slice_intern_init tv_nsec w = Ok w' →
     g_hash_seed w' =
       match forced_seed ops with
       | Some s => uint32 s
       | None => uint32 tv_nsec
       end).
Proof.
  split.
  - intros tv w.
    destruct (init_spec tv w) as (w' & shards & Hrun & Hd & Hh & Hseed & Hflag & Hlog).
    destruct Hd as (Hs & Hlen & Hok & Hdist).
    exists w', shards. split; [exact Hrun|]. split; [exact Hseed|]. split; [exact Hflag|].
    split; [exact Hs|]. split; [exact Hlen|]. split; [|split; [|split; [exact Hh| exact Hlog]]].
    + intros sh (j & Hj)%list_elem_of_lookup. apply (Hok j sh); [|done].
      rewrite <- Hlen. by eapply lookup_lt_Some.
    + intros i j shi shj Hi Hj. apply Hdist; [| |done..].
      * rewrite <- Hlen. by eapply lookup_lt_Some.
      * rewrite <- Hlen. by eapply lookup_lt_Some.
  - intros ops w tv w' Hrun Hinit.
    destruct (init_spec tv w) as (w1 & shards & Hrun1 & _ & _ & Hseed & _).
    rewrite Hrun1 in Hinit. injection Hinit as <-. rewrite Hseed.
    destruct (forced_seed ops) as [s|] eqn:Hf.
    + destruct (run_forced ops boot w s Hrun Hf) as [-> ->]. done.
    + destruct (run_keeps_forced ops boot w Hrun Hf) as [-> _]. done.
Qed.

(** The scan of a bucket whose chain is [l]. *)
Lemma Match_run w hash idx args sh p l :
  read_shard w (Z.to_nat (SHARD_IDX hash)) = Ok sh →
  read_bucket w sh idx = Ok p →
  chain (heap w) p l →
  MatchInternedSliceLocked hash idx args w =
    Ok (match find (live_match (heap w) hash args) l with
        | Some a => (Some a, set_heap (bump a (heap w)) w)
        | None => (None, w)
        end).
Proof.
  intros Hsh Hp Hc. unfold MatchInternedSliceLocked. rewrite Hsh. run_step.
  rewrite Hp. run_step.
  rewrite (match_scan_spec _ _ _ _ _ _ Hc (chain_fuel _ _ _ Hc)). run_step.
  destruct (find _ l); [done|]. by rewrite set_heap_same.
Qed.

(** An entry with the hash looked for and other bytes. *)
Definition collides (h : gmap loc InternedSliceRefcount) (hash : Z)
    (args : list byte) (c : loc) : Prop :=
  ∃ e, h !! c = Some e ∧ e_hash e = hash ∧ slice_eq e args = false.

Lemma collides_no_match h hash args c :
  collides h hash args c → live_match h hash args c = false.
Proof.
  intros (e & He & Hh & Hs). unfold live_match, entry_matches.
  rewrite He, Hs. by rewrite andb_false_r.
Qed.

Lemma find_skip {A} (f : A → bool) l1 a l2 :
  Forall (λ c, f c = false) l1 → f a = true → find f (l1 ++ a :: l2) = Some a.
Proof.
  induction 1 as [|c l1 Hc _ IH]; intros Ha; simpl.
  - by rewrite Ha.
  - rewrite Hc. by apply IH.
Qed.

Lemma find_all_false {A} (f : A → bool) l :
  Forall (λ c, f c = false) l → find f l = None.
Proof. induction 1 as [|c l Hc _ IH]; simpl; [done|]. by rewrite Hc. Qed.

(** C2. The scan returns an entry only if its stored hash is the hash
    looked for and its bytes are the input's, length and content; entries
    with the same hash and other bytes are passed over and the scan goes on
    to the next node: a match behind them is still found, and a chain of
    nothing but such entries gives null, not a failure. *)
Theorem match_needs_hash_and_content w hash idx args sh p l :
  read_shard w (Z.to_nat (SHARD_IDX hash)) = Ok sh →
  read_bucket w sh idx = Ok p →
  chain (heap w) p l →
  (∀ a w', MatchInternedSliceLocked hash idx args w = Ok (Some a, w') →
     a ∈ l ∧
     ∃ e, heap w !! a = Some e ∧ e_hash e = hash ∧
          e_length e = Z.of_nat (length args) ∧
          take (length args) (e_bytes e) = args) ∧
  (∀ l1 a l2, l = l1 ++ a :: l2 →
     Forall (collides (heap w) hash args) l1 →
     live_match (heap w) hash args a = true →
     MatchInternedSliceLocked hash idx args w =
       Ok (Some a, set_heap (bump a (heap w)) w)) ∧
  (Forall (collides (heap w) hash args) l →
     MatchInternedSliceLocked hash idx args w = Ok (None, w)).
Proof.
  intros Hsh Hp Hc. rewrite (Match_run w hash idx args sh p l Hsh Hp Hc).
  split; [|split].
  - intros a w' Hrun.
    destruct (find _ l) as [a'|] eqn:Hf; [|done]. injection Hrun as -> _.
    destruct (find_live_match _ _ _ _ _ Hf) as (Ha & e & He & Hh & Hs & _).
    split; [done|]. exists e. split; [done|]. split; [done|].
    unfold slice_eq in Hs. apply andb_true_iff in Hs as [Hl Hb].
    apply bool_decide_eq_true_1 in Hb. split; [lia|done].
  - intros l1 a l2 -> Hcol Hm. rewrite find_skip; [done| |done].
    eapply Forall_impl; [exact Hcol|]. intros c. apply collides_no_match.
  - intros Hcol. rewrite find_all_false; [done|].
    eapply Forall_impl; [exact Hcol|]. intros c. apply collides_no_match.
Qed.



(** The log and the world that a run of shutdown leaves behind, whether it
    returned or stopped in [abort]. *)
Definition final_world (o : outcome world) : option world :=
  match o with
  | Ok w | Abort w => Some w
  | _ => None
  end.

Definition final_log (o : outcome world) : list log_line :=
  match final_world o with Some w => log w | None => [] end.

(** C6, as the code has it.  Shutdown of a table without entries logs
    nothing, whatever the mode.  When strict leak detection is off, shutdown
    of a table that holds [N] entries, however spread over the shards, logs
    exactly [N] "LEAKED" lines, one per entry in the order of the shards,
    buckets and chains, each the hex-and-ASCII dump of that entry's bytes.
    In strict mode, shutdown of a table that holds entries stops in [abort]
    at the first shard that counts entries: what it has logged by then is
    the warning and the "LEAKED" lines of the entries of that shard, one per
    entry, and no line for an entry of a later shard. *)
Theorem shutdown_reports_leaks abort w bss :
  table_rep w bss →
  (concat (concat bss) = [] →
     ∃ w',
       grpc_slice_intern_shutdown grpc_dump_slice GPR_DUMP_HEX GPR_DUMP_ASCII
         abort w = Ok w' ∧
       log w' = log w) ∧
  (abort = false →
     ∃ w' new,
       grpc_slice_intern_shutdown grpc_dump_slice GPR_DUMP_HEX GPR_DUMP_ASCII
         false w = Ok w' ∧
       log w' = log w ++ new ∧
       leaked_texts new =
         leak_text grpc_dump_slice GPR_DUMP_HEX GPR_DUMP_ASCII (heap w)
           <$> concat (concat bss) ∧
       length (leaked_texts new) = length (concat (concat bss))) ∧
  (abort = true → concat (concat bss) ≠ [] →
     ∃ shards (k : nat) sh bs w' new,
       g_shards w = Some shards ∧
       shards !! k = Some sh ∧ bss !! k = Some bs ∧ count sh ≠ 0 ∧
       (∀ (j : nat) shj, (j < k)%nat → shards !! j = Some shj → count shj = 0) ∧
       grpc_slice_intern_shutdown grpc_dump_slice GPR_DUMP_HEX GPR_DUMP_ASCII
         true w = Abort w' ∧
       log w' = log w ++ new ∧
       leaked_texts new =
         leak_text grpc_dump_slice GPR_DUMP_HEX GPR_DUMP_ASCII (heap w)
           <$> concat bs ∧
       length (leaked_texts new) = length (concat bs)).
Proof.
  intros Hrep. pose proof Hrep as (shards & Hs & _). split; [|split].
  - intros Hempty.
    destruct (shutdown_ok grpc_dump_slice GPR_DUMP_HEX GPR_DUMP_ASCII abort w bss
                shards Hrep Hs (or_intror Hempty))
      as (w' & new & Hrun & _ & _ & _ & _ & Hlog & _ & Hnil & _).
    exists w'. split; [done|]. by rewrite Hlog, (Hnil Hempty), app_nil_r.
  - intros ->.
    destruct (shutdown_ok grpc_dump_slice GPR_DUMP_HEX GPR_DUMP_ASCII false w bss
                shards Hrep Hs (or_introl eq_refl))
      as (w' & new & Hrun & _ & _ & _ & _ & Hlog & Htexts & _).
    exists w', new. split; [done|]. split; [done|]. split; [done|].
    by rewrite Htexts, length_fmap.
  - intros -> Hne.
    destruct (first_leaking_shard w bss shards Hrep Hs Hne)
      as (k & sh & bs & Hsh & Hbs & Hc & Hbefore).
    destruct (shutdown_stops grpc_dump_slice GPR_DUMP_HEX GPR_DUMP_ASCII w bss shards
                k sh bs Hrep Hs Hsh Hbs Hc Hbefore)
      as (w' & Hrun & _ & _ & Hlog & _).
    assert (Hsrep : shard_rep (heap w) (tabs w) k sh bs).
    { destruct Hrep as (shards' & Hs' & _ & _ & _ & Hall).
      rewrite Hs in Hs'; injection Hs' as <-. by apply Hall. }
    pose proof (leaked_texts_shard_log grpc_dump_slice GPR_DUMP_HEX GPR_DUMP_ASCII
                  _ _ _ _ _ Hsrep) as Ht.
    unfold shard_log in Ht.
    assert (Hz : (count sh =? 0) = false) by lia. rewrite Hz in Ht.
    eexists shards, k, sh, bs, w', _.
    split; [done|]. split; [done|]. split; [done|]. split; [done|].
    split; [done|]. split; [exact Hrun|]. split; [exact Hlog|].
    split; [exact Ht|]. by rewrite Ht, length_fmap.
Qed.

(** The claim of C6 as the spec words it: the number of "LEAKED" lines is
    the number of entries, in every mode. *)
Definition leak_lines_claim : Prop :=
  ∀ abort w bss,
    table_rep w bss →
    length (leaked_texts (final_log
      (grpc_slice_intern_shutdown grpc_dump_slice GPR_DUMP_HEX GPR_DUMP_ASCII
         abort w))) =
    (length (leaked_texts (log w)) + length (concat (concat bss)))%nat.

(** C7, as the code has it.  A shutdown that runs to its end, which it does
    when strict leak detection is off or no entry is left, frees the bucket
    array of every shard and the shard array, whether or not entries leaked;
    it frees no other array and no entry. *)
Theorem shutdown_frees_shards abort w bss shards :
  table_rep w bss → g_shards w = Some shards →
  abort = false ∨ concat (concat bss) = [] →
  ∃ w',
    grpc_slice_intern_shutdown grpc_dump_slice GPR_DUMP_HEX GPR_DUMP_ASCII
      abort w = Ok w' ∧
    g_shards w' = None ∧
    (∀ sh, sh ∈ shards → tabs w' !! strs sh = None) ∧
    (∀ t, (∀ sh, sh ∈ shards → strs sh ≠ t) → tabs w' !! t = tabs w !! t) ∧
    heap w' = heap w.
Proof.
  intros Hrep Hs Hc.
  destruct (shutdown_ok grpc_dump_slice GPR_DUMP_HEX GPR_DUMP_ASCII abort w bss
              shards Hrep Hs Hc)
    as (w' & new & Hrun & Hnone & Hh & _ & _ & _ & _ & _ & Hfreed & Hother).
  exists w'. done.
Qed.

(** The claim of C7 as the spec words it: the arrays and the shard array
    are freed in every mode. *)
Definition shutdown_frees_claim : Prop :=
  ∀ abort w bss shards,
    table_rep w bss → g_shards w = Some shards →
    ∃ w',
      final_world
        (grpc_slice_intern_shutdown grpc_dump_slice GPR_DUMP_HEX GPR_DUMP_ASCII
           abort w) = Some w' ∧
      g_shards w' = None ∧
      ∀ sh, sh ∈ shards → tabs w' !! strs sh = None.

(** The table invariant: the representation invariant, every entry carries
    the hash of its bytes under the current seed, and no two referenced
    entries have the same bytes.  [init] sets it up and interning and
    destruction keep it. *)
Definition table_inv (w : world) : Prop :=
  ∃ bss, intern_inv gpr_murmur_hash3 w bss.

(** [a] is an entry of the table that holds [buf] and is referenced. *)
Definition live_in_table (w : world) (buf : list byte) (a : loc) : Prop :=
  in_table w a ∧ ∃ e, heap w !! a = Some e ∧ e_bytes e = buf ∧ e_refcnt e ≠ 0.

Lemma live_in_table_iff w bss buf a :
  table_rep w bss → live_in_table w buf a ↔ live_entry w bss buf a.
Proof.
  intros Hrep. unfold live_in_table, live_entry.
  by rewrite (in_table_rep w bss a Hrep).
Qed.

(** Either some referenced entry of the table holds [buf], or none does. *)
Lemma live_or_not w bss buf :
  intern_inv gpr_murmur_hash3 w bss →
  (∃ a, live_entry w bss buf a) ∨ (∀ a, ¬ live_entry w bss buf a).
Proof.
  intros Hinv.
  destruct (selected_bucket gpr_murmur_hash3 w bss buf (proj1 Hinv))
    as (shards & sh & bs & b & Hs & Hsh & Hbs & Hbk & Hsr).
  destruct (find (live_match (heap w) (hash_of gpr_murmur_hash3 w buf) buf) b)
    as [a|] eqn:Hf.
  - left. exists a. pose proof Hf as [Ha Hm]%find_some.
    apply list_elem_of_In in Ha.
    by apply (live_match_iff gpr_murmur_hash3 w bss buf shards sh bs b a Hinv Hs Hsh Hbs Hbk).
  - right. intros a Hlive.
    by rewrite (find_live_unique gpr_murmur_hash3 w bss buf shards sh bs b a
                  Hinv Hs Hsh Hbs Hbk Hlive) in Hf.
Qed.

(** C1. In a state of the table invariant, interning [buf] returns an entry
    whose bytes are [buf].  If a referenced entry of the table holds [buf],
    it is the one returned, with its reference count raised by one, and no
    entry is allocated.  Otherwise the entry returned is newly allocated,
    with reference count 1, the length and the bytes of the input, and it is
    on the chain of the bucket that its hash selects.  Interning [buf] again
    returns the same entry. *)
Theorem intern_finds_or_creates w buf :
  table_inv w → headroom 1 w →
  ∃ s w' e',
    ManagedMemorySlice gpr_murmur_hash3 buf w = Ok (s, w') ∧
    heap w' !! s = Some e' ∧ e_bytes e' = buf ∧
    table_inv w' ∧
    (∀ a, live_in_table w buf a →
       s = a ∧ dom (heap w') = dom (heap w) ∧
       ∃ e, heap w !! a = Some e ∧ e' = set_refcnt (e_refcnt e + 1) e) ∧
    ((∀ a, ¬ live_in_table w buf a) →
       heap w !! s = None ∧ dom (heap w') = {[s]} ∪ dom (heap w) ∧
       e_refcnt e' = 1 ∧ e_length e' = Z.of_nat (length buf) ∧
       e_hash e' = hash_of gpr_murmur_hash3 w buf ∧
       linked w' (hash_of gpr_murmur_hash3 w buf) s) ∧
    ∃ w'', ManagedMemorySlice gpr_murmur_hash3 buf w' = Ok (s, w'').
Proof.
  intros [bss Hinv] Hroom. pose proof (proj1 Hinv) as Hrep.
  destruct (live_or_not w bss buf Hinv) as [[a Hlive]|Hno].
  - destruct Hlive as [Hin (e & He & Hb & Hr)].
    set (e' := set_refcnt (e_refcnt e + 1) e).
    set (w' := set_heap (<[a := e']> (heap w)) w).
    pose proof (intern_inv_bump gpr_murmur_hash3 w bss a e Hinv Hin He Hr) as Hinv'.
    fold e' w' in Hinv'.
    assert (He' : heap w' !! a = Some e') by apply lookup_insert_eq.
    assert (Hr' : e_refcnt e' ≠ 0).
    { destruct (proj1 Hinv) as (shards & Hs & Hlen & _ & Hlb & Hall).
      apply elem_of_concat_concat in Hin as (k & bsk & Hbsk & Ha).
      destruct (lookup_lt_is_Some_2 shards k) as [shk Hshk].
      { rewrite <- Hlb. by eapply lookup_lt_Some. }
      destruct (Hall k shk bsk Hshk Hbsk) as [_ _ _ Hpl _].
      destruct (placed_elem _ _ _ _ _ Hpl Ha) as (e0 & He0 & _ & _ & H0).
      rewrite He in He0. injection He0 as <-. simpl. lia. }
    exists a, w', e'.
    split; [by apply (intern_found gpr_murmur_hash3 w bss buf a e)|].
    split; [done|]. split; [done|]. split; [by exists bss|]. split; [|split].
    + intros a' Hlive'. apply (live_in_table_iff w bss buf a' Hrep) in Hlive'.
      destruct Hlive' as [Hin' (ea & Hea & Hba & Hra)].
      destruct Hinv as (_ & _ & Huniq).
      assert (a = a') as <- by (apply (Huniq a a' e ea); congruence).
      split; [done|]. split; [|eauto].
      cbn [heap w' set_heap]. apply dom_insert_lookup_L. eauto.
    + intros Hnone. exfalso. apply (Hnone a).
      apply (live_in_table_iff w bss buf a Hrep). split; [done|]. eauto.
    + eexists. apply (intern_found gpr_murmur_hash3 w' bss buf a e'); try done.
  - destruct (intern_created gpr_murmur_hash3 w bss buf Hinv Hno Hroom)
      as (shards & sh & bs & w' & bs' & sh' & e' & Hs & Hsh & Hbs & Hrun & Hinv'
          & Hperm & Hs' & Hcnt & Hgrow & Hfresh & He' & Her & Herase & _).
    set (s := fresh (dom (heap w))) in *.
    set (si := Z.to_nat (SHARD_IDX (hash_of gpr_murmur_hash3 w buf))) in *.
    assert (Hl : e_length e' = Z.of_nat (length buf)) by (by apply (f_equal e_length) in Her).
    assert (Hr : e_refcnt e' = 1) by (by apply (f_equal e_refcnt) in Her).
    assert (Hh : e_hash e' = hash_of gpr_murmur_hash3 w buf)
      by (by apply (f_equal e_hash) in Her).
    assert (Hb : e_bytes e' = buf) by (by apply (f_equal e_bytes) in Her).
    assert (Hin' : s ∈ concat (concat (<[si := bs']> bss))).
    { rewrite (entries_insert_cons bss si bs bs' s Hbs Hperm). by left. }
    exists s, w', e'. split; [done|]. split; [done|]. split; [done|].
    split; [by eexists|]. split; [|split].
    + intros a Hlive. exfalso. apply (Hno a).
      by apply (live_in_table_iff w bss buf a Hrep).
    + intros _. split; [done|]. split; [by eapply dom_created|].
      split; [done|]. split; [done|]. split; [done|].
      rewrite <- Hh. by eapply in_table_linked; [apply Hinv'|..].
    + eexists.
      apply (intern_found gpr_murmur_hash3 w' (<[si := bs']> bss) buf s e');
        try done. lia.
Qed.

(** C3.  Capacities only stay or double: across an interning call every
    shard keeps its capacity or has twice it, and a destruction changes no
    capacity.  When a creating call raises the count of its shard above
    twice the capacity, the shard comes out with twice the capacity and a
    newly allocated array of that many heads; every entry the shard had and
    the new one is on the chain of the bucket that its hash selects under
    the new capacity; no entry but the new one is allocated and no entry's
    length, reference count, hash or bytes change; what could be found by
    content before the call is found, the same entry, after it. *)
Theorem growth_doubles_and_relinks w :
  table_inv w → headroom 1 w →
  (∀ buf s w' shards shards' (k : nat) shk shk',
     ManagedMemorySlice gpr_murmur_hash3 buf w = Ok (s, w') →
     g_shards w = Some shards → g_shards w' = Some shards' →
     shards !! k = Some shk → shards' !! k = Some shk' →
     capacity shk' = capacity shk ∨ capacity shk' = capacity shk * 2) ∧
  (∀ this w' shards shards' (k : nat) shk shk',
     InternedSliceRefcount_dtor this w = Ok w' →
     g_shards w = Some shards → g_shards w' = Some shards' →
     shards !! k = Some shk → shards' !! k = Some shk' →
     capacity shk' = capacity shk) ∧
  (∀ buf shards sh l,
     lookup_slice gpr_murmur_hash3 buf w = Ok (None, w) →
     g_shards w = Some shards →
     shards !! Z.to_nat (SHARD_IDX (hash_of gpr_murmur_hash3 w buf)) = Some sh →
     shard_entries w sh l →
     capacity sh * 2 < count sh + 1 →
     ∃ s w' sh' arr',
       ManagedMemorySlice gpr_murmur_hash3 buf w = Ok (s, w') ∧
       g_shards w' =
         Some (<[Z.to_nat (SHARD_IDX (hash_of gpr_murmur_hash3 w buf)) := sh']> shards) ∧
       capacity sh' = capacity sh * 2 ∧ count sh' = count sh + 1 ∧
       tabs w !! strs sh' = None ∧
       tabs w' !! strs sh' = Some arr' ∧
       length arr' = Z.to_nat (capacity sh * 2) ∧
       (∀ a, a = s ∨ a ∈ l →
          ∃ e', heap w' !! a = Some e' ∧ linked w' (e_hash e') a) ∧
       dom (heap w') = {[s]} ∪ dom (heap w) ∧
       (∀ a e, heap w !! a = Some e →
          ∃ e', heap w' !! a = Some e' ∧ erase e' = erase e) ∧
       (∀ b a, findable gpr_murmur_hash3 w b a →
               findable gpr_murmur_hash3 w' b a) ∧
       table_inv w').
Proof.
  intros [bss Hinv] Hroom. pose proof (proj1 Hinv) as Hrep.
  split; [|split].
  - intros buf s w' shards shards' k shk shk' Hrun Hs Hs' Hk Hk'.
    destruct (FindOrCreate_table w bss (hash_of gpr_murmur_hash3 w buf) buf Hrep Hroom)
      as (shards0 & sh & bs & s0 & w0 & Hs0 & Hsh & Hbs & Hrun0 & _ & _ & _ & Hcase).
    unfold ManagedMemorySlice in Hrun. fold (hash_of gpr_murmur_hash3 w buf) in Hrun.
    rewrite Hrun0 in Hrun. injection Hrun as -> ->.
    rewrite Hs in Hs0. injection Hs0 as <-.
    destruct Hcase as [(_ & _ & Hss & _)|(_ & bs' & sh' & _ & _ & Hss & _ & Hcap & _)].
    + left. congruence.
    + rewrite Hss in Hs'. injection Hs' as <-.
      destruct (decide (k = Z.to_nat (SHARD_IDX (hash_of gpr_murmur_hash3 w buf))))
        as [->|Hne].
      * rewrite list_lookup_insert_eq in Hk' by (by eapply lookup_lt_Some).
        injection Hk' as <-. congruence.
      * rewrite list_lookup_insert_ne in Hk' by done. left. congruence.
  - intros this w' shards shards' k shk shk' Hrun Hs Hs' Hk Hk'.
    pose proof (dtor_returns w bss this w' Hrep Hrun) as Hin.
    destruct (dtor_in_table w bss this Hrep Hin)
      as (t & shards0 & sh & bs & l1 & l2 & w0 & Ht & Hs0 & Hsh & Hbs & Hb & Hrun0
          & _ & Hss & _).
    rewrite Hrun0 in Hrun. injection Hrun as ->.
    rewrite Hs in Hs0. injection Hs0 as <-.
    rewrite Hss in Hs'. injection Hs' as <-.
    destruct (decide (k = Z.to_nat (SHARD_IDX (e_hash t)))) as [->|Hne].
    + rewrite list_lookup_insert_eq in Hk' by (by eapply lookup_lt_Some).
      injection Hk' as <-. simpl. congruence.
    + rewrite list_lookup_insert_ne in Hk' by done. congruence.
  - intros buf shards sh l Hnone Hs Hsh Hl Hgrow.
    pose proof (proj1 (lookup_none_iff gpr_murmur_hash3 w bss buf Hinv) Hnone) as Hno.
    destruct (intern_created gpr_murmur_hash3 w bss buf Hinv Hno Hroom)
      as (shards0 & sh0 & bs & w' & bs' & sh' & e' & Hs0 & Hsh0 & Hbs & Hrun & Hinv'
          & Hperm & Hs' & Hcnt & Hcase & Hfresh & He' & Her & Herase & _ & Hseed & _).
    set (s := fresh (dom (heap w))) in *.
    set (si := Z.to_nat (SHARD_IDX (hash_of gpr_murmur_hash3 w buf))) in *.
    rewrite Hs in Hs0. injection Hs0 as <-.
    rewrite Hsh in Hsh0. injection Hsh0 as <-.
    apply Z.ltb_lt in Hgrow. rewrite Hgrow in Hcase. destruct Hcase as [Hcap Hstrs].
    pose proof (proj1 Hinv') as Hrep'.
    assert (Hl' : l = concat bs).
    { eapply shard_entries_functional; [exact Hl|].
      by eapply table_rep_shard_entries. }
    assert (Hsh' : <[si := sh']> shards !! si = Some sh').
    { apply list_lookup_insert_eq. by eapply lookup_lt_Some. }
    assert (Hbs' : <[si := bs']> bss !! si = Some bs').
    { apply list_lookup_insert_eq. by eapply lookup_lt_Some. }
    destruct Hrep' as (shards'' & Hs'' & _ & _ & _ & Hall').
    rewrite Hs' in Hs''. injection Hs'' as <-.
    destruct (Hall' si sh' bs' Hsh' Hbs') as [_ (arr' & Harr' & Hla' & _) _ _ _].
    pose proof (entries_insert_cons bss si bs bs' s Hbs Hperm) as Hent.
    assert (Hkeep : ∀ a e, heap w !! a = Some e →
              ∃ e', heap w' !! a = Some e' ∧ erase e' = erase e).
    { intros a e Ha. assert (Hne : a ≠ s) by congruence.
      specialize (Herase a Hne). rewrite Ha in Herase.
      destruct (heap w' !! a) as [e0|]; [|done]. exists e0. split; [done|].
      simpl in Herase. congruence. }
    exists s, w', sh', arr'. split; [done|]. split; [done|]. split; [done|].
    split; [done|]. split.
    { rewrite Hstrs. apply not_elem_of_dom. apply is_fresh. }
    split; [done|]. split; [by rewrite Hla', Hcap|]. split; [|split; [|split; [|split]]].
    + intros a Ha.
      assert (Hin : a ∈ concat (concat (<[si := bs']> bss))).
      { rewrite Hent. destruct Ha as [->|Ha]; [by left|]. right.
        rewrite Hl' in Ha. apply elem_of_concat_concat. eauto. }
      destruct (table_rep_not_fresh w' _ a (proj1 Hinv') Hin) as [ea Hea].
      exists ea. split; [done|]. by eapply in_table_linked; [apply Hinv'|..].
    + by eapply dom_created.
    + done.
    + intros b a Hf.
      apply (proj1 (findable_iff gpr_murmur_hash3 w bss b a Hinv)) in Hf.
      apply (proj2 (findable_iff gpr_murmur_hash3 w' _ b a Hinv')).
      destruct Hf as [Hin (e & He & Hb & Hr)].
      split; [rewrite Hent; by right|].
      destruct (Hkeep a e He) as (e0 & He0 & Heq).
      apply erase_fields in Heq as (_ & Hr0 & _ & Hb0).
      exists e0. split; [done|]. split; congruence.
    + by eexists.
Qed.

(** C4.  In a well-formed table the count of every shard is the number of
    entries on its chains, and every operation keeps the table well formed:
    an interning call that matches changes no chain and no count; one that
    creates adds the new entry to the chains of one shard and one to its
    count; the destructor of an entry of the table returns, having taken
    that entry, and no other, off the chains of its shard and one off its
    count (and it returns for no entry that is not in the table); growing a
    shard keeps its count and the entries on its chains. *)
Theorem count_is_number_of_entries w :
  table_ok w → headroom 1 w →
  count_inv w ∧
  (∀ buf, ∃ s w',
     ManagedMemorySlice gpr_murmur_hash3 buf w = Ok (s, w') ∧
     table_ok w' ∧ count_inv w' ∧
     ((in_table w s ∧ g_shards w' = g_shards w ∧
       ∀ shards sh l, g_shards w = Some shards → sh ∈ shards →
         shard_entries w sh l → shard_entries w' sh l) ∨
      (¬ in_table w s ∧
       ∃ shards (si : nat) sh sh' l l',
         g_shards w = Some shards ∧ shards !! si = Some sh ∧
         g_shards w' = Some (<[si := sh']> shards) ∧
         shard_entries w sh l ∧ shard_entries w' sh' l' ∧
         l' ≡ₚ s :: l ∧ count sh' = count sh + 1))) ∧
  (∀ this, in_table w this →
     ∃ w',
       InternedSliceRefcount_dtor this w = Ok w' ∧
       table_ok w' ∧ count_inv w' ∧
       ∃ shards (si : nat) sh sh' l l',
         g_shards w = Some shards ∧ shards !! si = Some sh ∧
         g_shards w' = Some (<[si := sh']> shards) ∧
         shard_entries w sh l ∧ shard_entries w' sh' l' ∧
         l ≡ₚ this :: l' ∧ count sh' = count sh - 1) ∧
  (∀ this w', InternedSliceRefcount_dtor this w = Ok w' → in_table w this) ∧
  (∀ shards (si : nat) sh,
     g_shards w = Some shards → shards !! si = Some sh →
     ∃ w' sh' l l',
       grow_shard si w = Ok w' ∧ table_ok w' ∧ count_inv w' ∧
       g_shards w' = Some (<[si := sh']> shards) ∧
       shard_entries w sh l ∧ shard_entries w' sh' l' ∧
       l' ≡ₚ l ∧ count sh' = count sh).
Proof.
  intros [bss Hrep] Hroom.
  split; [apply table_ok_count_inv; by exists bss|]. split; [|split; [|split]].
  - intros buf.
    destruct (FindOrCreate_table w bss (hash_of gpr_murmur_hash3 w buf) buf Hrep Hroom)
      as (shards & sh & bs & s & w' & Hs & Hsh & Hbs & Hrun & _ & _ & _ & Hcase).
    exists s, w'. split; [exact Hrun|].
    destruct Hcase as [(Hin & Hrep' & Hss & Htabs & e & He & Hr & Hh)
                      |(Hfresh & bs' & sh' & Hrep' & Hperm & Hss & Hcnt & _)].
    + split; [by exists bss|]. split; [apply table_ok_count_inv; by exists bss|].
      left. split; [|split; [done|]].
      * exists bss. split; [done|]. apply elem_of_concat_concat. eauto.
      * intros shards0 sh0 l Hs0 (k & Hk)%list_elem_of_lookup Hl.
        rewrite Hs in Hs0. injection Hs0 as <-.
        pose proof Hrep as (shards' & Hs' & _ & _ & Hlb & _).
        rewrite Hs in Hs'. injection Hs' as <-.
        destruct (lookup_lt_is_Some_2 bss k) as [bsk Hbsk].
        { rewrite Hlb. by eapply lookup_lt_Some. }
        destruct (table_rep_shard_entries w bss shards k sh0 bsk Hrep Hs Hk Hbsk)
          as [Hl0 _].
        rewrite (shard_entries_functional _ _ _ _ Hl Hl0).
        assert (Hs'' : g_shards w' = Some shards) by congruence.
        by destruct (table_rep_shard_entries w' bss shards k sh0 bsk Hrep' Hs'' Hk Hbsk).
    + split; [by eexists|]. split; [apply table_ok_count_inv; by eexists|].
      right. split.
      * intros Hin. apply (in_table_rep w bss s Hrep) in Hin.
        destruct (table_rep_not_fresh w bss s Hrep Hin) as [? Hx]. congruence.
      * exists shards, (Z.to_nat (SHARD_IDX (hash_of gpr_murmur_hash3 w buf))),
          sh, sh', (concat bs), (concat bs').
        split; [done|]. split; [done|]. split; [done|].
        destruct (table_rep_shard_entries w bss shards _ sh bs Hrep Hs Hsh Hbs)
          as [Hl _].
        split; [done|]. split; [|done].
        eapply (table_rep_shard_entries w' _ _ _ sh' bs' Hrep' Hss).
        -- apply list_lookup_insert_eq. by eapply lookup_lt_Some.
        -- apply list_lookup_insert_eq. by eapply lookup_lt_Some.
  - intros this Hin. apply (in_table_rep w bss this Hrep) in Hin.
    destruct (dtor_in_table w bss this Hrep Hin)
      as (t & shards & sh & bs & l1 & l2 & w' & Ht & Hs & Hsh & Hbs & Hb & Hrun
          & Hrep' & Hss & _).
    exists w'. split; [exact Hrun|].
    split; [by eexists|]. split; [apply table_ok_count_inv; by eexists|].
    eexists shards, (Z.to_nat (SHARD_IDX (e_hash t))), sh, _, (concat bs), _.
    split; [done|]. split; [done|]. split; [exact Hss|].
    destruct (table_rep_shard_entries w bss shards _ sh bs Hrep Hs Hsh Hbs)
      as [Hl _].
    split; [done|]. split; [|split; [|done]].
    + eapply (table_rep_shard_entries w' _ _ _ _ _ Hrep' Hss).
      * apply list_lookup_insert_eq. by eapply lookup_lt_Some.
      * apply list_lookup_insert_eq. by eapply lookup_lt_Some.
    + rewrite (concat_insert _ _ _ _ Hb), (concat_split _ _ _ Hb).
      rewrite <- (Permutation_middle l1 l2 this). simpl.
      by rewrite <- Permutation_middle.
  - intros this w' Hrun. apply (in_table_rep w bss this Hrep).
    by eapply dtor_returns.
  - intros shards si sh Hs Hsh.
    pose proof Hrep as (shards' & Hs' & _ & _ & Hlb & _).
    rewrite Hs in Hs'. injection Hs' as <-.
    destruct (lookup_lt_is_Some_2 bss si) as [bs Hbs].
    { rewrite Hlb. by eapply lookup_lt_Some. }
    destruct (Hroom shards sh Hs) as [Hcap2 _].
    { apply list_elem_of_lookup. eauto. }
    change (2 ^ Z.of_nat 1) with 2 in Hcap2.
    destruct (grow_shard_spec w bss shards si sh bs Hrep Hs Hsh Hbs Hcap2)
      as (h' & nt' & bs' & Hrun & Hrep' & Hperm & _).
    cbn zeta in Hrun, Hrep'.
    eexists _, _, (concat bs), (concat bs').
    split; [exact Hrun|]. split; [by eexists|].
    split; [apply table_ok_count_inv; by eexists|]. split; [done|].
    destruct (table_rep_shard_entries w bss shards _ sh bs Hrep Hs Hsh Hbs)
      as [Hl _].
    split; [done|]. split; [|done].
    eapply (table_rep_shard_entries _ _ _ si _ bs' Hrep' eq_refl).
    + apply list_lookup_insert_eq. by eapply lookup_lt_Some.
    + apply list_lookup_insert_eq. by eapply lookup_lt_Some.
Qed.

(** * Reaching the invariant *)

(** The world after a run from [boot] (or [boot] if the run does not
    return). *)
Definition world_after (ops : list op) : world :=
  match run ops boot with Ok w => w | _ => boot end.

Lemma world_after_run ops w : run ops boot = Ok w → world_after ops = w.
Proof. intros H. unfold world_after. by rewrite H. Qed.

Lemma headroom_check k w :
  match g_shards w with
  | Some shards =>
      forallb (λ sh, (capacity sh * 2 ^ Z.of_nat k <? 2 ^ 64) &&
                     (count sh + Z.of_nat k <? 2 ^ 64)) shards
  | None => true
  end = true →
  headroom k w.
Proof.
  intros Hc shards sh Hs Hin. rewrite Hs in Hc.
  rewrite forallb_forall in Hc. apply list_elem_of_In in Hin.
  specialize (Hc sh Hin). apply andb_true_iff in Hc as [H1 H2]. lia.
Qed.

(** [init] sets up the invariant, with room for 60 creations. *)
Lemma init_inv tv_nsec w w' :
  grpc_slice_intern_init tv_nsec w = Ok w' →
  intern_inv gpr_murmur_hash3 w' empty_buckets ∧ headroom 60 w'.
Proof.
  intros Hrun.
  destruct (init_spec tv_nsec w) as (w1 & shards & Hrun1 & Hd & _).
  rewrite Hrun1 in Hrun. injection Hrun as <-. clear Hrun1.
  assert (Hempty : ∀ a, a ∉ concat (concat empty_buckets)).
  { intros a (i & ls & Hls & Ha)%elem_of_concat_concat.
    apply lookup_replicate_1 in Hls as [-> _].
    rewrite concat_replicate_nil in Ha. by apply elem_of_nil in Ha. }
  split; [split; [by eapply init_done_rep|split]|].
  - intros a e Ha. by destruct (Hempty a).
  - intros a b ea eb Ha. by destruct (Hempty a).
  - destruct Hd as (Hs & Hlen & Hok & _).
    intros shards' sh Hs' (j & Hj)%list_elem_of_lookup.
    rewrite Hs in Hs'. injection Hs' as <-.
    destruct (Hok j sh) as (Hc & Hcap & _); [|exact Hj|].
    + rewrite <- Hlen. by eapply lookup_lt_Some.
    + rewrite Hc, Hcap. split; reflexivity.
Qed.

(** An interning call keeps the invariant and uses at most one unit of
    room. *)
Lemma intern_keeps_inv k w buf :
  table_inv w → headroom (S k) w →
  ∃ s w', ManagedMemorySlice gpr_murmur_hash3 buf w = Ok (s, w') ∧
          table_inv w' ∧ headroom k w'.
Proof.
  intros [bss Hinv] Hroom.
  assert (Hroom1 : headroom 1 w) by (eapply headroom_le; [|exact Hroom]; lia).
  destruct (live_or_not w bss buf Hinv) as [[a [Hin (e & He & Hb & Hr)]]|Hno].
  - eexists a, _. split; [by apply (intern_found gpr_murmur_hash3 w bss buf a e)|].
    split; [eexists; by apply intern_inv_bump|].
    eapply headroom_same_shards; [|eapply headroom_le; [|exact Hroom]; lia]. done.
  - destruct (intern_created gpr_murmur_hash3 w bss buf Hinv Hno Hroom1)
      as (shards & sh & bs & w' & bs' & sh' & e' & Hs & Hsh & Hbs & Hrun & Hinv'
          & Hperm & Hs' & Hcnt & Hcase & _).
    eexists _, w'. split; [exact Hrun|]. split; [by eexists|].
    destruct (proj1 Hinv) as (shards0 & Hs0 & _ & _ & _ & Hall).
    rewrite Hs in Hs0. injection Hs0 as <-.
    destruct (Hall _ sh bs Hsh Hbs) as [[Hpos _] _ _ _ _].
    eapply headroom_step; eauto.
    destruct (capacity sh * 2 <? count sh + 1); [right|left]; tauto.
Qed.

Lemma run_snoc ops o w w' :
  run ops w = Ok w' → run (ops ++ [o]) w = step o w'.
Proof.
  revert w. induction ops as [|o' ops IH]; intros w H; cbn [app run] in *.
  - injection H as <-. by destruct (step o w).
  - destruct (step o' w) as [w1| | |]; cbn [mbind outcome_bind] in *; try done.
    by apply IH.
Qed.

(** After [init] and up to 60 interning calls the invariant holds. *)
Lemma world_after_interns tv_nsec bufs :
  (length bufs ≤ 60)%nat →
  run (OpInit tv_nsec :: (OpIntern <$> bufs)) boot =
    Ok (world_after (OpInit tv_nsec :: (OpIntern <$> bufs))) ∧
  table_inv (world_after (OpInit tv_nsec :: (OpIntern <$> bufs))) ∧
  headroom (60 - length bufs) (world_after (OpInit tv_nsec :: (OpIntern <$> bufs))).
Proof.
  induction bufs as [|buf bufs IH] using rev_ind; intros Hlen.
  - destruct (init_spec tv_nsec boot) as (w' & shards & Hrun & _).
    assert (Hr : run [OpInit tv_nsec] boot = Ok w').
    { cbn [run]. rewrite step_init, Hrun. reflexivity. }
    cbn [fmap list_fmap]. rewrite (world_after_run _ _ Hr).
    destruct (init_inv tv_nsec boot w' Hrun) as [Hinv Hroom].
    split; [exact Hr|]. split; [exists empty_buckets; exact Hinv|exact Hroom].
  - rewrite length_app in Hlen. cbn [length] in Hlen.
    destruct IH as (Hr & Hinv & Hroom); [lia|].
    rewrite fmap_app. cbn [fmap list_fmap].
    rewrite app_comm_cons.
    set (ops := OpInit tv_nsec :: (OpIntern <$> bufs)) in *.
    replace (60 - length bufs)%nat with (S (60 - length (bufs ++ [buf]))) in Hroom
      by (rewrite length_app; cbn [length]; lia).
    destruct (intern_keeps_inv _ _ buf Hinv Hroom) as (s & w' & Hrun & Hinv' & Hroom').
    assert (Hr' : run (ops ++ [OpIntern buf]) boot = Ok w').
    { rewrite (run_snoc _ _ _ _ Hr), step_intern, Hrun. reflexivity. }
    rewrite (world_after_run _ _ Hr').
    split; [exact Hr'|]. split; [exact Hinv'|exact Hroom'].
Qed.

End Claims.


(** * Further properties of the code *)

(** ** The index macros *)

Lemma SHARD_IDX_mod hash : SHARD_IDX hash = hash mod 32.
Proof.
  unfold SHARD_IDX, LOG2_SHARD_COUNT.
  change (Z.shiftl 1 5 - 1) with (Z.ones 5).
  rewrite Z.land_ones by lia. reflexivity.
Qed.

Lemma TABLE_IDX_div hash cap : TABLE_IDX hash cap = (hash / 32) mod cap.
Proof.
  unfold TABLE_IDX, LOG2_SHARD_COUNT. rewrite Z.shiftr_div_pow2 by lia.
  reflexivity.
Qed.

Lemma TABLE_IDX_double hash cap :
  0 < cap →
  TABLE_IDX hash (cap * 2) = TABLE_IDX hash cap ∨
  TABLE_IDX hash (cap * 2) = TABLE_IDX hash cap + cap.
Proof.
  intros Hc. rewrite !TABLE_IDX_div. set (x := hash / 32).
  rewrite Z.rem_mul_r by lia.
  assert (H := Z.mod_pos_bound (x / cap) 2 ltac:(lia)).
  destruct (decide ((x / cap) mod 2 = 0)) as [->|Hne]; [left; lia|].
  right. replace ((x / cap) mod 2) with 1 by lia. lia.
Qed.

(** The entries on the chain of bucket [i] of a shard. *)
Definition on_bucket (w : world) (sh : slice_shard) (i : nat) (a : loc) : Prop :=
  ∃ arr p l,
    tabs w !! strs sh = Some arr ∧ arr !! i = Some p ∧
    chain (heap w) p l ∧ a ∈ l.

Lemma on_bucket_rep h t si sh bs w (i : nat) a :
  heap w = h → tabs w = t →
  shard_rep h t si sh bs →
  on_bucket w sh i a ↔ ∃ b, bs !! i = Some b ∧ a ∈ b.
Proof.
  intros <- <- [_ (arr & Harr & Hlen & HF) _ _ _]. split.
  - intros (arr' & p & l & Harr' & Hp & Hc & Ha).
    rewrite Harr in Harr'; injection Harr' as <-.
    destruct (Forall2_lookup_l _ _ _ _ _ HF Hp) as (b & Hb & Hcb).
    exists b. split; [exact Hb|]. by rewrite (chain_functional _ _ _ _ Hcb Hc).
  - intros (b & Hb & Ha).
    destruct (Forall2_lookup_r _ _ _ _ _ HF Hb) as (p & Hp & Hc).
    by exists arr, p, b.
Qed.

(** X1.  The two index macros stay inside their arrays and read disjoint
    bits of the hash: the shard index is below 32, the bucket index is below
    the capacity, and the hash is the shifted part times 32 plus the shard
    index. *)
Theorem index_macros_in_range hash cap :
  0 < cap →
  0 ≤ SHARD_IDX hash < SHARD_COUNT ∧
  0 ≤ TABLE_IDX hash cap < cap ∧
  hash = Z.shiftr hash LOG2_SHARD_COUNT * SHARD_COUNT + SHARD_IDX hash.
Proof.
  intros Hc. split; [apply SHARD_IDX_range|]. split; [by apply TABLE_IDX_range|].
  rewrite SHARD_IDX_mod. unfold SHARD_COUNT, LOG2_SHARD_COUNT.
  rewrite Z.shiftr_div_pow2 by lia. change (Z.shiftl 1 5) with 32.
  change (2 ^ 5) with 32. pose proof (Z.div_mod hash 32 ltac:(lia)). lia.
Qed.

(** X2.  Growth splits buckets: an entry on the chain of bucket [i] of a
    shard of capacity [c] is, after [grow_shard], on the chain of bucket [i]
    or of bucket [i + c] of the grown shard. *)
Theorem growth_splits_buckets w shards (si : nat) sh (i : nat) a :
  table_ok w → g_shards w = Some shards → shards !! si = Some sh →
  capacity sh * 2 < 2 ^ 64 →
  on_bucket w sh i a →
  ∃ w' sh',
    grow_shard si w = Ok w' ∧
    g_shards w' = Some (<[si := sh']> shards) ∧
    capacity sh' = capacity sh * 2 ∧
    (on_bucket w' sh' i a ∨
     on_bucket w' sh' (i + Z.to_nat (capacity sh)) a).
Proof.
  intros [bss Hrep] Hs Hsh Hcap Hon.
  assert (Hsi : (si < Z.to_nat SHARD_COUNT)%nat).
  { destruct Hrep as (shards' & Hs' & Hlen & _). rewrite Hs in Hs'.
    injection Hs' as <-. rewrite <- Hlen. by eapply lookup_lt_Some. }
  destruct (table_rep_lookup _ _ _ _ Hrep Hs Hsi) as (sh0 & bs & Hsh0 & Hbs & Hsrep).
  rewrite Hsh in Hsh0; injection Hsh0 as <-.
  destruct (grow_shard_spec _ _ _ _ _ _ Hrep Hs Hsh Hbs Hcap)
    as (h' & nt' & bs' & Hrun & Hrep' & Hperm & Hrel & _).
  cbn zeta in Hrun, Hrep'.
  set (sh' := mkShard (fresh (dom (tabs w))) (count sh) (capacity sh * 2)) in *.
  set (w' := mkWorld h' _ _ _ _ _) in *.
  exists w', sh'. split; [exact Hrun|]. split; [reflexivity|]. split; [reflexivity|].
  apply (on_bucket_rep _ _ _ _ _ w i a eq_refl eq_refl Hsrep) in Hon
    as (b & Hb & Hab).
  destruct (rep_placed _ _ _ _ _ Hsrep i b a Hb Hab) as (e & He & _ & Hidx).
  assert (Hsh' : <[si := sh']> shards !! si = Some sh').
  { apply list_lookup_insert_eq. by eapply lookup_lt_Some. }
  assert (Hbs' : <[si := bs']> bss !! si = Some bs').
  { apply list_lookup_insert_eq. by eapply lookup_lt_Some. }
  destruct Hrep' as (shards' & Hs' & _ & _ & _ & Hall).
  injection Hs' as <-.
  pose proof (Hall si sh' bs' Hsh' Hbs') as Hsrep'.
  assert (Ha' : a ∈ concat bs').
  { rewrite Hperm. apply elem_of_concat. by exists i, b. }
  apply elem_of_concat in Ha' as (j & b' & Hj & Hab').
  destruct (rep_placed _ _ _ _ _ Hsrep' j b' a Hj Hab') as (e' & He' & _ & Hidx').
  destruct (relinked_lookup _ _ _ _ Hrel He) as (e'' & He'' & Her).
  cbn [heap w'] in He'. rewrite He'' in He'; injection He' as ->.
  assert (Hh : e_hash e' = e_hash e) by (by apply (f_equal e_hash) in Her).
  rewrite Hh in Hidx'. cbn [capacity sh'] in Hidx'.
  pose proof (rep_cap _ _ _ _ _ Hsrep) as Hc.
  assert (Hon' : on_bucket w' sh' j a).
  { apply (on_bucket_rep _ _ _ _ _ w' j a eq_refl eq_refl Hsrep'). by exists b'. }
  destruct (TABLE_IDX_double (e_hash e) (capacity sh)) as [Hd|Hd]; [lia| |].
  - left. replace i with j by lia. exact Hon'.
  - right. replace (i + Z.to_nat (capacity sh))%nat with j by lia. exact Hon'.
Qed.

(** ** The destructor and the invariant *)

Lemma table_rep_bucket_NoDup w bss shards (si : nat) sh bs (i : nat) b :
  table_rep w bss → g_shards w = Some shards →
  shards !! si = Some sh → bss !! si = Some bs → bs !! i = Some b → NoDup b.
Proof.
  intros (shards' & Hs' & _ & _ & _ & Hall) Hs Hsh Hbs Hb.
  rewrite Hs in Hs'; injection Hs' as <-.
  destruct (Hall si sh bs Hsh Hbs) as [_ (arr & _ & _ & HF) _ _ _].
  destruct (Forall2_lookup_r _ _ _ _ _ HF Hb) as (p & _ & Hc).
  by eapply chain_NoDup.
Qed.

Lemma table_rep_shard_of w bss (sj : nat) bs a :
  table_rep w bss → bss !! sj = Some bs → a ∈ concat bs →
  ∃ e, heap w !! a = Some e ∧ Z.to_nat (SHARD_IDX (e_hash e)) = sj.
Proof.
  intros (shards & Hs & _ & _ & Hlen & Hall) Hbs Ha.
  assert (Hsh : is_Some (shards !! sj)).
  { apply lookup_lt_is_Some_2. rewrite <- Hlen. by eapply lookup_lt_Some. }
  destruct Hsh as [sh Hsh].
  destruct (placed_elem _ _ _ _ _ (rep_placed _ _ _ _ _ (Hall sj sh bs Hsh Hbs)) Ha)
    as (e & He & Hok & _).
  by exists e.
Qed.

Lemma elem_of_middle {A} (a x : A) (l1 l2 : list A) :
  a ∈ l1 ++ x :: l2 ↔ a = x ∨ a ∈ l1 ++ l2.
Proof. rewrite !elem_of_app, elem_of_cons. tauto. Qed.

(** What the table holds after a destructor call: what it held, but for
    the destroyed entry. *)
Lemma dtor_table w bss this w' :
  table_rep w bss → InternedSliceRefcount_dtor this w = Ok w' →
  ∃ bss',
    table_rep w' bss' ∧ relinked (heap w) (heap w') ∧ same_seed w w' ∧
    log w' = log w ∧
    ∀ a, a ∈ concat (concat bss') ↔ a ∈ concat (concat bss) ∧ a ≠ this.
Proof.
  intros Hrep Hrun.
  pose proof (dtor_returns _ _ _ _ Hrep Hrun) as Hin.
  destruct (dtor_in_table _ _ _ Hrep Hin)
    as (t & shards & sh & bs & l1 & l2 & w0 & Ht & Hs & Hsh & Hbs & Hb & Hrun0 &
        Hrep' & _ & Hrel & Hseed & Hflag & Hlog).
  cbn zeta in *. rewrite Hrun in Hrun0; injection Hrun0 as <-.
  set (si := Z.to_nat (SHARD_IDX (e_hash t))) in *.
  set (i := Z.to_nat (TABLE_IDX (e_hash t) (capacity sh))) in *.
  eexists. split; [exact Hrep'|]. split; [exact Hrel|].
  split; [by split|]. split; [exact Hlog|].
  pose proof (table_rep_bucket_NoDup _ _ _ _ _ _ _ _ Hrep Hs Hsh Hbs Hb) as Hnd.
  apply NoDup_app in Hnd as (_ & Hnd1 & Hnd2). apply NoDup_cons in Hnd2 as [Hnd2 _].
  assert (Hpl : placed (heap w) si (capacity sh) bs).
  { destruct Hrep as (shards' & Hs' & _ & _ & _ & Hall).
    rewrite Hs in Hs'; injection Hs' as <-.
    apply (rep_placed _ _ _ _ _ (Hall si sh bs Hsh Hbs)). }
  intros a. rewrite !elem_of_concat_concat. split.
  - intros (sj & bs0 & Hbs0 & Ha).
    destruct (decide (sj = si)) as [->|Hne].
    + rewrite list_lookup_insert_eq in Hbs0 by (by eapply lookup_lt_Some).
      injection Hbs0 as <-.
      apply elem_of_concat in Ha as (j & b & Hj & Ha).
      destruct (decide (j = i)) as [->|Hji].
      * rewrite list_lookup_insert_eq in Hj by (by eapply lookup_lt_Some).
        injection Hj as <-. split.
        -- exists si, bs. split; [done|]. apply elem_of_concat.
           exists i, (l1 ++ this :: l2). split; [done|].
           apply elem_of_middle. by right.
        -- intros ->. apply elem_of_app in Ha as [Ha|Ha]; [|done].
           by apply (Hnd1 this); [|left].
      * rewrite list_lookup_insert_ne in Hj by done. split.
        -- exists si, bs. split; [done|]. apply elem_of_concat. by exists j, b.
        -- intros ->.
           pose proof (placed_bucket _ _ _ _ _ _ _ _ Hpl Hj Ha Ht) as H1.
           assert (H2 : TABLE_IDX (e_hash t) (capacity sh) = Z.of_nat i).
           { eapply placed_bucket; [exact Hpl|exact Hb| |exact Ht].
             apply elem_of_middle. by left. }
           lia.
    + rewrite list_lookup_insert_ne in Hbs0 by done. split.
      * by exists sj, bs0.
      * intros ->.
        destruct (table_rep_shard_of _ _ _ _ _ Hrep Hbs0 Ha) as (e & He & Hsj).
        rewrite Ht in He; injection He as <-. by apply Hne.
  - intros [(sj & bs0 & Hbs0 & Ha) Hne].
    destruct (decide (sj = si)) as [->|Hsj].
    + rewrite Hbs in Hbs0; injection Hbs0 as <-.
      exists si. eexists. split.
      { apply list_lookup_insert_eq. by eapply lookup_lt_Some. }
      apply elem_of_concat in Ha as (j & b & Hj & Ha). apply elem_of_concat.
      destruct (decide (j = i)) as [->|Hji].
      * exists i, (l1 ++ l2). split.
        { apply list_lookup_insert_eq. by eapply lookup_lt_Some. }
        rewrite Hb in Hj; injection Hj as <-.
        by apply elem_of_middle in Ha as [->|Ha].
      * exists j, b. split; [|done]. by rewrite list_lookup_insert_ne.
    + exists sj, bs0. split; [|done]. by rewrite list_lookup_insert_ne.
Qed.

Lemma dtor_table_length w bss this w' bss' :
  table_rep w bss → InternedSliceRefcount_dtor this w = Ok w' →
  table_rep w' bss' →
  length (concat (concat bss)) = S (length (concat (concat bss'))).
Proof.
  intros Hrep Hrun Hrep'.
  pose proof (dtor_returns _ _ _ _ Hrep Hrun) as Hin.
  destruct (dtor_in_table _ _ _ Hrep Hin)
    as (t & shards & sh & bs & l1 & l2 & w0 & Ht & Hs & Hsh & Hbs & Hb & Hrun0 &
        Hrep0 & _).
  cbn zeta in *. rewrite Hrun in Hrun0; injection Hrun0 as <-.
  rewrite (table_rep_functional _ _ _ Hrep' Hrep0).
  destruct (entries_insert bss _ bs
              (<[Z.to_nat (TABLE_IDX (e_hash t) (capacity sh)) := l1 ++ l2]> bs) Hbs)
    as [-> ->].
  rewrite (concat_split bs _ _ Hb), (concat_insert bs _ _ (l1 ++ l2) Hb).
  rewrite !length_app. cbn [length]. lia.
Qed.

Lemma dtor_headroom k w bss this w' :
  table_rep w bss → InternedSliceRefcount_dtor this w = Ok w' →
  headroom k w → headroom k w'.
Proof.
  intros Hrep Hrun Hroom.
  pose proof (dtor_returns _ _ _ _ Hrep Hrun) as Hin.
  destruct (dtor_in_table _ _ _ Hrep Hin)
    as (t & shards & sh & bs & l1 & l2 & w0 & Ht & Hs & Hsh & Hbs & Hb & Hrun0 &
        Hrep0 & Hs0 & _).
  cbn zeta in *. rewrite Hrun in Hrun0; injection Hrun0 as <-.
  assert (Hcnt : 0 < count sh).
  { destruct Hrep as (shards' & Hs' & _ & _ & _ & Hall).
    rewrite Hs in Hs'; injection Hs' as <-.
    rewrite (rep_count _ _ _ _ _ (Hall _ sh bs Hsh Hbs)).
    rewrite (concat_split bs _ _ Hb), !length_app. cbn [length]. lia. }
  intros shards' sh' Hs' Hin'. rewrite Hs0 in Hs'; injection Hs' as <-.
  apply list_elem_of_lookup in Hin' as [j Hj].
  destruct (Hroom shards sh Hs) as [H1 H2]; [by eapply list_elem_of_lookup_2|].
  destruct (decide (j = Z.to_nat (SHARD_IDX (e_hash t)))) as [->|Hne].
  - rewrite list_lookup_insert_eq in Hj by (by eapply lookup_lt_Some).
    injection Hj as <-. cbn [capacity count]. lia.
  - rewrite list_lookup_insert_ne in Hj by done.
    apply (Hroom shards sh' Hs). by eapply list_elem_of_lookup_2.
Qed.

Section More.

Variable gpr_murmur_hash3 : list byte → Z → Z.
Variable grpc_dump_slice : list byte → Z → string.
Variables GPR_DUMP_HEX GPR_DUMP_ASCII : Z.

Lemma dtor_intern_inv w bss this w' :
  intern_inv gpr_murmur_hash3 w bss → InternedSliceRefcount_dtor this w = Ok w' →
  ∃ bss',
    intern_inv gpr_murmur_hash3 w' bss' ∧ relinked (heap w) (heap w') ∧
    ∀ a, a ∈ concat (concat bss') ↔ a ∈ concat (concat bss) ∧ a ≠ this.
Proof.
  intros (Hrep & Hhash & Huniq) Hrun.
  destruct (dtor_table _ _ _ _ Hrep Hrun)
    as (bss' & Hrep' & Hrel & [Hseed _] & _ & Hmem).
  exists bss'. split; [|by split]. split; [exact Hrep'|]. split.
  - intros a e' Ha He'.
    destruct (relinked_lookup _ _ _ _ (relinked_sym _ _ Hrel) He')
      as (e & He & Her).
    destruct (erase_fields _ _ Her) as (_ & _ & Hh & Hb).
    rewrite <- Hh, <- Hb. unfold hash_of. rewrite Hseed.
    apply (Hhash a e); [by apply Hmem|exact He].
  - intros a b ea' eb' Ha Hb Hea Heb Hra Hrb Hbytes.
    destruct (relinked_lookup _ _ _ _ (relinked_sym _ _ Hrel) Hea)
      as (ea & Hea0 & Hera).
    destruct (relinked_lookup _ _ _ _ (relinked_sym _ _ Hrel) Heb)
      as (eb & Heb0 & Herb).
    destruct (erase_fields _ _ Hera) as (_ & Hr1 & _ & Hb1).
    destruct (erase_fields _ _ Herb) as (_ & Hr2 & _ & Hb2).
    apply (Huniq a b ea eb); [by apply Hmem|by apply Hmem|done|done|
                              congruence|congruence|congruence].
Qed.

(** X3.  The destructor keeps the invariant of the table.  A call that
    returns was given an entry of the table; afterwards the table is well
    formed, holds every other entry and not this one, finds by content what
    it found before but for this entry, and no entry's length, count, hash
    or bytes have changed. *)
Theorem destroy_keeps_invariant w this w' :
  table_inv gpr_murmur_hash3 w →
  InternedSliceRefcount_dtor this w = Ok w' →
  table_inv gpr_murmur_hash3 w' ∧
  in_table w this ∧ ¬ in_table w' this ∧
  (∀ a, a ≠ this → in_table w' a ↔ in_table w a) ∧
  (∀ buf a, findable gpr_murmur_hash3 w' buf a ↔
            findable gpr_murmur_hash3 w buf a ∧ a ≠ this) ∧
  (∀ a e, heap w !! a = Some e →
     ∃ e', heap w' !! a = Some e' ∧ erase e' = erase e).
Proof.
  intros [bss Hinv] Hrun.
  destruct (dtor_intern_inv _ _ _ _ Hinv Hrun) as (bss' & Hinv' & Hrel & Hmem).
  pose proof (proj1 Hinv) as Hrep. pose proof (proj1 Hinv') as Hrep'.
  split; [by exists bss'|].
  split; [apply (in_table_rep _ _ _ Hrep); by eapply dtor_returns|].
  split; [rewrite (in_table_rep _ _ _ Hrep'), Hmem; tauto|].
  split; [|split].
  - intros a Hne. rewrite (in_table_rep _ _ _ Hrep'), (in_table_rep _ _ _ Hrep), Hmem.
    tauto.
  - intros buf a.
    rewrite (findable_iff _ _ _ _ _ Hinv'), (findable_iff _ _ _ _ _ Hinv).
    unfold live_entry. rewrite Hmem. split.
    + intros [[Ha Hne] (e' & He' & Hb & Hr)]. split; [|done]. split; [done|].
      destruct (relinked_lookup _ _ _ _ (relinked_sym _ _ Hrel) He')
        as (e & He & Her).
      destruct (erase_fields _ _ Her) as (_ & Hr1 & _ & Hb1).
      exists e. split; [done|]. split; congruence.
    + intros [[Ha (e & He & Hb & Hr)] Hne]. split; [done|].
      destruct (relinked_lookup _ _ _ _ Hrel He) as (e' & He' & Her).
      destruct (erase_fields _ _ Her) as (_ & Hr1 & _ & Hb1).
      exists e'. split; [done|]. split; congruence.
  - intros a e He. by apply (relinked_lookup _ _ _ _ Hrel He).
Qed.


(** Dropping the count of an entry to zero keeps the invariant. *)
Lemma intern_inv_dead w bss a e :
  intern_inv gpr_murmur_hash3 w bss → heap w !! a = Some e →
  intern_inv gpr_murmur_hash3 (set_heap (<[a := set_refcnt 0 e]> (heap w)) w) bss.
Proof.
  intros (Hrep & Hhash & Huniq) He. split; [|split].
  - by apply (table_rep_update w bss a e).
  - intros b eb Hb Heb. cbn [heap set_heap] in Heb.
    unfold hash_of. cbn [g_hash_seed set_heap].
    destruct (decide (b = a)) as [->|Hne].
    + rewrite lookup_insert_eq in Heb. injection Heb as <-.
      apply (Hhash a e Hb He).
    + rewrite lookup_insert_ne in Heb by done. apply (Hhash b eb Hb Heb).
  - intros b c eb ec Hb Hc Heb Hec Hrb Hrc Hbytes. cbn [heap set_heap] in Heb, Hec.
    destruct (decide (b = a)) as [->|Hnb].
    { rewrite lookup_insert_eq in Heb. injection Heb as <-. by destruct Hrb. }
    destruct (decide (c = a)) as [->|Hnc].
    { rewrite lookup_insert_eq in Hec. injection Hec as <-. by destruct Hrc. }
    rewrite lookup_insert_ne in Heb by done. rewrite lookup_insert_ne in Hec by done.
    by apply (Huniq b c eb ec).
Qed.

(** X5.  Reclamation.  Take an entry of the table that holds a content,
    whatever its count (zero, as when its last reference was dropped, or
    not), such that no other live entry holds that content.  Once its
    destructor has returned, interning the content creates an entry: newly
    allocated, with count 1 and the bytes of the input.  The table then
    holds the new entry and the entries it held before the destructor call
    other than the destroyed one, and so as many entries as before the two
    calls. *)
Theorem reintern_after_destroy w buf a e w1 :
  table_inv gpr_murmur_hash3 w → headroom 1 w →
  heap w !! a = Some e → e_bytes e = buf →
  (∀ b, live_in_table w buf b → b = a) →
  InternedSliceRefcount_dtor a w = Ok w1 →
  ∃ s w2 e',
    ManagedMemorySlice gpr_murmur_hash3 buf w1 = Ok (s, w2) ∧
    heap w1 !! s = None ∧
    heap w2 !! s = Some e' ∧ e_bytes e' = buf ∧ e_refcnt e' = 1 ∧
    table_inv gpr_murmur_hash3 w2 ∧
    (∀ b, in_table w2 b ↔ b = s ∨ (in_table w b ∧ b ≠ a)) ∧
    ∀ n, table_size w n → table_size w2 n.
Proof.
  intros [bss Hinv] Hroom Hea Hba Honly Hrun.
  pose proof (proj1 Hinv) as Hrep.
  destruct (dtor_intern_inv _ _ _ _ Hinv Hrun) as (bss1 & Hinv1 & Hrel & Hmem).
  pose proof (proj1 Hinv1) as Hrep1.
  pose proof (dtor_headroom 1 _ _ _ _ Hrep Hrun Hroom) as Hroom1.
  assert (Hnone : ∀ b, ¬ live_entry w1 bss1 buf b).
  { intros b [Hb (eb' & Heb' & Hbb & Hrb)]. apply Hmem in Hb as [Hb Hne].
    destruct (relinked_lookup _ _ _ _ (relinked_sym _ _ Hrel) Heb')
      as (eb & Heb & Her).
    destruct (erase_fields _ _ Her) as (_ & Hr1 & _ & Hb1).
    apply Hne. apply Honly. apply (live_in_table_iff _ _ _ _ Hrep).
    split; [done|]. exists eb. split; [done|]. split; congruence. }
  destruct (intern_created _ _ _ _ Hinv1 Hnone Hroom1)
    as (shards & sh & bs & w2 & bs' & sh' & e' & Hs & Hsh & Hbs & Hrun2 & Hinv2 &
        Hperm & _ & _ & _ & Hfresh & He' & Her' & _).
  cbn zeta in *. set (s := fresh (dom (heap w1))) in *.
  set (si := Z.to_nat (SHARD_IDX (hash_of gpr_murmur_hash3 w1 buf))) in *.
  pose proof (proj1 Hinv2) as Hrep2.
  pose proof (entries_insert_cons bss1 si bs bs' s Hbs Hperm) as Hall.
  exists s, w2, e'. split; [exact Hrun2|].
  split; [exact Hfresh|]. split; [exact He'|].
  split; [by apply (f_equal e_bytes) in Her'|].
  split; [by apply (f_equal e_refcnt) in Her'|].
  split; [by eexists|].
  split.
  - intros b.
    rewrite (in_table_rep _ _ _ Hrep2), (in_table_rep _ _ _ Hrep), Hall.
    rewrite elem_of_cons, Hmem. reflexivity.
  - intros n (bss0 & Hrep0 & ->).
    rewrite (table_rep_functional _ _ _ Hrep0 Hrep).
    eexists. split; [exact Hrep2|]. rewrite Hall. cbn [length].
    by rewrite (dtor_table_length _ _ _ _ _ Hrep Hrun Hrep1).
Qed.

Lemma set_refcnt_same e : set_refcnt (e_refcnt e) e = e.
Proof. by destruct e. Qed.

Lemma set_refcnt_twice r r' e : set_refcnt r (set_refcnt r' e) = set_refcnt r e.
Proof. by destruct e. Qed.

Lemma set_heap_twice h h' w : set_heap h (set_heap h' w) = set_heap h w.
Proof. by destruct w. Qed.

Lemma table_rep_entry_ok w bss a e :
  table_rep w bss → a ∈ concat (concat bss) → heap w !! a = Some e →
  ∃ si, entry_ok si e.
Proof.
  intros (shards & Hs & _ & _ & Hlen & Hall) Ha He.
  apply elem_of_concat_concat in Ha as (sj & bs & Hbs & Ha).
  assert (Hsh : is_Some (shards !! sj)).
  { apply lookup_lt_is_Some_2. rewrite <- Hlen. by eapply lookup_lt_Some. }
  destruct Hsh as [sh Hsh].
  destruct (placed_elem _ _ _ _ _ (rep_placed _ _ _ _ _ (Hall sj sh bs Hsh Hbs)) Ha)
    as (e0 & He0 & Hok).
  rewrite He in He0; injection He0 as <-. by exists sj.
Qed.

(** [n] interning calls in a row for one content, with the entries they
    return. *)
Fixpoint intern_times (n : nat) (buf : list byte) (w : world)
    : outcome (list loc * world) :=
  match n with
  | O => Ok ([], w)
  | S n' =>
      '(s, w1) ← ManagedMemorySlice gpr_murmur_hash3 buf w;
      '(l, w2) ← intern_times n' buf w1;
      Ok (s :: l, w2)
  end.

(** X6.  The count of an entry counts the interning calls: [n] calls for a
    content that a live entry of the table holds return that entry every
    time, raise its count by [n] and change nothing else. *)
Theorem refcount_counts_interns (n : nat) : ∀ w buf a e,
  table_inv gpr_murmur_hash3 w → live_in_table w buf a →
  heap w !! a = Some e →
  intern_times n buf w =
    Ok (replicate n a,
        set_heap (<[a := set_refcnt (e_refcnt e + Z.of_nat n) e]> (heap w)) w).
Proof.
  induction n as [|n IH]; intros w buf a e [bss Hinv] Hlive He.
  - cbn [replicate intern_times].
    rewrite Z.add_0_r, set_refcnt_same, insert_id by done.
    by rewrite set_heap_same.
  - pose proof (proj1 Hinv) as Hrep.
    pose proof Hlive as Hlive0.
    apply (live_in_table_iff _ _ _ _ Hrep) in Hlive as [Ha (e0 & He0 & Hb & Hr)].
    rewrite He in He0; injection He0 as <-.
    cbn [replicate intern_times].
    rewrite (intern_found _ _ _ _ _ _ Hinv Ha He Hb Hr).
    cbn [mbind outcome_bind].
    set (e1 := set_refcnt (e_refcnt e + 1) e).
    set (w1 := set_heap (<[a := e1]> (heap w)) w).
    pose proof (intern_inv_bump _ _ _ _ _ Hinv Ha He Hr) as Hinv1.
    fold e1 w1 in Hinv1.
    assert (He1 : heap w1 !! a = Some e1).
    { unfold w1. cbn [heap set_heap]. apply lookup_insert_eq. }
    assert (Hlive1 : live_in_table w1 buf a).
    { apply (live_in_table_iff _ _ _ _ (proj1 Hinv1)). split; [done|].
      exists e1. split; [done|]. split; [done|].
      unfold e1. cbn [e_refcnt set_refcnt].
      destruct (table_rep_entry_ok _ _ _ _ Hrep Ha He) as (si & _ & _ & Hpos). lia. }
    rewrite (IH w1 buf a e1 (ex_intro _ bss Hinv1) Hlive1 He1).
    cbn [mbind outcome_bind]. do 2 f_equal.
    unfold w1. rewrite set_heap_twice. cbn [heap set_heap].
    rewrite insert_insert_eq. unfold e1. rewrite set_refcnt_twice.
    cbn [e_refcnt set_refcnt]. do 3 f_equal. lia.
Qed.

(** X7.  Without a table there is no service: while [g_shards] is null, as
    it is before the first [init], interning, destroying an entry and
    shutting down all read through the null pointer. *)
Theorem no_table_no_service w :
  g_shards w = None →
  (∀ buf, ManagedMemorySlice gpr_murmur_hash3 buf w = Fault NullDeref) ∧
  (∀ this t, heap w !! this = Some t →
     InternedSliceRefcount_dtor this w = Fault NullDeref) ∧
  (∀ abort,
     grpc_slice_intern_shutdown grpc_dump_slice GPR_DUMP_HEX GPR_DUMP_ASCII
       abort w = Fault NullDeref).
Proof.
  intros Hs. split; [|split].
  - intros buf. unfold ManagedMemorySlice, FindOrCreateInternedSlice, read_shard.
    by rewrite Hs.
  - intros this t Ht. unfold InternedSliceRefcount_dtor, read_shard.
    rewrite Ht, Hs. reflexivity.
  - intros abort. unfold grpc_slice_intern_shutdown.
    change (Z.to_nat SHARD_COUNT) with 32%nat. cbn [shutdown_shards].
    unfold read_shard. by rewrite Hs.
Qed.

Lemma init_shards_tabs n : ∀ (i : nat) w w',
  init_shards n i w = Ok w' →
  tabs w ⊆ tabs w' ∧ size (tabs w') = (size (tabs w) + n)%nat.
Proof.
  induction n as [|n IH]; intros i w w' Hrun.
  - cbn [init_shards] in Hrun. injection Hrun as <-. split; [done|lia].
  - cbn [init_shards] in Hrun. unfold gpr_zalloc in Hrun.
    apply bind_Ok_inv in Hrun as (w2 & Hw2 & Hrun).
    unfold write_shard in Hw2. cbn [g_shards set_tabs] in Hw2.
    apply bind_Ok_inv in Hw2 as (shards & _ & Hw2).
    apply bind_Ok_inv in Hw2 as (sh & _ & Hw2). injection Hw2 as <-.
    apply IH in Hrun as [Hsub Hsize]. cbn [tabs set_shards set_tabs] in Hsub, Hsize.
    assert (Hfresh : tabs w !! fresh (dom (tabs w)) = None).
    { apply not_elem_of_dom. apply is_fresh. }
    split.
    + etrans; [|exact Hsub]. by apply insert_subseteq.
    + rewrite Hsize, map_size_insert_None by done. lia.
Qed.

Lemma init_unfold tv_nsec w :
  grpc_slice_intern_init tv_nsec w =
    init_shards (Z.to_nat SHARD_COUNT) 0%nat
      (mkWorld (heap w) (tabs w) (Some new_shards)
         (if g_forced_hash_seed w then g_hash_seed w else uint32 tv_nsec)
         (g_forced_hash_seed w) (log w)).
Proof. unfold grpc_slice_intern_init. reflexivity. Qed.

(** X8.  [init] does not look at the state it finds: whatever table there
    was, it allocates 32 new arrays and frees none (the arrays of the old
    table stay allocated, and so do the entries), and the table it leaves is
    well formed and empty: no content is found in it. *)
Theorem init_discards_old_table tv_nsec w :
  ∃ w',
    grpc_slice_intern_init tv_nsec w = Ok w' ∧
    tabs w ⊆ tabs w' ∧ size (tabs w') = (size (tabs w) + 32)%nat ∧
    heap w' = heap w ∧
    table_inv gpr_murmur_hash3 w' ∧ table_size w' 0 ∧
    (∀ a, ¬ in_table w' a) ∧
    (∀ buf a, ¬ findable gpr_murmur_hash3 w' buf a).
Proof.
  destruct (init_spec tv_nsec w) as (w' & shards & Hrun & _ & Hheap & _).
  destruct (init_inv gpr_murmur_hash3 tv_nsec w w' Hrun) as [Hinv _].
  pose proof (proj1 Hinv) as Hrep.
  assert (Hempty : concat (concat empty_buckets) = []) by reflexivity.
  exists w'. split; [exact Hrun|].
  rewrite init_unfold in Hrun.
  apply init_shards_tabs in Hrun as [Hsub Hsize]. cbn [tabs] in Hsub, Hsize.
  change (Z.to_nat SHARD_COUNT) with 32%nat in Hsize.
  split; [exact Hsub|]. split; [exact Hsize|]. split; [exact Hheap|].
  split; [exists empty_buckets; exact Hinv|].
  split; [exists empty_buckets; split; [exact Hrep|]; by rewrite Hempty|].
  split.
  - intros a. rewrite (in_table_rep _ _ _ Hrep), Hempty. apply not_elem_of_nil.
  - intros buf a. rewrite (findable_iff _ _ _ _ _ Hinv). intros [Ha _].
    rewrite Hempty in Ha. by apply not_elem_of_nil in Ha.
Qed.

(** The operations that may write the seed. *)
Definition writes_seed (o : op) : bool :=
  match o with OpSetSeed _ | OpInit _ => true | _ => false end.

(** X9.  The seed and its flag are written by [init] and by the test-only
    override alone: a run of interning, destructor and shutdown calls
    leaves both as they were. *)
Theorem seed_is_kept_by_other_calls ops : ∀ w w',
  Forall (λ o, writes_seed o = false) ops →
  run gpr_murmur_hash3 grpc_dump_slice GPR_DUMP_HEX GPR_DUMP_ASCII ops w = Ok w' →
  g_hash_seed w' = g_hash_seed w ∧
  g_forced_hash_seed w' = g_forced_hash_seed w.
Proof.
  induction ops as [|o ops IH]; intros w w' Hall Hrun.
  - cbn [run] in Hrun. by injection Hrun as <-.
  - cbn [run] in Hrun. apply bind_Ok_inv in Hrun as (w1 & Hstep & Hrun).
    apply Forall_cons in Hall as [Ho Hall].
    destruct (IH _ _ Hall Hrun) as [H1 H2].
    assert (Hs : same_seed w w1).
    { destruct o as [seed|tv|buf|this|abort]; try discriminate Ho.
      - rewrite step_intern in Hstep.
        apply bind_Ok_inv in Hstep as ([s w2] & Hi & Hw). injection Hw as <-.
        by eapply intern_seed.
      - rewrite step_destroy in Hstep. by eapply dtor_seed.
      - rewrite step_shutdown in Hstep. by eapply shutdown_seed. }
    destruct Hs as [H3 H4]. split; congruence.
Qed.

(** ** The order of the chains *)

(** The chain of bucket [i] of a shard, in order. *)
Definition bucket_chain (w : world) (sh : slice_shard) (i : nat) (l : list loc)
    : Prop :=
  ∃ arr p, tabs w !! strs sh = Some arr ∧ arr !! i = Some p ∧
           chain (heap w) p l.

Lemma bucket_chain_rep w bss shards (si : nat) sh bs (i : nat) l :
  table_rep w bss → g_shards w = Some shards →
  shards !! si = Some sh → bss !! si = Some bs →
  bucket_chain w sh i l ↔ bs !! i = Some l.
Proof.
  intros (shards' & Hs' & _ & _ & _ & Hall) Hs Hsh Hbs.
  rewrite Hs in Hs'; injection Hs' as <-.
  destruct (Hall si sh bs Hsh Hbs) as [_ (arr & Harr & Hlen & HF) _ _ _]. split.
  - intros (arr' & p & Harr' & Hp & Hc).
    rewrite Harr in Harr'; injection Harr' as <-.
    destruct (Forall2_lookup_l _ _ _ _ _ HF Hp) as (b & Hb & Hcb).
    by rewrite (chain_functional _ _ _ _ Hc Hcb).
  - intros Hb.
    destruct (Forall2_lookup_r _ _ _ _ _ HF Hb) as (p & Hp & Hc).
    by exists arr, p.
Qed.

Lemma filter_not_in (this : loc) (l : list loc) :
  this ∉ l → filter (λ a, a ≠ this) l = l.
Proof.
  induction l as [|x l IH]; [done|]. intros Hni.
  apply not_elem_of_cons in Hni as [Hne Hni].
  rewrite filter_cons_True by done. by rewrite IH.
Qed.

Lemma filter_middle (this : loc) (l1 l2 : list loc) :
  NoDup (l1 ++ this :: l2) →
  filter (λ a, a ≠ this) (l1 ++ this :: l2) = l1 ++ l2.
Proof.
  intros Hnd. apply NoDup_app in Hnd as (_ & Hnd1 & Hnd2).
  apply NoDup_cons in Hnd2 as [Hnd2 _].
  rewrite filter_app, filter_cons_False by (by intros H; apply H).
  rewrite !filter_not_in; [done|done|].
  intros Hin. by apply (Hnd1 this); [|left].
Qed.

(** X10.  The destructor takes one node out and leaves every chain in
    order: each chain of the table is, after the call, the chain it was
    without the destroyed entry. *)
Theorem unlink_keeps_chain_order w this w' shards shards' (sj : nat) shj shj'
    (j : nat) l :
  table_ok w →
  InternedSliceRefcount_dtor this w = Ok w' →
  g_shards w = Some shards → g_shards w' = Some shards' →
  shards !! sj = Some shj → shards' !! sj = Some shj' →
  bucket_chain w shj j l →
  bucket_chain w' shj' j (filter (λ a, a ≠ this) l).
Proof.
  intros [bss Hrep] Hrun Hs Hs' Hsh Hsh' Hl.
  pose proof (dtor_returns _ _ _ _ Hrep Hrun) as Hin.
  destruct (dtor_in_table _ _ _ Hrep Hin)
    as (t & shards0 & sh & bs & l1 & l2 & w0 & Ht & Hs0 & Hsh0 & Hbs & Hb & Hrun0 &
        Hrep' & Hs0' & _).
  cbn zeta in *. rewrite Hrun in Hrun0; injection Hrun0 as <-.
  rewrite Hs in Hs0; injection Hs0 as <-.
  set (si := Z.to_nat (SHARD_IDX (e_hash t))) in *.
  set (i := Z.to_nat (TABLE_IDX (e_hash t) (capacity sh))) in *.
  destruct (dtor_table _ _ _ _ Hrep Hrun) as (bss1 & Hrep1 & _ & _ & _ & Hmem).
  rewrite (table_rep_functional _ _ _ Hrep1 Hrep') in Hmem.
  assert (Hbsj : is_Some (bss !! sj)).
  { destruct Hrep as (shards0 & Hs0 & _ & _ & Hlen & _).
    rewrite Hs in Hs0; injection Hs0 as <-.
    apply lookup_lt_is_Some_2. rewrite Hlen. by eapply lookup_lt_Some. }
  destruct Hbsj as [bsj Hbsj].
  apply (bucket_chain_rep _ _ _ _ _ _ _ _ Hrep Hs Hsh Hbsj) in Hl.
  destruct (decide (sj = si)) as [->|Hne].
  - rewrite Hbs in Hbsj; injection Hbsj as <-.
    apply (bucket_chain_rep _ _ _ si _ (<[i := l1 ++ l2]> bs) _ _ Hrep' Hs' Hsh').
    { apply list_lookup_insert_eq. by eapply lookup_lt_Some. }
    destruct (decide (j = i)) as [->|Hji].
    + rewrite Hb in Hl; injection Hl as <-.
      rewrite filter_middle
        by (by eapply (table_rep_bucket_NoDup w bss shards si sh bs i)).
      apply list_lookup_insert_eq. by eapply lookup_lt_Some.
    + rewrite list_lookup_insert_ne by done.
      rewrite filter_not_in; [done|]. intros Hthis.
      apply (proj2 (proj1 (Hmem this)
        ltac:(apply elem_of_concat_concat; exists si; eexists; split;
              [apply list_lookup_insert_eq; by eapply lookup_lt_Some|];
              apply elem_of_concat; exists j, l; split;
              [by rewrite list_lookup_insert_ne|done]))).
      reflexivity.
  - apply (bucket_chain_rep _ _ _ sj _ bsj _ _ Hrep' Hs' Hsh').
    { by rewrite list_lookup_insert_ne. }
    rewrite filter_not_in; [done|]. intros Hthis.
    apply (proj2 (proj1 (Hmem this)
      ltac:(apply elem_of_concat_concat; exists sj, bsj; split;
            [by rewrite list_lookup_insert_ne|];
            apply elem_of_concat; by exists j, l))).
    reflexivity.
Qed.

(** X11.  A creating call that leaves the count at most twice the capacity
    allocates no array: the shard keeps its array and its capacity, and the
    new entry is the head of the selected chain, in front of the entries
    that were on it, in their order. *)
Theorem creation_links_at_head w buf shards sh l :
  table_inv gpr_murmur_hash3 w → headroom 1 w →
  (∀ a, ¬ live_in_table w buf a) →
  g_shards w = Some shards →
  shards !! Z.to_nat (SHARD_IDX (hash_of gpr_murmur_hash3 w buf)) = Some sh →
  bucket_chain w sh
    (Z.to_nat (TABLE_IDX (hash_of gpr_murmur_hash3 w buf) (capacity sh))) l →
  count sh + 1 ≤ capacity sh * 2 →
  ∃ s w',
    ManagedMemorySlice gpr_murmur_hash3 buf w = Ok (s, w') ∧
    g_shards w' =
      Some (<[Z.to_nat (SHARD_IDX (hash_of gpr_murmur_hash3 w buf)) :=
                mkShard (strs sh) (count sh + 1) (capacity sh)]> shards) ∧
    bucket_chain w' (mkShard (strs sh) (count sh + 1) (capacity sh))
      (Z.to_nat (TABLE_IDX (hash_of gpr_murmur_hash3 w buf) (capacity sh)))
      (s :: l).
Proof.
  intros [bss Hinv] Hroom Hnone Hs Hsh Hl Hsmall.
  pose proof (proj1 Hinv) as Hrep.
  assert (Hnone' : ∀ a, ¬ live_entry w bss buf a).
  { intros a Ha. apply (Hnone a). by apply (live_in_table_iff _ _ _ _ Hrep). }
  destruct (intern_created _ _ _ _ Hinv Hnone' Hroom)
    as (shards0 & sh0 & bs & w' & bs' & sh' & e' & Hs0 & Hsh0 & Hbs & Hrun & Hinv' &
        _ & Hs' & Hcnt & Hcase & _).
  cbn zeta in *. rewrite Hs in Hs0; injection Hs0 as <-.
  rewrite Hsh in Hsh0; injection Hsh0 as <-.
  set (si := Z.to_nat (SHARD_IDX (hash_of gpr_murmur_hash3 w buf))) in *.
  set (i := Z.to_nat (TABLE_IDX (hash_of gpr_murmur_hash3 w buf) (capacity sh))) in *.
  destruct (capacity sh * 2 <? count sh + 1) eqn:Hgrow; [lia|].
  destruct Hcase as (Hcap & Hstrs & b & Hb & ->).
  assert (Heq : sh' = mkShard (strs sh) (count sh + 1) (capacity sh)).
  { destruct sh' as [s1 c1 k1]. cbn [strs count capacity] in *. congruence. }
  subst sh'.
  apply (bucket_chain_rep _ _ _ _ _ _ _ _ Hrep Hs Hsh Hbs) in Hl.
  rewrite Hb in Hl; injection Hl as <-.
  exists (fresh (dom (heap w))), w'. split; [exact Hrun|]. split; [exact Hs'|].
  apply (bucket_chain_rep _ _ _ si _ (<[i := fresh (dom (heap w)) :: b]> bs) _ _
           (proj1 Hinv') Hs').
  - apply list_lookup_insert_eq. by eapply lookup_lt_Some.
  - apply list_lookup_insert_eq. by eapply lookup_lt_Some.
  - apply list_lookup_insert_eq. by eapply lookup_lt_Some.
Qed.

(** The calls on an initialised table: interning and destruction. *)
Definition is_table_op (o : op) : bool :=
  match o with OpIntern _ | OpDestroy _ => true | _ => false end.

Lemma run_cons o ops w w' :
  run gpr_murmur_hash3 grpc_dump_slice GPR_DUMP_HEX GPR_DUMP_ASCII (o :: ops) w
    = Ok w' →
  ∃ w1,
    step gpr_murmur_hash3 grpc_dump_slice GPR_DUMP_HEX GPR_DUMP_ASCII o w = Ok w1 ∧
    run gpr_murmur_hash3 grpc_dump_slice GPR_DUMP_HEX GPR_DUMP_ASCII ops w1 = Ok w'.
Proof. cbn [run]. apply bind_Ok_inv. Qed.

(** ** Entries whose count has dropped to zero *)

(** An entry whose count is zero: its last reference is gone and its
    destructor has not unlinked it yet. *)
Definition dead (h : gmap loc InternedSliceRefcount) (c : loc) : Prop :=
  ∃ e, h !! c = Some e ∧ e_refcnt e = 0.

Lemma dead_no_match h hash args c :
  dead h c → live_match h hash args c = false.
Proof.
  intros (e & He & Hr). unfold live_match, entry_matches. rewrite He, Hr.
  apply andb_false_r.
Qed.

(** X13.  The scan never returns an entry whose count is zero, even one
    with the hash and the bytes looked for: it goes on behind it.  What it
    returns had a nonzero count, now one higher; a match behind dead entries
    is found; a chain of dead entries gives null. *)
Theorem dead_entries_are_skipped w hash idx args sh p l :
  read_shard w (Z.to_nat (SHARD_IDX hash)) = Ok sh →
  read_bucket w sh idx = Ok p →
  chain (heap w) p l →
  (∀ a w', MatchInternedSliceLocked hash idx args w = Ok (Some a, w') →
     ∃ e, heap w !! a = Some e ∧ e_refcnt e ≠ 0 ∧
          heap w' !! a = Some (set_refcnt (e_refcnt e + 1) e)) ∧
  (∀ l1 a l2, l = l1 ++ a :: l2 →
     Forall (dead (heap w)) l1 →
     live_match (heap w) hash args a = true →
     MatchInternedSliceLocked hash idx args w =
       Ok (Some a, set_heap (bump a (heap w)) w)) ∧
  (Forall (dead (heap w)) l →
     MatchInternedSliceLocked hash idx args w = Ok (None, w)).
Proof.
  intros Hsh Hp Hc. rewrite (Match_run w hash idx args sh p l Hsh Hp Hc).
  split; [|split].
  - intros a w' Hrun.
    destruct (find _ l) as [a'|] eqn:Hf; [|done]. injection Hrun as -> <-.
    destruct (find_live_match _ _ _ _ _ Hf) as (_ & e & He & _ & _ & Hr).
    exists e. split; [done|]. split; [done|].
    cbn [heap set_heap]. unfold bump. rewrite He. apply lookup_insert_eq.
  - intros l1 a l2 -> Hdead Hm. rewrite find_skip; [done| |done].
    eapply Forall_impl; [exact Hdead|]. intros c. apply dead_no_match.
  - intros Hdead. rewrite find_all_false; [done|].
    eapply Forall_impl; [exact Hdead|]. intros c. apply dead_no_match.
Qed.

(** ** The slice handed out, and the constructor from a C string *)

(** Modelled from the spec: the struct [grpc_slice] is declared in the
    public headers; the spec calls it the handle, which refers to an entry
    and gives read access to its length and bytes.  A slice with a reference
    count holds the address of the count, the address of the bytes and the
    length; the bytes of an entry are stored right after its header, so they
    are addressed by the entry. *)
Record grpc_slice : Type := mkSlice {
  refcount : ptr;
  refcounted_bytes : loc;
  refcounted_length : Z
}.

(** [InternedSlice::InternedSlice(InternedSliceRefcount* s)]. *)
Definition InternedSlice (s : loc) (w : world) : outcome grpc_slice :=
  e ← deref DanglingDeref (heap w !! s);
  Ok (mkSlice (Some s) s (e_length e)).

(** Modelled from the spec: the macros [GRPC_SLICE_START_PTR] and
    [GRPC_SLICE_LENGTH] are in the public headers; on a slice with a
    reference count they give the bytes address and the length, here read
    at once as the [length] bytes stored at the address. *)
Definition GRPC_SLICE_BYTES (s : grpc_slice) (w : world) : outcome (list byte) :=
  e ← deref DanglingDeref (heap w !! refcounted_bytes s);
  Ok (take (Z.to_nat (refcounted_length s)) (e_bytes e)).

(** [grpc_slice_default_hash_impl]. *)
Definition grpc_slice_default_hash_impl (s : grpc_slice) (w : world) : outcome Z :=
  bytes ← GRPC_SLICE_BYTES s w;
  Ok (uint32 (gpr_murmur_hash3 bytes (g_hash_seed w))).

(** [strlen]: the number of bytes before the first zero byte; a string
    without one is read past its end. *)
Fixpoint strlen (string : list byte) : outcome Z :=
  match string with
  | [] => Fault OutOfBounds
  | b :: rest =>
      if bool_decide (b = x00%byte) then Ok 0
      else n ← strlen rest; Ok (n + 1)
  end.

(** [ManagedMemorySlice(const char* string)], which delegates to
    [ManagedMemorySlice(string, strlen(string))]. *)
Definition ManagedMemorySlice_string (string : list byte) (w : world)
    : outcome (loc * world) :=
  len ← strlen string;
  ManagedMemorySlice gpr_murmur_hash3 (take (Z.to_nat len) string) w.

Lemma strlen_nul (s rest : list byte) :
  x00%byte ∉ s → strlen (s ++ x00%byte :: rest) = Ok (Z.of_nat (length s)).
Proof.
  induction s as [|b s IH]; intros Hni.
  - cbn [app strlen]. by rewrite bool_decide_eq_true_2.
  - apply not_elem_of_cons in Hni as [Hne Hni].
    cbn [app strlen]. rewrite bool_decide_eq_false_2 by congruence.
    rewrite IH by done. cbn [mbind outcome_bind length]. f_equal. lia.
Qed.

Lemma strlen_no_nul (s : list byte) :
  x00%byte ∉ s → strlen s = Fault OutOfBounds.
Proof.
  induction s as [|b s IH]; intros Hni; [done|].
  apply not_elem_of_cons in Hni as [Hne Hni].
  cbn [strlen]. rewrite bool_decide_eq_false_2 by congruence.
  by rewrite IH.
Qed.

(** What an interning call returns: an entry of the table, referenced,
    with the bytes of the input. *)
Lemma intern_returns_entry w bss buf :
  intern_inv gpr_murmur_hash3 w bss → headroom 1 w →
  ∃ s w' bss' e',
    ManagedMemorySlice gpr_murmur_hash3 buf w = Ok (s, w') ∧
    intern_inv gpr_murmur_hash3 w' bss' ∧
    s ∈ concat (concat bss') ∧
    heap w' !! s = Some e' ∧ e_bytes e' = buf ∧ e_refcnt e' ≠ 0.
Proof.
  intros Hinv Hroom.
  destruct (live_or_not gpr_murmur_hash3 w bss buf Hinv) as [[a Hlive]|Hno].
  - destruct Hlive as [Hin (e & He & Hb & Hr)].
    exists a, (set_heap (<[a := set_refcnt (e_refcnt e + 1) e]> (heap w)) w), bss,
      (set_refcnt (e_refcnt e + 1) e).
    split; [by apply (intern_found gpr_murmur_hash3 w bss buf a e)|].
    split; [by apply intern_inv_bump|]. split; [done|].
    split; [apply lookup_insert_eq|]. split; [done|].
    destruct (table_rep_entry_ok _ _ _ _ (proj1 Hinv) Hin He) as (si & _ & _ & Hpos).
    cbn [e_refcnt set_refcnt]. lia.
  - destruct (intern_created gpr_murmur_hash3 w bss buf Hinv Hno Hroom)
      as (shards & sh & bs & w' & bs' & sh' & e' & Hs & Hsh & Hbs & Hrun & Hinv'
          & Hperm & _ & _ & _ & _ & He' & Her & _).
    cbn zeta in *.
    exists (fresh (dom (heap w))), w'. eexists. exists e'.
    split; [exact Hrun|]. split; [exact Hinv'|].
    split; [rewrite (entries_insert_cons bss _ bs bs' _ Hbs Hperm); by left|].
    split; [exact He'|].
    split; [by apply (f_equal e_bytes) in Her|].
    apply (f_equal e_refcnt) in Her. cbn [erase set_next e_refcnt] in Her.
    destruct e'. cbn in *. lia.
Qed.

(** X14.  The slice built for the entry that an interning call returns
    reads back the input: it refers to the entry, has the length of the
    input and addresses the input's bytes, and its default hash is the hash
    stored in the entry. *)
Theorem interned_slice_reads_back w buf :
  table_inv gpr_murmur_hash3 w → headroom 1 w →
  ∃ s w' sl e',
    ManagedMemorySlice gpr_murmur_hash3 buf w = Ok (s, w') ∧
    InternedSlice s w' = Ok sl ∧
    refcount sl = Some s ∧
    refcounted_length sl = Z.of_nat (length buf) ∧
    GRPC_SLICE_BYTES sl w' = Ok buf ∧
    heap w' !! s = Some e' ∧
    grpc_slice_default_hash_impl sl w' = Ok (e_hash e').
Proof.
  intros [bss Hinv] Hroom.
  destruct (intern_returns_entry w bss buf Hinv Hroom)
    as (s & w' & bss' & e' & Hrun & Hinv' & Hin & He' & Hb & _).
  destruct (table_rep_entry_ok _ _ _ _ (proj1 Hinv') Hin He') as (si & _ & Hlen & _).
  assert (Hh : e_hash e' = hash_of gpr_murmur_hash3 w' buf).
  { rewrite <- Hb. by apply (proj1 (proj2 Hinv') s e'). }
  rewrite Hb in Hlen.
  assert (Hbytes : GRPC_SLICE_BYTES (mkSlice (Some s) s (e_length e')) w' = Ok buf).
  { unfold GRPC_SLICE_BYTES. cbn [refcounted_bytes refcounted_length].
    rewrite He'. cbn [deref mbind outcome_bind]. rewrite Hb, Hlen, Nat2Z.id.
    by rewrite firstn_all. }
  exists s, w', (mkSlice (Some s) s (e_length e')), e'.
  split; [exact Hrun|].
  split; [unfold InternedSlice; by rewrite He'|].
  split; [done|]. split; [done|]. split; [exact Hbytes|]. split; [exact He'|].
  unfold grpc_slice_default_hash_impl. rewrite Hbytes.
  cbn [mbind outcome_bind]. by rewrite Hh.
Qed.

(** X15.  The constructor from a C string interns the bytes before the
    first zero byte and nothing behind it; on storage that holds no zero
    byte, [strlen] reads past its end. *)
Theorem string_interns_up_to_nul (s rest : list byte) w :
  x00%byte ∉ s →
  ManagedMemorySlice_string (s ++ x00%byte :: rest) w =
    ManagedMemorySlice gpr_murmur_hash3 s w ∧
  ManagedMemorySlice_string s w = Fault OutOfBounds.
Proof.
  intros Hni. unfold ManagedMemorySlice_string.
  rewrite (strlen_nul s rest Hni), (strlen_no_nul s Hni).
  split; [|done]. cbn [mbind outcome_bind].
  by rewrite Nat2Z.id, take_app_length.
Qed.


(** ** Shutdown in strict mode *)

(** X16.  Shutdown in strict mode stops at the first shard that has
    leaks: it has freed the arrays of the shards before it, logs the warning
    with the count of that shard and one line for each of its entries, and
    calls [abort]; the array of that shard, those of the shards after it,
    the shard array and all the entries stay allocated, and the entries of
    later shards get no line. *)
Theorem strict_shutdown_stops_at_first_leak w bss shards (k : nat) sh bs :
  table_rep w bss → g_shards w = Some shards →
  shards !! k = Some sh → bss !! k = Some bs →
  count sh ≠ 0 →
  (∀ (j : nat) shj, (j < k)%nat → shards !! j = Some shj → count shj = 0) →
  ∃ w' new,
    grpc_slice_intern_shutdown grpc_dump_slice GPR_DUMP_HEX GPR_DUMP_ASCII true w
      = Abort w' ∧
    heap w' = heap w ∧ g_shards w' = Some shards ∧
    log w' = log w ++ LogWarning (count sh) :: new ∧
    leaked_texts new =
      leak_text grpc_dump_slice GPR_DUMP_HEX GPR_DUMP_ASCII (heap w) <$> concat bs ∧
    length new = Z.to_nat (count sh) ∧
    (∀ (j : nat) shj, (j < k)%nat → shards !! j = Some shj →
       tabs w' !! strs shj = None) ∧
    (∀ (j : nat) shj, (k ≤ j)%nat → shards !! j = Some shj →
       tabs w' !! strs shj = tabs w !! strs shj).
Proof.
  intros Hrep Hs Hsh Hbs Hne Hbefore.
  pose proof Hrep as (shards' & Hs' & Hlen & Hdist & Hlb & Hall).
  rewrite Hs in Hs'; injection Hs' as <-.
  pose proof (Hall k sh bs Hsh Hbs) as Hsrep.
  destruct (shutdown_stops grpc_dump_slice GPR_DUMP_HEX GPR_DUMP_ASCII w bss shards
              k sh bs Hrep Hs Hsh Hbs Hne Hbefore)
    as (w' & Hrun & Hh & Hs' & Hlog & Htabs).
  assert (Hz : (count sh =? 0) = false) by lia.
  exists w', (leak_line grpc_dump_slice GPR_DUMP_HEX GPR_DUMP_ASCII (heap w)
                <$> concat bs).
  split; [done|]. split; [done|]. split; [done|]. split; [done|].
  split; [|split; [|split]].
  - pose proof (leaked_texts_shard_log grpc_dump_slice GPR_DUMP_HEX GPR_DUMP_ASCII
                  _ _ _ _ _ Hsrep) as Ht.
    unfold shard_log in Ht. rewrite Hz in Ht. exact Ht.
  - rewrite length_fmap, (rep_count _ _ _ _ _ Hsrep). lia.
  - intros j shj Hjk Hj. rewrite Htabs. rewrite bool_decide_eq_true_2; [done|].
    assert (Hbj : is_Some (bss !! j)).
    { apply lookup_lt_is_Some_2. rewrite Hlb. by eapply lookup_lt_Some. }
    destruct Hbj as [bsj Hbj].
    apply list_elem_of_fmap. exists (shj, bsj). split; [done|].
    apply (list_elem_of_lookup_2 _ j). apply lookup_take_Some.
    split; [|done]. by apply lookup_zip_Some.
  - intros j shj Hkj Hj. rewrite Htabs. rewrite bool_decide_eq_false_2; [done|].
    intros ([shi bsi] & Heq & Hin)%list_elem_of_fmap. cbn [compose fst] in Heq.
    apply list_elem_of_lookup in Hin as [i Hi].
    apply lookup_take_Some in Hi as [Hi Hik].
    apply lookup_zip_Some in Hi as [Hi _].
    pose proof (Hdist j i shj shi Hj Hi Heq). lia.
Qed.


(** ** Entries are never freed and their contents never written *)

(** Every entry of [h] is in [h'] with its length, hash and bytes. *)
Definition keeps_contents (h h' : gmap loc InternedSliceRefcount) : Prop :=
  ∀ a e, h !! a = Some e →
    ∃ e', h' !! a = Some e' ∧ e_length e' = e_length e ∧
          e_hash e' = e_hash e ∧ e_bytes e' = e_bytes e.

Lemma keeps_contents_refl h : keeps_contents h h.
Proof. intros a e He. by exists e. Qed.

Lemma keeps_contents_trans h1 h2 h3 :
  keeps_contents h1 h2 → keeps_contents h2 h3 → keeps_contents h1 h3.
Proof.
  intros H12 H23 a e He. destruct (H12 a e He) as (e2 & He2 & Hl & Hh & Hb).
  destruct (H23 a e2 He2) as (e3 & He3 & Hl3 & Hh3 & Hb3).
  exists e3. repeat split; congruence.
Qed.

Lemma keeps_contents_insert h a e e' :
  h !! a = Some e → e_length e' = e_length e → e_hash e' = e_hash e →
  e_bytes e' = e_bytes e → keeps_contents h (<[a := e']> h).
Proof.
  intros Ha Hl Hh Hb b eb Hb'. destruct (decide (b = a)) as [->|Hne].
  - rewrite Ha in Hb'; injection Hb' as <-. exists e'.
    by rewrite lookup_insert_eq.
  - exists eb. by rewrite lookup_insert_ne.
Qed.

Lemma keeps_contents_fresh h a e' :
  h !! a = None → keeps_contents h (<[a := e']> h).
Proof.
  intros Ha b eb Hb. exists eb. rewrite lookup_insert_ne by congruence. done.
Qed.

Lemma write_slot_contents p v w w' :
  write_slot p v w = Ok w' → keeps_contents (heap w) (heap w').
Proof.
  destruct p; unfold write_slot; intros H.
  - bind_inv H. bind_inv H. injection H as <-. apply keeps_contents_refl.
  - bind_inv H. injection H as <-. cbn [heap set_heap].
    destruct (heap w !! s) as [e|] eqn:He; [|done]. injection Hx as <-.
    by eapply keeps_contents_insert.
Qed.

Lemma write_shard_heap i sh w w' : write_shard i sh w = Ok w' → heap w' = heap w.
Proof. unfold write_shard. intros H. bind_inv H. bind_inv H. by injection H as <-. Qed.

Lemma gpr_free_tab_heap t w w' : gpr_free_tab t w = Ok w' → heap w' = heap w.
Proof. unfold gpr_free_tab. intros H. bind_inv H. by injection H as <-. Qed.

Lemma grow_chain_contents n : ∀ cap s st st',
  grow_chain n cap s st = Ok st' → keeps_contents st.1 st'.1.
Proof.
  induction n as [|n IH]; intros cap s st st' H; [done|]. cbn [grow_chain] in H.
  destruct s as [a|]; [|injection H as <-; apply keeps_contents_refl].
  bind_inv H. bind_inv H. apply IH in H. cbn [fst] in H.
  destruct (st.1 !! a) as [e|] eqn:He; [|done]. injection Hx as <-.
  eapply keeps_contents_trans; [|exact H]. by eapply keeps_contents_insert.
Qed.

Lemma grow_buckets_contents n : ∀ i old cap st st',
  grow_buckets n i old cap st = Ok st' → keeps_contents st.1 st'.1.
Proof.
  induction n as [|n IH]; intros i old cap st st' H.
  - injection H as <-. apply keeps_contents_refl.
  - cbn [grow_buckets] in H. bind_inv H. bind_inv H.
    apply grow_chain_contents in Hx0. apply IH in H.
    by eapply keeps_contents_trans.
Qed.

Lemma grow_shard_contents si w w' :
  grow_shard si w = Ok w' → keeps_contents (heap w) (heap w').
Proof.
  unfold grow_shard, gpr_zalloc. intros H. bind_inv H. bind_inv H. bind_inv H.
  bind_inv H. destruct x2 as [h' new']. bind_inv H.
  apply grow_buckets_contents in Hx2. apply gpr_free_tab_heap in Hx3.
  apply write_shard_heap in H. cbn [heap set_heap set_tabs fst] in *.
  by rewrite H, Hx3.
Qed.

Lemma InternNew_contents si idx hash args w s w' :
  InternNewStringLocked si idx hash args w = Ok (s, w') →
  keeps_contents (heap w) (heap w').
Proof.
  unfold InternNewStringLocked, gpr_malloc. intros H. bind_inv H. bind_inv H.
  bind_inv H. bind_inv H.
  apply write_slot_contents in Hx1. apply write_shard_heap in Hx2.
  cbn [heap set_heap] in Hx1.
  assert (H03 : keeps_contents (heap w) (heap x2)).
  { rewrite Hx2. eapply keeps_contents_trans; [|exact Hx1].
    apply keeps_contents_fresh. apply not_elem_of_dom. apply is_fresh. }
  destruct (size_t _ <? _).
  - bind_inv H. injection H as _ <-. apply grow_shard_contents in Hx3.
    by eapply keeps_contents_trans.
  - by injection H as _ <-.
Qed.

Lemma match_scan_contents n : ∀ h s hash args r h',
  match_scan n h s hash args = Ok (r, h') → keeps_contents h h'.
Proof.
  induction n as [|n IH]; intros h s hash args r h' H; [done|].
  cbn [match_scan] in H.
  destruct s as [a|]; [|injection H as _ <-; apply keeps_contents_refl].
  bind_inv H. destruct (h !! a) as [e|] eqn:He; [|done]. injection Hx as <-.
  destruct ((e_hash e =? hash) && slice_eq e args); [|by eapply IH].
  unfold IncrementIfNonzero in H. destruct (e_refcnt e =? 0); [by eapply IH|].
  injection H as _ <-. by eapply keeps_contents_insert.
Qed.

Lemma Match_contents hash idx args w r w' :
  MatchInternedSliceLocked hash idx args w = Ok (r, w') →
  keeps_contents (heap w) (heap w').
Proof.
  unfold MatchInternedSliceLocked. intros H. bind_inv H. bind_inv H. bind_inv H.
  destruct x1 as [r' h']. injection H as _ <-. by eapply match_scan_contents.
Qed.

Lemma FindOrCreate_contents hash args w s w' :
  FindOrCreateInternedSlice hash args w = Ok (s, w') →
  keeps_contents (heap w) (heap w').
Proof.
  unfold FindOrCreateInternedSlice. intros H. bind_inv H. bind_inv H.
  destruct x0 as [[a|] w1]; apply Match_contents in Hx0.
  - by injection H as _ <-.
  - apply InternNew_contents in H. by eapply keeps_contents_trans.
Qed.

Lemma dtor_contents this w w' :
  InternedSliceRefcount_dtor this w = Ok w' → keeps_contents (heap w) (heap w').
Proof.
  unfold InternedSliceRefcount_dtor. intros H. bind_inv H. bind_inv H. bind_inv H.
  bind_inv H. bind_inv H. apply write_slot_contents in Hx3.
  apply write_shard_heap in H. by rewrite H.
Qed.

Lemma dump_chain_heap n : ∀ s w w',
  dump_chain grpc_dump_slice GPR_DUMP_HEX GPR_DUMP_ASCII n s w = Ok w' →
  heap w' = heap w.
Proof.
  induction n as [|n IH]; intros s w w' H; [done|]. cbn [dump_chain] in H.
  destruct s as [a|]; [|by injection H as <-].
  bind_inv H. by apply IH in H.
Qed.

Lemma dump_buckets_heap n : ∀ j sh w w',
  dump_buckets grpc_dump_slice GPR_DUMP_HEX GPR_DUMP_ASCII n j sh w = Ok w' →
  heap w' = heap w.
Proof.
  induction n as [|n IH]; intros j sh w w' H; [by injection H as <-|].
  cbn [dump_buckets] in H. bind_inv H. bind_inv H.
  apply dump_chain_heap in Hx0. apply IH in H. congruence.
Qed.

Lemma shutdown_shards_heap abort n : ∀ i w w',
  shutdown_shards grpc_dump_slice GPR_DUMP_HEX GPR_DUMP_ASCII abort n i w = Ok w' →
  heap w' = heap w.
Proof.
  induction n as [|n IH]; intros i w w' H; [by injection H as <-|].
  cbn [shutdown_shards] in H. bind_inv H. bind_inv H. bind_inv H.
  apply gpr_free_tab_heap in Hx1. apply IH in H.
  assert (heap x0 = heap w).
  { destruct (negb _); [|by injection Hx0 as <-].
    bind_inv Hx0. apply dump_buckets_heap in Hx2.
    destruct abort; [done|]. by injection Hx0 as <-. }
  congruence.
Qed.

Lemma step_contents o w w' :
  step gpr_murmur_hash3 grpc_dump_slice GPR_DUMP_HEX GPR_DUMP_ASCII o w = Ok w' →
  keeps_contents (heap w) (heap w').
Proof.
  destruct o as [seed|tv|buf|this|abort]; intros H.
  - injection H as <-. apply keeps_contents_refl.
  - rewrite step_init in H.
    destruct (init_spec tv w) as (w1 & shards & Hrun & _ & Hheap & _).
    rewrite Hrun in H. injection H as <-. rewrite Hheap.
    apply keeps_contents_refl.
  - rewrite step_intern in H. bind_inv H. destruct x as [s w1].
    injection H as <-. by eapply FindOrCreate_contents.
  - rewrite step_destroy in H. by apply (dtor_contents this).
  - rewrite step_shutdown in H. unfold grpc_slice_intern_shutdown in H.
    bind_inv H. injection H as <-. apply shutdown_shards_heap in Hx.
    cbn [heap set_shards]. rewrite Hx. apply keeps_contents_refl.
Qed.

(** X17.  No call frees an entry or writes its contents.  Across any run
    of the operations that returns, from any state, every entry that was
    allocated is still allocated, at its address, with the length, the hash
    and the bytes it had; only counts and chain links change. *)
Theorem contents_are_immutable ops : ∀ w w' a e,
  run gpr_murmur_hash3 grpc_dump_slice GPR_DUMP_HEX GPR_DUMP_ASCII ops w = Ok w' →
  heap w !! a = Some e →
  ∃ e', heap w' !! a = Some e' ∧ e_length e' = e_length e ∧
        e_hash e' = e_hash e ∧ e_bytes e' = e_bytes e.
Proof.
  induction ops as [|o ops IH]; intros w w' a e Hrun He.
  - cbn [run] in Hrun. injection Hrun as <-. by exists e.
  - apply run_cons in Hrun as (w1 & Hstep & Hrun).
    destruct (step_contents o w w1 Hstep a e He) as (e1 & He1 & Hl & Hh & Hb).
    destruct (IH w1 w' a e1 Hrun He1) as (e' & He' & Hl' & Hh' & Hb').
    exists e'. repeat split; congruence.
Qed.

(** ** The invariant along runs *)

Lemma keeps_contents_size h h' : keeps_contents h h' → (size h ≤ size h')%nat.
Proof.
  intros Hk. rewrite <- !size_dom. apply subseteq_size. intros a Ha.
  apply elem_of_dom in Ha as [e He]. destruct (Hk a e He) as (e' & He' & _).
  apply elem_of_dom. by exists e'.
Qed.

Lemma run_size ops : ∀ w w',
  run gpr_murmur_hash3 grpc_dump_slice GPR_DUMP_HEX GPR_DUMP_ASCII ops w = Ok w' →
  (size (heap w) ≤ size (heap w'))%nat.
Proof.
  induction ops as [|o ops IH]; intros w w' Hrun.
  - cbn [run] in Hrun. by injection Hrun as <-.
  - apply run_cons in Hrun as (w1 & Hstep & Hrun).
    apply step_contents, keeps_contents_size in Hstep. apply IH in Hrun. lia.
Qed.

(** A creation allocates. *)
Lemma InternNew_size si idx hash args w s w' :
  InternNewStringLocked si idx hash args w = Ok (s, w') →
  (size (heap w) < size (heap w'))%nat.
Proof.
  unfold InternNewStringLocked, gpr_malloc. intros H. bind_inv H. bind_inv H.
  bind_inv H. bind_inv H.
  apply write_slot_contents in Hx1. apply write_shard_heap in Hx2.
  cbn [heap set_heap] in Hx1. rewrite <- Hx2 in Hx1.
  assert (Hlt : (size (heap w) < size (heap x2))%nat).
  { apply keeps_contents_size in Hx1.
    rewrite map_size_insert_None in Hx1; [lia|].
    apply not_elem_of_dom. apply is_fresh. }
  destruct (size_t _ <? _).
  - bind_inv H. injection H as _ <-.
    apply grow_shard_contents, keeps_contents_size in Hx3. lia.
  - by injection H as _ <-.
Qed.

Lemma intern_created_size w bss buf s w' :
  intern_inv gpr_murmur_hash3 w bss →
  (∀ a, ¬ live_entry w bss buf a) →
  ManagedMemorySlice gpr_murmur_hash3 buf w = Ok (s, w') →
  (size (heap w) < size (heap w'))%nat.
Proof.
  intros Hinv Hno Hrun.
  destruct (selected_bucket gpr_murmur_hash3 w bss buf (proj1 Hinv))
    as (shards & sh & bs & b & Hs & Hsh & Hbs & Hbk & _).
  pose proof (find_live_none gpr_murmur_hash3 w bss buf shards sh bs b
                Hinv Hs Hsh Hbs Hbk Hno) as Hf.
  unfold ManagedMemorySlice in Hrun. fold (hash_of gpr_murmur_hash3 w buf) in Hrun.
  rewrite (FindOrCreate_created w bss shards _ sh bs _ b buf (proj1 Hinv) Hs Hsh Hbs
             eq_refl Hbk Hf) in Hrun.
  by eapply InternNew_size.
Qed.

Lemma run_table_ops ops : ∀ (k : nat) w w',
  Forall (λ o, is_table_op o = true) ops →
  table_inv gpr_murmur_hash3 w → headroom k w →
  run gpr_murmur_hash3 grpc_dump_slice GPR_DUMP_HEX GPR_DUMP_ASCII ops w = Ok w' →
  (size (heap w') ≤ size (heap w) + k)%nat →
  table_inv gpr_murmur_hash3 w'.
Proof.
  induction ops as [|o ops IH]; intros k w w' Hall Hinv Hroom Hrun Hsize.
  - cbn [run] in Hrun. by injection Hrun as <-.
  - apply run_cons in Hrun as (w1 & Hstep & Hrun).
    pose proof (run_size ops w1 w' Hrun) as Hmono.
    apply Forall_cons in Hall as [Ho Hall].
    destruct o as [seed|tv|buf|this|abort]; try discriminate Ho.
    + rewrite step_intern in Hstep. bind_inv Hstep. destruct x as [s w2].
      injection Hstep as <-. destruct Hinv as [bss Hinv].
      destruct (live_or_not gpr_murmur_hash3 w bss buf Hinv) as [[a Hlive]|Hno].
      * destruct Hlive as [Hin (e & He & Hb & Hr)].
        rewrite (intern_found gpr_murmur_hash3 w bss buf a e Hinv Hin He Hb Hr) in Hx.
        injection Hx as _ <-.
        apply (IH k (set_heap (<[a := set_refcnt (e_refcnt e + 1) e]> (heap w)) w)
                 w' Hall); [| |exact Hrun|].
        -- exists bss. by apply intern_inv_bump.
        -- by apply (headroom_same_shards k w).
        -- cbn [heap set_heap]. rewrite map_size_insert_Some by eauto. exact Hsize.
      * pose proof (intern_created_size w bss buf s w2 Hinv Hno Hx) as Hlt.
        destruct k as [|k]; [lia|].
        destruct (intern_keeps_inv gpr_murmur_hash3 grpc_dump_slice GPR_DUMP_HEX k w
                    buf (ex_intro _ bss Hinv) Hroom)
          as (s' & w3 & Hrun3 & Hinv3 & Hroom3).
        rewrite Hrun3 in Hx. injection Hx as _ <-.
        apply (IH k w3 w' Hall Hinv3 Hroom3 Hrun). lia.
    + rewrite step_destroy in Hstep. destruct Hinv as [bss Hinv].
      destruct (dtor_intern_inv _ _ _ _ Hinv Hstep) as (bss1 & Hinv1 & Hrel & _).
      apply relinked_size in Hrel.
      apply (IH k w1 w' Hall (ex_intro _ bss1 Hinv1)); [|exact Hrun|lia].
      by eapply (dtor_headroom k w bss this w1 (proj1 Hinv)).
Qed.

(** X12.  Every state reached from an [init] by interning and destructor
    calls that return is a well-formed table: the chains hold the entries
    their heads lead to, each in the shard and bucket of its hash, every
    count is the number of entries of its shard, the stored hashes are those
    of the bytes, and no two live entries hold the same bytes.  This holds
    of every run in which at most 60 entries were created, however many
    calls it has: no call frees an entry, so the creating calls are counted
    by the entries allocated since the [init].  (The bound keeps every
    counter far from wrapping.) *)
Theorem reachable_tables_are_well_formed tv_nsec ops w0 w :
  Forall (λ o, is_table_op o = true) ops →
  run gpr_murmur_hash3 grpc_dump_slice GPR_DUMP_HEX GPR_DUMP_ASCII
      (OpInit tv_nsec :: ops) w0 = Ok w →
  (size (heap w) ≤ size (heap w0) + 60)%nat →
  table_inv gpr_murmur_hash3 w ∧ count_inv w.
Proof.
  intros Hall Hrun Hsize.
  apply run_cons in Hrun as (w1 & Hstep & Hrun). rewrite step_init in Hstep.
  destruct (init_inv gpr_murmur_hash3 tv_nsec w0 w1 Hstep) as [Hinv Hroom].
  assert (Hheap : heap w1 = heap w0).
  { destruct (init_spec tv_nsec w0) as (w1' & shards & Hrun1 & _ & Hheap & _).
    rewrite Hrun1 in Hstep. by injection Hstep as <-. }
  clear Hstep. rewrite <- Hheap in Hsize.
  pose proof (run_table_ops ops 60 w1 w Hall (ex_intro _ _ Hinv) Hroom Hrun Hsize)
    as Hinv'.
  split; [exact Hinv'|]. destruct Hinv' as [bss Hinv'].
  apply table_ok_count_inv. exists bss. apply Hinv'.
Qed.


(** X18.  Interning is injective on contents: two calls in a row return
    the same entry exactly when they were given the same bytes. *)
Theorem interning_is_injective w buf1 buf2 :
  table_inv gpr_murmur_hash3 w → headroom 2 w →
  ∃ s1 w1 s2 w2,
    ManagedMemorySlice gpr_murmur_hash3 buf1 w = Ok (s1, w1) ∧
    ManagedMemorySlice gpr_murmur_hash3 buf2 w1 = Ok (s2, w2) ∧
    (s1 = s2 ↔ buf1 = buf2).
Proof.
  intros [bss Hinv] Hroom.
  destruct (intern_keeps_inv gpr_murmur_hash3 grpc_dump_slice GPR_DUMP_HEX 1 w buf1
              (ex_intro _ bss Hinv) Hroom) as (s1 & w1 & Hrun1 & _ & Hroom1).
  destruct (intern_returns_entry w bss buf1 Hinv (headroom_le 1 2 w ltac:(lia) Hroom))
    as (s1' & w1' & bss1 & e1 & Hrun1' & Hinv1 & Hin1 & He1 & Hb1 & Hr1).
  rewrite Hrun1 in Hrun1'. injection Hrun1' as <- <-.
  destruct (intern_returns_entry w1 bss1 buf2 Hinv1 Hroom1)
    as (s2 & w2 & bss2 & e2 & Hrun2 & Hinv2 & Hin2 & He2 & Hb2 & Hr2).
  exists s1, w1, s2, w2. split; [exact Hrun1|]. split; [exact Hrun2|]. split.
  - intros <-.
    destruct (FindOrCreate_contents _ _ _ _ _ Hrun2 s1 e1 He1)
      as (e' & He' & _ & _ & Hb').
    rewrite He2 in He'. injection He' as <-. congruence.
  - intros <-.
    rewrite (intern_found gpr_murmur_hash3 w1 bss1 buf1 s1 e1 Hinv1 Hin1 He1 Hb1 Hr1)
      in Hrun2.
    by injection Hrun2 as -> _.
Qed.

End More.

(** * Concrete runs *)

(** A hash for the examples: the length of the input.  Inputs of equal
    length collide; the length picks the shard and the bucket. *)
Definition length_hash (buf : list byte) (seed : Z) : Z := Z.of_nat (length buf).

(** A dump for the examples: the bytes as they are. *)
Definition bytes_dump (buf : list byte) (flags : Z) : string :=
  String.string_of_list_byte buf.

Definition example_run (ops : list op) : outcome world :=
  run length_hash bytes_dump 1 2 ops boot.

Definition example_world (ops : list op) : world :=
  world_after length_hash bytes_dump 1 2 ops.

(** One entry, ["a"]. *)
Definition one_entry : list op := [OpInit 7; OpIntern [x61%byte]].

(** Two entries of equal length, hence of equal hash: ["b"] in front of
    ["a"] on one chain. *)
Definition two_colliding : list op :=
  [OpInit 7; OpIntern [x61%byte]; OpIntern [x62%byte]].

(** Two entries in two shards. *)
Definition two_shards : list op :=
  [OpInit 7; OpIntern [x61%byte]; OpIntern [x61%byte; x62%byte]].

(** An entry destroyed once: it is off its chain. *)
Definition destroyed_once : list op :=
  [OpInit 7; OpIntern [x61%byte]; OpDestroy 1%positive].

(** Sixteen entries in shard 0, of lengths 0, 32, ..., 480. *)
Definition sixteen_bufs : list (list byte) :=
  (λ k : nat, replicate (32 * k) x00%byte) <$> seq 0 16.
Definition sixteen_in_shard_0 : list op := OpInit 7 :: (OpIntern <$> sixteen_bufs).

Lemma example_inv tv_nsec bufs :
  (length bufs ≤ 59)%nat →
  table_inv length_hash (example_world (OpInit tv_nsec :: (OpIntern <$> bufs))) ∧
  headroom 1 (example_world (OpInit tv_nsec :: (OpIntern <$> bufs))).
Proof.
  intros Hlen.
  destruct (world_after_interns length_hash bytes_dump 1 2 tv_nsec bufs)
    as (_ & Hinv & Hroom); [lia|].
  split; [exact Hinv|]. eapply headroom_le; [|exact Hroom]. lia.
Qed.

Lemma one_entry_inv :
  table_inv length_hash (example_world one_entry) ∧
  headroom 1 (example_world one_entry).
Proof. apply (example_inv 7 [[x61%byte]]). cbn [length]. lia. Qed.

Lemma one_entry_ok : table_ok (example_world one_entry).
Proof. destruct one_entry_inv as [[bss Hinv] _]. exists bss. apply Hinv. Qed.

(** C1 at the world that holds ["a"], for the input ["a"]. *)
Lemma intern_finds_or_creates_witness :
  table_inv length_hash (example_world one_entry) ∧
  headroom 1 (example_world one_entry) ∧
  ∃ s w' e',
    ManagedMemorySlice length_hash [x61%byte] (example_world one_entry) = Ok (s, w') ∧
    heap w' !! s = Some e' ∧ e_bytes e' = [x61%byte].
Proof.
  destruct one_entry_inv as [Hinv Hroom].
  split; [exact Hinv|]. split; [exact Hroom|].
  destruct (intern_finds_or_creates length_hash (example_world one_entry)
              [x61%byte] Hinv Hroom) as (s & w' & e' & Hrun & He & Hb & _).
  exists s, w', e'. split; [exact Hrun|]. split; [exact He|exact Hb].
Defined.

(** C2 at a chain where ["b"] collides with the input ["a"] and stands in
    front of the entry that holds ["a"]: the scan passes it and returns the
    entry behind it. *)
Lemma match_needs_hash_and_content_witness :
  ∃ sh,
    read_shard (example_world two_colliding) (Z.to_nat (SHARD_IDX 1)) = Ok sh ∧
    read_bucket (example_world two_colliding) sh 0 = Ok (Some 2%positive) ∧
    chain (heap (example_world two_colliding)) (Some 2%positive)
      [2%positive; 1%positive] ∧
    Forall (collides (heap (example_world two_colliding)) 1 [x61%byte]) [2%positive] ∧
    MatchInternedSliceLocked 1 0 [x61%byte] (example_world two_colliding) =
      Ok (Some 1%positive,
          set_heap (bump 1%positive (heap (example_world two_colliding)))
            (example_world two_colliding)).
Proof.
  eexists.
  assert (Hsh : read_shard (example_world two_colliding) (Z.to_nat (SHARD_IDX 1))
                = Ok (mkShard 2%positive 2 8)) by (vm_compute; reflexivity).
  assert (Hp : read_bucket (example_world two_colliding) (mkShard 2%positive 2 8) 0
               = Ok (Some 2%positive)) by (vm_compute; reflexivity).
  assert (Hc : chain (heap (example_world two_colliding)) (Some 2%positive)
                 [2%positive; 1%positive]).
  { eapply chain_cons; [vm_compute; reflexivity|]. cbn [bucket_next].
    eapply chain_cons; [vm_compute; reflexivity|]. cbn [bucket_next].
    apply chain_nil. }
  assert (Hcol : Forall (collides (heap (example_world two_colliding)) 1 [x61%byte])
                   [2%positive]).
  { constructor; [|constructor]. eexists. split; [vm_compute; reflexivity|].
    split; vm_compute; reflexivity. }
  split; [exact Hsh|]. split; [exact Hp|]. split; [exact Hc|]. split; [exact Hcol|].
  apply (proj1 (proj2 (match_needs_hash_and_content (example_world two_colliding)
                         1 0 [x61%byte] _ _ _ Hsh Hp Hc)) [2%positive] 1%positive []).
  - reflexivity.
  - exact Hcol.
  - vm_compute. reflexivity.
Defined.



Lemma two_shards_inv :
  table_inv length_hash (example_world two_shards) ∧
  headroom 1 (example_world two_shards).
Proof. apply (example_inv 7 [[x61%byte]; [x61%byte; x62%byte]]). cbn [length]. lia. Qed.

Lemma two_shards_facts :
  g_shards (example_world two_shards)
    = Some (default [] (g_shards (example_world two_shards))) ∧
  default [] (g_shards (example_world two_shards)) !! 0%nat
    = Some (mkShard 1%positive 0 8) ∧
  default [] (g_shards (example_world two_shards)) !! 1%nat
    = Some (mkShard 2%positive 1 8).
Proof.
  split; [vm_compute; reflexivity|]. split; vm_compute; reflexivity.
Qed.

(** C6 at a table with two entries in two shards.  Strict mode off: two
    "LEAKED" lines.  Strict mode on: [abort], with the lines of the first
    shard that has entries. *)
Lemma shutdown_reports_leaks_witness :
  ∃ bss,
    table_rep (example_world two_shards) bss ∧
    (∃ w' new,
       grpc_slice_intern_shutdown bytes_dump 1 2 false (example_world two_shards)
         = Ok w' ∧
       log w' = log (example_world two_shards) ++ new ∧
       length (leaked_texts new) = length (concat (concat bss))) ∧
    concat (concat bss) ≠ [] ∧
    ∃ (k : nat) bs w' new,
      bss !! k = Some bs ∧
      grpc_slice_intern_shutdown bytes_dump 1 2 true (example_world two_shards)
        = Abort w' ∧
      log w' = log (example_world two_shards) ++ new ∧
      length (leaked_texts new) = length (concat bs).
Proof.
  destruct two_shards_inv as [[bss Hinv] _]. exists bss.
  pose proof (proj1 Hinv) as Hrep. split; [exact Hrep|].
  destruct two_shards_facts as (Hs & _ & Hsh1).
  assert (Hbs : is_Some (bss !! 1%nat)).
  { destruct Hrep as (shards & _ & Hlen & _ & Hlb & _).
    apply lookup_lt_is_Some_2. rewrite Hlb, Hlen. vm_compute. lia. }
  destruct Hbs as [bs1 Hbs1].
  assert (Hne : concat (concat bss) ≠ []).
  { destruct (table_rep_shard_entries _ bss _ 1%nat _ bs1 Hrep Hs Hsh1 Hbs1)
      as [_ Hcnt].
    cbn [count] in Hcnt. destruct (concat bs1) as [|a l] eqn:Hl; [discriminate Hcnt|].
    intros Hnil.
    assert (Ha : a ∈ concat (concat bss)).
    { apply elem_of_concat_concat. exists 1%nat, bs1. split; [exact Hbs1|].
      rewrite Hl. by left. }
    rewrite Hnil in Ha. by apply elem_of_nil in Ha. }
  split.
  - destruct (proj1 (proj2 (shutdown_reports_leaks bytes_dump 1 2 false
                              (example_world two_shards) bss Hrep)) eq_refl)
      as (w' & new & Hrun & Hlog & _ & Hlen).
    exists w', new. split; [exact Hrun|]. split; [exact Hlog|exact Hlen].
  - split; [exact Hne|].
    destruct (proj2 (proj2 (shutdown_reports_leaks bytes_dump 1 2 true
                              (example_world two_shards) bss Hrep)) eq_refl Hne)
      as (shards & k & sh & bs & w' & new & _ & _ & Hbs & _ & _ & Hrun & Hlog &
          _ & Hlen).
    exists k, bs, w', new. split; [exact Hbs|]. split; [exact Hrun|].
    split; [exact Hlog|exact Hlen].
Defined.

(** C6 as worded fails in strict mode at the same table: shutdown stops
    after the first shard that has a leak, with one "LEAKED" line logged for
    two entries. *)
Lemma leak_lines_claim_fails : ¬ leak_lines_claim bytes_dump 1 2.
Proof.
  intros Hclaim. destruct two_shards_inv as [[bss Hinv] _].
  pose proof (proj1 Hinv) as Hrep. pose proof Hrep as (shards & Hs & _).
  pose proof (Hclaim true _ bss Hrep) as Htrue.
  destruct (shutdown_ok bytes_dump 1 2 false (example_world two_shards) bss shards
              Hrep Hs (or_introl eq_refl))
    as (w' & new & Hrun & _ & _ & _ & _ & Hlog & Htexts & _).
  apply (f_equal length) in Htexts. rewrite length_fmap in Htexts.
  rewrite <- Htexts in Htrue.
  assert (Hnew : length (leaked_texts new) = 2%nat).
  { vm_compute in Hrun. injection Hrun as <-. vm_compute in Hlog.
    rewrite <- Hlog. reflexivity. }
  rewrite Hnew in Htrue. vm_compute in Htrue. discriminate Htrue.
Qed.

(** C7 at the same table, strict mode off. *)
Lemma shutdown_frees_shards_witness :
  ∃ bss shards,
    table_rep (example_world two_shards) bss ∧
    g_shards (example_world two_shards) = Some shards ∧
    (false = false ∨ concat (concat bss) = []) ∧
    ∃ w',
      grpc_slice_intern_shutdown bytes_dump 1 2 false (example_world two_shards)
        = Ok w' ∧
      g_shards w' = None ∧
      (∀ sh, sh ∈ shards → tabs w' !! strs sh = None).
Proof.
  destruct two_shards_inv as [[bss Hinv] _].
  pose proof (proj1 Hinv) as Hrep. pose proof Hrep as (shards & Hs & _).
  exists bss, shards. split; [exact Hrep|]. split; [exact Hs|].
  split; [left; reflexivity|].
  destruct (shutdown_frees_shards bytes_dump 1 2 false (example_world two_shards)
              bss shards Hrep Hs (or_introl eq_refl))
    as (w' & Hrun & Hnone & Hfreed & _).
  exists w'. split; [exact Hrun|]. split; [exact Hnone|exact Hfreed].
Defined.

(** C7 as worded fails in strict mode at the same table: shutdown stops in
    [abort] with the shard array and the arrays of the leaking shard and of
    the shards behind it not freed. *)
Lemma shutdown_frees_claim_fails : ¬ shutdown_frees_claim bytes_dump 1 2.
Proof.
  intros Hclaim. destruct two_shards_inv as [[bss Hinv] _].
  pose proof (proj1 Hinv) as Hrep. pose proof Hrep as (shards & Hs & _).
  destruct (Hclaim true _ bss shards Hrep Hs) as (w' & Hfinal & Hnone & _).
  vm_compute in Hfinal. injection Hfinal as <-. discriminate Hnone.
Qed.

Lemma sixteen_inv :
  table_inv length_hash (example_world sixteen_in_shard_0) ∧
  headroom 1 (example_world sixteen_in_shard_0).
Proof. apply (example_inv 7 sixteen_bufs). vm_compute. lia. Qed.

(** The shard that the input of 512 bytes selects in the world of sixteen
    entries: shard 0, full at twice its capacity. *)
Lemma sixteen_shard_0 :
  Z.to_nat (SHARD_IDX (hash_of length_hash (example_world sixteen_in_shard_0)
                         (replicate 512 x00%byte))) = 0%nat ∧
  lookup_slice length_hash (replicate 512 x00%byte)
    (example_world sixteen_in_shard_0)
    = Ok (None, example_world sixteen_in_shard_0) ∧
  ∃ shards l,
    g_shards (example_world sixteen_in_shard_0) = Some shards ∧
    shards !! 0%nat = Some (mkShard 1%positive 16 8) ∧
    shard_entries (example_world sixteen_in_shard_0) (mkShard 1%positive 16 8) l.
Proof.
  split; [vm_compute; reflexivity|]. split; [vm_compute; reflexivity|].
  destruct sixteen_inv as [[bss Hinv] _]. pose proof (proj1 Hinv) as Hrep.
  pose proof Hrep as (shards & Hs & Hlen & _ & Hlb & _).
  assert (Hsh : shards !! 0%nat = Some (mkShard 1%positive 16 8)).
  { assert (Hd : default [] (g_shards (example_world sixteen_in_shard_0)) !! 0%nat
                 = Some (mkShard 1%positive 16 8)) by (vm_compute; reflexivity).
    rewrite Hs in Hd. exact Hd. }
  assert (Hbs : is_Some (bss !! 0%nat)).
  { apply lookup_lt_is_Some_2. rewrite Hlb.
    apply lookup_lt_Some in Hsh. exact Hsh. }
  destruct Hbs as [bs Hbs].
  exists shards, (concat bs). split; [exact Hs|]. split; [exact Hsh|].
  exact (proj1 (table_rep_shard_entries _ bss shards 0%nat _ bs Hrep Hs Hsh Hbs)).
Qed.

(** C3 at a shard of capacity 8 that holds 16 entries, for a seventeenth
    input: the shard comes out with capacity 16. *)
Lemma growth_doubles_and_relinks_witness :
  table_inv length_hash (example_world sixteen_in_shard_0) ∧
  headroom 1 (example_world sixteen_in_shard_0) ∧
  ∃ shards sh,
    lookup_slice length_hash (replicate 512 x00%byte)
      (example_world sixteen_in_shard_0)
      = Ok (None, example_world sixteen_in_shard_0) ∧
    g_shards (example_world sixteen_in_shard_0) = Some shards ∧
    shards !! 0%nat = Some sh ∧
    capacity sh = 8 ∧ count sh = 16 ∧
    ∃ s w' sh' arr',
      ManagedMemorySlice length_hash (replicate 512 x00%byte)
        (example_world sixteen_in_shard_0) = Ok (s, w') ∧
      g_shards w' = Some (<[0%nat := sh']> shards) ∧
      capacity sh' = 16 ∧ count sh' = 17 ∧
      tabs w' !! strs sh' = Some arr' ∧ length arr' = 16%nat.
Proof.
  destruct sixteen_inv as [Hinv Hroom].
  split; [exact Hinv|]. split; [exact Hroom|].
  destruct sixteen_shard_0 as (Hidx & Hnone & shards & l & Hs & Hsh & Hl).
  pose proof (proj2 (proj2 (growth_doubles_and_relinks length_hash
                              (example_world sixteen_in_shard_0) Hinv Hroom))
                (replicate 512 x00%byte) shards (mkShard 1%positive 16 8) l Hnone Hs)
    as Hgrow.
  rewrite Hidx in Hgrow.
  destruct (Hgrow Hsh Hl) as (s & w' & sh' & arr' & Hrun & Hs' & Hcap & Hcnt & _ & Harr & Hlen & _).
  { cbn [capacity count]. lia. }
  exists shards, (mkShard 1%positive 16 8).
  split; [exact Hnone|]. split; [exact Hs|]. split; [exact Hsh|].
  split; [reflexivity|]. split; [reflexivity|].
  exists s, w', sh', arr'. split; [exact Hrun|]. split; [exact Hs'|].
  split; [exact Hcap|]. split; [exact Hcnt|]. split; [exact Harr|exact Hlen].
Defined.

(** C8 after a run that forced the seed 42: [init] keeps it. *)
Lemma init_sets_seed_and_shards_witness :
  ∃ w w',
    example_run [OpSetSeed 42] = Ok w ∧
    grpc_slice_intern_init 7 w = Ok w' ∧
    g_hash_seed w' = 42.
Proof.
  exists (grpc_test_only_set_slice_hash_seed 42 boot).
  destruct (proj1 (init_sets_seed_and_shards length_hash bytes_dump 1 2) 7
              (grpc_test_only_set_slice_hash_seed 42 boot))
    as (w' & shards & Hrun & _).
  exists w'. split; [reflexivity|]. split; [exact Hrun|].
  exact (proj2 (init_sets_seed_and_shards length_hash bytes_dump 1 2)
           [OpSetSeed 42] _ 7 w' eq_refl Hrun).
Defined.

(** C10 on a run that inits, forces the seed 42 and inits again. *)
Lemma forced_seed_is_kept_witness :
  ∃ w,
    run length_hash bytes_dump 1 2 [OpInit 5; OpSetSeed 42; OpInit 7] boot = Ok w ∧
    forced_seed [OpInit 5; OpSetSeed 42; OpInit 7] = Some 42 ∧
    g_hash_seed w = uint32 42 ∧ g_forced_hash_seed w = true.
Proof.
  exists (example_world [OpInit 5; OpSetSeed 42; OpInit 7]).
  assert (Hrun : run length_hash bytes_dump 1 2 [OpInit 5; OpSetSeed 42; OpInit 7] boot
                 = Ok (example_world [OpInit 5; OpSetSeed 42; OpInit 7]))
    by (vm_compute; reflexivity).
  assert (Hf : forced_seed [OpInit 5; OpSetSeed 42; OpInit 7] = Some 42)
    by reflexivity.
  split; [exact Hrun|]. split; [exact Hf|].
  exact (proj1 (proj2 (forced_seed_is_kept length_hash bytes_dump 1 2))
           [OpInit 5; OpSetSeed 42; OpInit 7] boot
           (example_world [OpInit 5; OpSetSeed 42; OpInit 7]) 42 Hrun Hf).
Defined.

(** ** The further properties on concrete runs *)

(** X1 at the hash 1000 and the capacity 8. *)
Lemma index_macros_in_range_witness :
  0 < 8 ∧ 0 ≤ SHARD_IDX 1000 < SHARD_COUNT ∧ 0 ≤ TABLE_IDX 1000 8 < 8 ∧
  1000 = Z.shiftr 1000 LOG2_SHARD_COUNT * SHARD_COUNT + SHARD_IDX 1000.
Proof. split; [lia|]. apply (index_macros_in_range 1000 8). lia. Defined.

(** X7 at the state before any call. *)
Lemma no_table_no_service_witness :
  g_shards boot = None ∧
  ManagedMemorySlice length_hash [x61%byte] boot = Fault NullDeref.
Proof.
  split; [reflexivity|].
  exact (proj1 (no_table_no_service length_hash bytes_dump 1 2 boot eq_refl)
           [x61%byte]).
Defined.

(** X15 at the bytes of ["ab"], a zero byte and ["c"]. *)
Lemma string_interns_up_to_nul_witness :
  (x00%byte ∉ [x61%byte; x62%byte]) ∧
  ManagedMemorySlice_string length_hash [x61%byte; x62%byte; x00%byte; x63%byte]
      (example_world one_entry) =
    ManagedMemorySlice length_hash [x61%byte; x62%byte] (example_world one_entry).
Proof.
  assert (Hni : x00%byte ∉ [x61%byte; x62%byte]).
  { intros Hin. apply elem_of_cons in Hin as [Hin|Hin]; [discriminate Hin|].
    apply elem_of_cons in Hin as [Hin|Hin]; [discriminate Hin|].
    by apply elem_of_nil in Hin. }
  split; [exact Hni|].
  exact (proj1 (string_interns_up_to_nul length_hash [x61%byte; x62%byte]
                  [x63%byte] (example_world one_entry) Hni)).
Defined.

Lemma destroyed_once_run :
  InternedSliceRefcount_dtor 1%positive (example_world one_entry)
    = Ok (example_world destroyed_once).
Proof. vm_compute. reflexivity. Qed.

(** X3 at the world that holds ["a"], for its entry. *)
Lemma destroy_keeps_invariant_witness :
  table_inv length_hash (example_world one_entry) ∧
  InternedSliceRefcount_dtor 1%positive (example_world one_entry)
    = Ok (example_world destroyed_once) ∧
  table_inv length_hash (example_world destroyed_once) ∧
  ¬ in_table (example_world destroyed_once) 1%positive.
Proof.
  destruct one_entry_inv as [Hinv _].
  split; [exact Hinv|]. split; [exact destroyed_once_run|].
  destruct (destroy_keeps_invariant length_hash (example_world one_entry)
              1%positive (example_world destroyed_once) Hinv destroyed_once_run)
    as (Hinv' & _ & Hout & _).
  split; [exact Hinv'|exact Hout].
Defined.


Lemma destroyed_once_full_run :
  run length_hash bytes_dump 1 2
      (OpInit 7 :: [OpIntern [x61%byte]; OpDestroy 1%positive]) boot
    = Ok (example_world destroyed_once).
Proof. vm_compute. reflexivity. Qed.

(** X12 on the run that inits, interns ["a"] and destroys its entry: one
    entry allocated. *)
Lemma reachable_tables_are_well_formed_witness :
  Forall (λ o, is_table_op o = true) [OpIntern [x61%byte]; OpDestroy 1%positive] ∧
  run length_hash bytes_dump 1 2
      (OpInit 7 :: [OpIntern [x61%byte]; OpDestroy 1%positive]) boot
    = Ok (example_world destroyed_once) ∧
  (size (heap (example_world destroyed_once)) ≤ size (heap boot) + 60)%nat ∧
  table_inv length_hash (example_world destroyed_once) ∧
  count_inv (example_world destroyed_once).
Proof.
  assert (Hall : Forall (λ o, is_table_op o = true)
                   [OpIntern [x61%byte]; OpDestroy 1%positive]).
  { constructor; [reflexivity|]. constructor; [reflexivity|]. constructor. }
  assert (Hsize : (size (heap (example_world destroyed_once))
                   ≤ size (heap boot) + 60)%nat).
  { vm_compute. lia. }
  split; [exact Hall|]. split; [exact destroyed_once_full_run|].
  split; [exact Hsize|].
  exact (reachable_tables_are_well_formed length_hash bytes_dump 1 2 7
           [OpIntern [x61%byte]; OpDestroy 1%positive] boot
           (example_world destroyed_once) Hall destroyed_once_full_run Hsize).
Defined.

Lemma interned_once_run :
  run length_hash bytes_dump 1 2 [OpIntern [x61%byte]] (example_world [OpInit 7])
    = Ok (example_world one_entry).
Proof. vm_compute. reflexivity. Qed.

(** X9 on one interning call after [init]. *)
Lemma seed_is_kept_by_other_calls_witness :
  Forall (λ o, writes_seed o = false) [OpIntern [x61%byte]] ∧
  run length_hash bytes_dump 1 2 [OpIntern [x61%byte]] (example_world [OpInit 7])
    = Ok (example_world one_entry) ∧
  g_hash_seed (example_world one_entry) = g_hash_seed (example_world [OpInit 7]).
Proof.
  assert (Hall : Forall (λ o, writes_seed o = false) [OpIntern [x61%byte]]).
  { constructor; [reflexivity|constructor]. }
  split; [exact Hall|]. split; [exact interned_once_run|].
  exact (proj1 (seed_is_kept_by_other_calls length_hash bytes_dump 1 2
                  [OpIntern [x61%byte]] (example_world [OpInit 7])
                  (example_world one_entry) Hall interned_once_run)).
Defined.

(** X14 at the world that holds ["a"], for the input ["ab"]. *)
Lemma interned_slice_reads_back_witness :
  table_inv length_hash (example_world one_entry) ∧
  headroom 1 (example_world one_entry) ∧
  ∃ s w' sl,
    ManagedMemorySlice length_hash [x61%byte; x62%byte] (example_world one_entry)
      = Ok (s, w') ∧
    InternedSlice s w' = Ok sl ∧
    GRPC_SLICE_BYTES sl w' = Ok [x61%byte; x62%byte].
Proof.
  destruct one_entry_inv as [Hinv Hroom].
  split; [exact Hinv|]. split; [exact Hroom|].
  destruct (interned_slice_reads_back length_hash (example_world one_entry)
              [x61%byte; x62%byte] Hinv Hroom)
    as (s & w' & sl & e' & Hrun & Hsl & _ & _ & Hbytes & _).
  exists s, w', sl. split; [exact Hrun|]. split; [exact Hsl|exact Hbytes].
Defined.

Lemma bucket_chain_in_table w shards (si : nat) sh (i : nat) l a :
  table_ok w → g_shards w = Some shards → shards !! si = Some sh →
  bucket_chain w sh i l → a ∈ l → in_table w a.
Proof.
  intros [bss Hrep] Hs Hsh Hl Ha. exists bss. split; [exact Hrep|].
  assert (Hbs : is_Some (bss !! si)).
  { destruct Hrep as (shards0 & Hs0 & _ & _ & Hlen & _).
    rewrite Hs in Hs0; injection Hs0 as <-.
    apply lookup_lt_is_Some_2. rewrite Hlen. by eapply lookup_lt_Some. }
  destruct Hbs as [bs Hbs].
  apply (bucket_chain_rep _ _ _ _ _ _ _ _ Hrep Hs Hsh Hbs) in Hl.
  apply elem_of_concat_concat. exists si, bs. split; [exact Hbs|].
  apply elem_of_concat. by exists i, l.
Qed.

(** The world that holds ["a"]: entry 1, alone on bucket 0 of shard 1. *)
Lemma one_entry_shards :
  g_shards (example_world one_entry)
    = Some (default [] (g_shards (example_world one_entry))) ∧
  default [] (g_shards (example_world one_entry)) !! 1%nat
    = Some (mkShard 2%positive 1 8).
Proof. split; vm_compute; reflexivity. Qed.

Lemma one_entry_chain :
  bucket_chain (example_world one_entry) (mkShard 2%positive 1 8) 0 [1%positive].
Proof.
  exists [Some 1%positive; None; None; None; None; None; None; None],
    (Some 1%positive).
  split; [vm_compute; reflexivity|]. split; [reflexivity|].
  eapply chain_cons; [vm_compute; reflexivity|]. apply chain_nil.
Qed.

Lemma one_entry_heap :
  heap (example_world one_entry) !! 1%positive
    = Some (mkRefcount 1 1 1 None [x61%byte]).
Proof. vm_compute. reflexivity. Qed.

Lemma one_entry_live : live_in_table (example_world one_entry) [x61%byte] 1%positive.
Proof.
  split.
  - destruct one_entry_shards as [Hs Hsh].
    apply (bucket_chain_in_table _ _ 1%nat _ 0%nat [1%positive] _ one_entry_ok Hs Hsh
             one_entry_chain).
    by left.
  - eexists. split; [exact one_entry_heap|]. split; [reflexivity|].
    cbn [e_refcnt]. lia.
Qed.

(** C4 at the world that holds ["a"]: the destructor of its entry returns
    and leaves every count the number of entries of its shard. *)
Lemma count_is_number_of_entries_witness :
  table_ok (example_world one_entry) ∧ headroom 1 (example_world one_entry) ∧
  count_inv (example_world one_entry) ∧
  in_table (example_world one_entry) 1%positive ∧
  ∃ w' shards (si : nat) sh sh',
    InternedSliceRefcount_dtor 1%positive (example_world one_entry) = Ok w' ∧
    count_inv w' ∧
    g_shards (example_world one_entry) = Some shards ∧
    shards !! si = Some sh ∧
    g_shards w' = Some (<[si := sh']> shards) ∧
    count sh' = count sh - 1.
Proof.
  destruct one_entry_inv as [_ Hroom].
  pose proof (proj1 one_entry_live) as Hin.
  pose proof (count_is_number_of_entries length_hash (example_world one_entry)
                one_entry_ok Hroom) as (Hcount & _ & Hdtor & _).
  split; [exact one_entry_ok|]. split; [exact Hroom|]. split; [exact Hcount|].
  split; [exact Hin|].
  destruct (Hdtor 1%positive Hin)
    as (w' & Hrun & _ & Hcount' & shards & si & sh & sh' & l & l' & Hs & Hsh & Hs' &
        _ & _ & _ & Hdec).
  exists w', shards, si, sh, sh'. split; [exact Hrun|]. split; [exact Hcount'|].
  split; [exact Hs|]. split; [exact Hsh|]. split; [exact Hs'|exact Hdec].
Defined.

(** X2 at the world that holds ["a"]: growing its shard to capacity 16. *)
Lemma growth_splits_buckets_witness :
  table_ok (example_world one_entry) ∧
  ∃ shards,
    g_shards (example_world one_entry) = Some shards ∧
    shards !! 1%nat = Some (mkShard 2%positive 1 8) ∧
    on_bucket (example_world one_entry) (mkShard 2%positive 1 8) 0 1%positive ∧
    ∃ w' sh',
      grow_shard 1 (example_world one_entry) = Ok w' ∧
      capacity sh' = 16 ∧
      (on_bucket w' sh' 0 1%positive ∨ on_bucket w' sh' 8 1%positive).
Proof.
  split; [exact one_entry_ok|].
  destruct one_entry_shards as [Hs Hsh].
  exists (default [] (g_shards (example_world one_entry))).
  split; [exact Hs|]. split; [exact Hsh|].
  assert (Hon : on_bucket (example_world one_entry) (mkShard 2%positive 1 8) 0
                  1%positive).
  { destruct one_entry_chain as (arr & p & Harr & Hp & Hc).
    exists arr, p, [1%positive]. split; [exact Harr|]. split; [exact Hp|].
    split; [exact Hc|]. by left. }
  split; [exact Hon|].
  destruct (growth_splits_buckets (example_world one_entry) _ 1%nat
              (mkShard 2%positive 1 8) 0%nat 1%positive one_entry_ok Hs Hsh)
    as (w' & sh' & Hrun & _ & Hcap & Hcase); [cbn [capacity]; lia|exact Hon|].
  exists w', sh'. split; [exact Hrun|]. split; [exact Hcap|exact Hcase].
Defined.

(** The world that holds ["a"] once the count of its entry has dropped to
    zero, and that world after the destructor of the entry. *)
Definition dead_alone : world :=
  set_heap
    (<[1%positive := set_refcnt 0 (mkRefcount 1 1 1 None [x61%byte])]>
       (heap (example_world one_entry)))
    (example_world one_entry).

Definition dead_alone_destroyed : world :=
  match InternedSliceRefcount_dtor 1%positive dead_alone with
  | Ok w => w
  | _ => dead_alone
  end.

Lemma dead_alone_inv :
  table_inv length_hash dead_alone ∧ headroom 1 dead_alone.
Proof.
  destruct one_entry_inv as [[bss Hinv] Hroom]. unfold dead_alone. split.
  - exists bss. apply (intern_inv_dead length_hash _ bss _ _ Hinv one_entry_heap).
  - apply (headroom_same_shards 1 (example_world one_entry)); [|exact Hroom].
    cbn [g_shards set_heap]. reflexivity.
Qed.

Lemma dead_alone_facts :
  heap dead_alone !! 1%positive
    = Some (set_refcnt 0 (mkRefcount 1 1 1 None [x61%byte])) ∧
  (∀ b, live_in_table dead_alone [x61%byte] b → b = 1%positive) ∧
  InternedSliceRefcount_dtor 1%positive dead_alone = Ok dead_alone_destroyed.
Proof.
  split; [vm_compute; reflexivity|]. split; [|vm_compute; reflexivity].
  destruct dead_alone_inv as [[bss Hinv] _]. intros b Hlive. exfalso.
  apply (live_in_table_iff _ _ _ _ (proj1 Hinv)) in Hlive. revert b Hlive.
  apply (lookup_none_iff length_hash _ _ _ Hinv). vm_compute. reflexivity.
Qed.

(** X5 at the world that holds ["a"] with its count at zero. *)
Lemma reintern_after_destroy_witness :
  table_inv length_hash dead_alone ∧ headroom 1 dead_alone ∧
  heap dead_alone !! 1%positive
    = Some (set_refcnt 0 (mkRefcount 1 1 1 None [x61%byte])) ∧
  (∀ b, live_in_table dead_alone [x61%byte] b → b = 1%positive) ∧
  InternedSliceRefcount_dtor 1%positive dead_alone = Ok dead_alone_destroyed ∧
  ∃ s w2 e',
    ManagedMemorySlice length_hash [x61%byte] dead_alone_destroyed = Ok (s, w2) ∧
    heap dead_alone_destroyed !! s = None ∧
    heap w2 !! s = Some e' ∧ e_refcnt e' = 1 ∧ in_table w2 s.
Proof.
  destruct dead_alone_inv as [Hinv Hroom].
  destruct dead_alone_facts as (He & Honly & Hrun).
  split; [exact Hinv|]. split; [exact Hroom|]. split; [exact He|].
  split; [exact Honly|]. split; [exact Hrun|].
  destruct (reintern_after_destroy length_hash dead_alone [x61%byte] 1%positive
              (set_refcnt 0 (mkRefcount 1 1 1 None [x61%byte]))
              dead_alone_destroyed Hinv Hroom He eq_refl Honly Hrun)
    as (s & w2 & e' & Hrun2 & Hfresh & He' & _ & Hr & _ & Htab & _).
  exists s, w2, e'. split; [exact Hrun2|]. split; [exact Hfresh|].
  split; [exact He'|]. split; [exact Hr|]. apply Htab. by left.
Defined.

(** X6 at the world that holds ["a"]: three more calls return its entry
    three times and leave the count at 4. *)
Lemma refcount_counts_interns_witness :
  table_inv length_hash (example_world one_entry) ∧
  live_in_table (example_world one_entry) [x61%byte] 1%positive ∧
  heap (example_world one_entry) !! 1%positive
    = Some (mkRefcount 1 1 1 None [x61%byte]) ∧
  intern_times length_hash 3 [x61%byte] (example_world one_entry) =
    Ok ([1%positive; 1%positive; 1%positive],
        set_heap (<[1%positive := mkRefcount 1 4 1 None [x61%byte]]>
                    (heap (example_world one_entry)))
          (example_world one_entry)).
Proof.
  destruct one_entry_inv as [Hinv _].
  split; [exact Hinv|]. split; [exact one_entry_live|].
  split; [exact one_entry_heap|].
  exact (refcount_counts_interns length_hash 3
           (example_world one_entry) [x61%byte] 1%positive
           (mkRefcount 1 1 1 None [x61%byte]) Hinv one_entry_live one_entry_heap).
Defined.

(** ["b"] in front of ["a"], and ["a"] destroyed. *)
Definition two_colliding_destroyed : list op :=
  two_colliding ++ [OpDestroy 1%positive].

Lemma two_colliding_ok : table_ok (example_world two_colliding).
Proof.
  destruct (example_inv 7 [[x61%byte]; [x62%byte]]) as [[bss Hinv] _].
  - cbn [length]. lia.
  - exists bss. apply Hinv.
Qed.

Lemma two_colliding_facts :
  InternedSliceRefcount_dtor 1%positive (example_world two_colliding)
    = Ok (example_world two_colliding_destroyed) ∧
  g_shards (example_world two_colliding)
    = Some (default [] (g_shards (example_world two_colliding))) ∧
  g_shards (example_world two_colliding_destroyed)
    = Some (default [] (g_shards (example_world two_colliding_destroyed))) ∧
  default [] (g_shards (example_world two_colliding)) !! 1%nat
    = Some (mkShard 2%positive 2 8) ∧
  default [] (g_shards (example_world two_colliding_destroyed)) !! 1%nat
    = Some (mkShard 2%positive 1 8).
Proof.
  split; [vm_compute; reflexivity|]. split; [vm_compute; reflexivity|].
  split; [vm_compute; reflexivity|]. split; vm_compute; reflexivity.
Qed.

Lemma two_colliding_chain :
  bucket_chain (example_world two_colliding) (mkShard 2%positive 2 8) 0
    [2%positive; 1%positive].
Proof.
  exists [Some 2%positive; None; None; None; None; None; None; None],
    (Some 2%positive).
  split; [vm_compute; reflexivity|]. split; [reflexivity|].
  eapply chain_cons; [vm_compute; reflexivity|]. cbn [bucket_next].
  eapply chain_cons; [vm_compute; reflexivity|]. apply chain_nil.
Qed.

(** X10 at the chain of ["b"] and ["a"], destroying the second. *)
Lemma unlink_keeps_chain_order_witness :
  table_ok (example_world two_colliding) ∧
  InternedSliceRefcount_dtor 1%positive (example_world two_colliding)
    = Ok (example_world two_colliding_destroyed) ∧
  bucket_chain (example_world two_colliding) (mkShard 2%positive 2 8) 0
    [2%positive; 1%positive] ∧
  bucket_chain (example_world two_colliding_destroyed) (mkShard 2%positive 1 8) 0
    (filter (λ a, a ≠ 1%positive) [2%positive; 1%positive]).
Proof.
  destruct two_colliding_facts as (Hrun & Hs & Hs' & Hsh & Hsh').
  split; [exact two_colliding_ok|]. split; [exact Hrun|].
  split; [exact two_colliding_chain|].
  exact (unlink_keeps_chain_order (example_world two_colliding) 1%positive
           (example_world two_colliding_destroyed) _ _ 1%nat _ _ 0%nat
           [2%positive; 1%positive] two_colliding_ok Hrun Hs Hs' Hsh Hsh'
           two_colliding_chain).
Defined.

Lemma one_entry_no_b :
  Z.to_nat (SHARD_IDX (hash_of length_hash (example_world one_entry) [x62%byte]))
    = 1%nat ∧
  Z.to_nat (TABLE_IDX (hash_of length_hash (example_world one_entry) [x62%byte])
              (capacity (mkShard 2%positive 1 8))) = 0%nat ∧
  ∀ a, ¬ live_in_table (example_world one_entry) [x62%byte] a.
Proof.
  split; [vm_compute; reflexivity|]. split; [vm_compute; reflexivity|].
  destruct one_entry_inv as [[bss Hinv] _]. intros a Hlive.
  apply (live_in_table_iff _ _ _ _ (proj1 Hinv)) in Hlive. revert a Hlive.
  apply (lookup_none_iff length_hash _ _ _ Hinv). vm_compute. reflexivity.
Qed.

(** X11 at the world that holds ["a"], for the input ["b"] of the same hash. *)
Lemma creation_links_at_head_witness :
  table_inv length_hash (example_world one_entry) ∧
  headroom 1 (example_world one_entry) ∧
  (∀ a, ¬ live_in_table (example_world one_entry) [x62%byte] a) ∧
  bucket_chain (example_world one_entry) (mkShard 2%positive 1 8) 0 [1%positive] ∧
  ∃ s w',
    ManagedMemorySlice length_hash [x62%byte] (example_world one_entry)
      = Ok (s, w') ∧
    bucket_chain w' (mkShard 2%positive (1 + 1) 8) 0 [s; 1%positive].
Proof.
  destruct one_entry_inv as [Hinv Hroom].
  destruct one_entry_no_b as (Hsi & Hi & Hnone).
  destruct one_entry_shards as [Hs Hsh].
  split; [exact Hinv|]. split; [exact Hroom|]. split; [exact Hnone|].
  split; [exact one_entry_chain|].
  pose proof (creation_links_at_head length_hash (example_world one_entry)
                [x62%byte] _ (mkShard 2%positive 1 8) [1%positive]
                Hinv Hroom Hnone Hs) as Hhead.
  rewrite Hi, Hsi in Hhead.
  destruct (Hhead Hsh one_entry_chain) as (s & w' & Hrun & _ & Hc).
  { cbn [count capacity]. lia. }
  exists s, w'. split; [exact Hrun|exact Hc].
Defined.

(** A dead entry that holds ["a"] in front of the live one that holds
    ["a"]. *)
Definition dead_in_front : world :=
  set_heap
    (<[2%positive := mkRefcount 1 0 1 (Some 1%positive) [x61%byte]]>
       (heap (example_world two_colliding)))
    (example_world two_colliding).

(** X13 at a chain whose first entry is dead and holds the bytes looked for. *)
Lemma dead_entries_are_skipped_witness :
  read_shard dead_in_front (Z.to_nat (SHARD_IDX 1)) = Ok (mkShard 2%positive 2 8) ∧
  read_bucket dead_in_front (mkShard 2%positive 2 8) 0 = Ok (Some 2%positive) ∧
  chain (heap dead_in_front) (Some 2%positive) [2%positive; 1%positive] ∧
  Forall (dead (heap dead_in_front)) [2%positive] ∧
  entry_matches 1 [x61%byte] (mkRefcount 1 0 1 (Some 1%positive) [x61%byte])
    = false ∧
  MatchInternedSliceLocked 1 0 [x61%byte] dead_in_front =
    Ok (Some 1%positive, set_heap (bump 1%positive (heap dead_in_front)) dead_in_front).
Proof.
  assert (Hsh : read_shard dead_in_front (Z.to_nat (SHARD_IDX 1))
                = Ok (mkShard 2%positive 2 8)) by (vm_compute; reflexivity).
  assert (Hp : read_bucket dead_in_front (mkShard 2%positive 2 8) 0
               = Ok (Some 2%positive)) by (vm_compute; reflexivity).
  assert (Hc : chain (heap dead_in_front) (Some 2%positive)
                 [2%positive; 1%positive]).
  { eapply chain_cons; [vm_compute; reflexivity|]. cbn [bucket_next].
    eapply chain_cons; [vm_compute; reflexivity|]. cbn [bucket_next].
    apply chain_nil. }
  assert (Hdead : Forall (dead (heap dead_in_front)) [2%positive]).
  { constructor; [|constructor]. eexists. split; [vm_compute; reflexivity|].
    reflexivity. }
  split; [exact Hsh|]. split; [exact Hp|]. split; [exact Hc|].
  split; [exact Hdead|]. split; [reflexivity|].
  apply (proj1 (proj2 (dead_entries_are_skipped dead_in_front 1 0 [x61%byte] _ _ _
                         Hsh Hp Hc)) [2%positive] 1%positive []).
  - reflexivity.
  - exact Hdead.
  - vm_compute. reflexivity.
Defined.

(** X16 at the world with entries in shards 1 and 2: shard 1 is reported. *)
Lemma strict_shutdown_stops_at_first_leak_witness :
  ∃ bss shards bs w' new,
    table_rep (example_world two_shards) bss ∧
    g_shards (example_world two_shards) = Some shards ∧
    shards !! 1%nat = Some (mkShard 2%positive 1 8) ∧
    bss !! 1%nat = Some bs ∧
    grpc_slice_intern_shutdown bytes_dump 1 2 true (example_world two_shards)
      = Abort w' ∧
    log w' = log (example_world two_shards) ++ LogWarning 1 :: new ∧
    length new = 1%nat.
Proof.
  destruct two_shards_inv as [[bss Hinv] _]. pose proof (proj1 Hinv) as Hrep.
  destruct two_shards_facts as (Hs & Hsh0 & Hsh1).
  assert (Hbs : is_Some (bss !! 1%nat)).
  { destruct Hrep as (shards & _ & Hlen & _ & Hlb & _).
    apply lookup_lt_is_Some_2. rewrite Hlb, Hlen. vm_compute. lia. }
  destruct Hbs as [bs Hbs].
  destruct (strict_shutdown_stops_at_first_leak bytes_dump 1 2
              (example_world two_shards) bss _ 1%nat (mkShard 2%positive 1 8) bs
              Hrep Hs Hsh1 Hbs)
    as (w' & new & Hrun & _ & _ & Hlog & _ & Hlen & _).
  { cbn [count]. lia. }
  { intros j shj Hj Hshj. assert (j = 0%nat) as -> by lia.
    rewrite Hsh0 in Hshj. injection Hshj as <-. reflexivity. }
  exists bss, (default [] (g_shards (example_world two_shards))), bs, w', new.
  split; [exact Hrep|]. split; [exact Hs|]. split; [exact Hsh1|].
  split; [exact Hbs|]. split; [exact Hrun|]. split; [exact Hlog|exact Hlen].
Defined.

Lemma destroy_run :
  run length_hash bytes_dump 1 2 [OpDestroy 1%positive] (example_world one_entry)
    = Ok (example_world destroyed_once).
Proof. vm_compute. reflexivity. Qed.

(** X17 across the destruction of the entry that holds ["a"]. *)
Lemma contents_are_immutable_witness :
  run length_hash bytes_dump 1 2 [OpDestroy 1%positive] (example_world one_entry)
    = Ok (example_world destroyed_once) ∧
  heap (example_world one_entry) !! 1%positive
    = Some (mkRefcount 1 1 1 None [x61%byte]) ∧
  ∃ e', heap (example_world destroyed_once) !! 1%positive = Some e' ∧
        e_bytes e' = [x61%byte].
Proof.
  split; [exact destroy_run|]. split; [exact one_entry_heap|].
  destruct (contents_are_immutable length_hash bytes_dump 1 2
              [OpDestroy 1%positive] (example_world one_entry)
              (example_world destroyed_once) 1%positive
              (mkRefcount 1 1 1 None [x61%byte]) destroy_run one_entry_heap)
    as (e' & He' & _ & _ & Hb).
  exists e'. split; [exact He'|exact Hb].
Defined.

Lemma one_entry_room : headroom 2 (example_world one_entry).
Proof.
  destruct (world_after_interns length_hash bytes_dump 1 2 7 [[x61%byte]])
    as (_ & _ & Hroom); [cbn [length]; lia|].
  eapply headroom_le; [|exact Hroom]. cbn [length]. lia.
Qed.

(** X18 at the world that holds ["a"], for ["a"] and then ["b"]. *)
Lemma interning_is_injective_witness :
  table_inv length_hash (example_world one_entry) ∧
  headroom 2 (example_world one_entry) ∧
  ∃ s1 w1 s2 w2,
    ManagedMemorySlice length_hash [x61%byte] (example_world one_entry)
      = Ok (s1, w1) ∧
    ManagedMemorySlice length_hash [x62%byte] w1 = Ok (s2, w2) ∧
    s1 ≠ s2.
Proof.
  destruct one_entry_inv as [Hinv _].
  split; [exact Hinv|]. split; [exact one_entry_room|].
  destruct (interning_is_injective length_hash bytes_dump 1
              (example_world one_entry) [x61%byte] [x62%byte] Hinv one_entry_room)
    as (s1 & w1 & s2 & w2 & Hrun1 & Hrun2 & Hiff).
  exists s1, w1, s2, w2. split; [exact Hrun1|]. split; [exact Hrun2|].
  intros Heq. apply Hiff in Heq. discriminate Heq.
Defined.
